(** * content-factory: the directive-resolution engine

    A shallow embedding of [src/utils/preprocessor.ts] (class [Preprocessor]),
    of [Engine.resolveFilePath], [Engine.readFile], [Engine.readFiles] and
    the grouping loop of [Engine.run] from [src/core/engine.ts], and of the
    path helpers [removePathStartSegments] and [replacePathSegment] of
    [src/utils/fs.ts], together with the parts of the JavaScript and
    Node.js runtime these functions call ([String.prototype] and
    [Array.prototype] methods, the regular expressions of the source,
    [path.resolve], [path.dirname], [path.isAbsolute], [path.normalize],
    [path.join]).

    Strings are sequences of code units; the development works with code
    units below 256 ([ascii]).  Indices are [Z], as [indexOf] answers [-1].
    Paths are POSIX paths.
    The visitation [Set] is an insertion-ordered list without duplicates,
    threaded through the calls as explicit state together with the log of
    the paths handed to [fs.readFile]. *)

From Stdlib Require Import String Ascii List ZArith Lia Bool Arith.
Import ListNotations.

Local Open Scope string_scope.
Local Open Scope Z_scope.

(* ================================================================== *)
(** ** The JavaScript string primitives used by the source *)

Module JS.

Fixpoint sdrop (n : nat) (s : string) : string :=
  match n, s with
  | O, _ => s
  | S _, EmptyString => EmptyString
  | S n', String _ s' => sdrop n' s'
  end.

Fixpoint stake (n : nat) (s : string) : string :=
  match n, s with
  | O, _ => EmptyString
  | S _, EmptyString => EmptyString
  | S n', String c s' => String c (stake n' s')
  end.

(** [s.length] *)
Definition len (s : string) : Z := Z.of_nat (String.length s).

Definition clamp (s : string) (i : Z) : Z := Z.max 0 (Z.min i (len s)).

(** [s.substring(i, j)]: both indices are clamped to [0, s.length] and
    swapped when [i > j]. *)
Definition substring (s : string) (i j : Z) : string :=
  let a := clamp s i in
  let b := clamp s j in
  let lo := Z.min a b in
  let hi := Z.max a b in
  stake (Z.to_nat (hi - lo)) (sdrop (Z.to_nat lo) s).

(** [s.substring(i)] and, for the non-negative indices of the source,
    [s.slice(i)]. *)
Definition substring_from (s : string) (i : Z) : string :=
  substring s i (len s).

(** Offset of the first occurrence of [pat] in [s], if any. *)
Fixpoint find (pat s : string) : option nat :=
  if String.prefix pat s then Some O
  else match s with
       | EmptyString => None
       | String _ s' => option_map S (find pat s')
       end.

(** [s.indexOf(pat, pos)] *)
Definition indexOf (s pat : string) (pos : Z) : Z :=
  let start := clamp s pos in
  match find pat (sdrop (Z.to_nat start) s) with
  | Some k => start + Z.of_nat k
  | None => -1
  end.

(** [s.startsWith(pat)] *)
Definition startsWith (s pat : string) : bool := String.prefix pat s.

(** [s.endsWith(pat)] *)
Definition endsWith (s pat : string) : bool :=
  let n := String.length s in
  let m := String.length pat in
  (m <=? n)%nat && String.eqb (sdrop (n - m) s) pat.

(** White space and line terminators, as [\s] and [trim] see them, among
    the code units below 256: TAB, LF, VT, FF, CR, SP and NBSP. *)
Definition is_space (c : ascii) : bool :=
  let n := nat_of_ascii c in
  ((9 <=? n) && (n <=? 13) || (n =? 32) || (n =? 160))%nat.

Fixpoint trimStart (s : string) : string :=
  match s with
  | EmptyString => EmptyString
  | String c s' => if is_space c then trimStart s' else s
  end.

Fixpoint trimEnd (s : string) : string :=
  match s with
  | EmptyString => EmptyString
  | String c s' =>
      match trimEnd s' with
      | EmptyString => if is_space c then EmptyString else String c EmptyString
      | r => String c r
      end
  end.

(** [s.trim()] *)
Definition trim (s : string) : string := trimEnd (trimStart s).

(** [s.split(sep)] for a separator of one code unit; the answer is never
    the empty array. *)
Fixpoint split (sep : ascii) (s : string) : list string :=
  match s with
  | EmptyString => [EmptyString]
  | String c s' =>
      if Ascii.eqb c sep then EmptyString :: split sep s'
      else match split sep s' with
           | [] => [String c EmptyString]
           | h :: t => String c h :: t
           end
  end.

(** [parts.join(sep)] *)
Fixpoint join (sep : string) (parts : list string) : string :=
  match parts with
  | [] => EmptyString
  | [x] => x
  | x :: rest => x ++ sep ++ join sep rest
  end.

(** ECMAScript [GetSubstitution] for a string pattern: there are no
    captures, so [$$], [$&], [$`] and [$'] are the only patterns that
    expand; [$1], [$<] and a lone [$] stay as they are. *)
Fixpoint getSubstitution (matched before after template : string) : string :=
  match template with
  | EmptyString => EmptyString
  | String "$" (String "$" rest) =>
      String "$" (getSubstitution matched before after rest)
  | String "$" (String "&" rest) =>
      matched ++ getSubstitution matched before after rest
  | String "$" (String "`" rest) =>
      before ++ getSubstitution matched before after rest
  | String "$" (String "'" rest) =>
      after ++ getSubstitution matched before after rest
  | String c rest => String c (getSubstitution matched before after rest)
  end.

(** [s.replace(pat, replacement)] with a string pattern: only the first
    occurrence is replaced, and the replacement is a template. *)
Definition replace (s pat replacement : string) : string :=
  match find pat s with
  | None => s
  | Some k =>
      let before := stake k s in
      let after := sdrop (k + String.length pat) s in
      before ++ getSubstitution pat before after replacement ++ after
  end.

(** What a replacement of the first occurrence by the text itself, with no
    template expansion, gives.  The source never calls this; it is the
    reading of "literal substitution" the behaviour is compared with. *)
Definition replace_verbatim (s pat replacement : string) : string :=
  match find pat s with
  | None => s
  | Some k => stake k s ++ replacement ++ sdrop (k + String.length pat) s
  end.

End JS.

(* ================================================================== *)
(** ** Regular expressions, as a backtracking matcher

    The three expressions of the source are built from literals, single
    code units of a class, greedy runs of a class, capture groups, an
    optional group and an alternation.  [run] tries the alternatives in
    the order a backtracking matcher does: a greedy run gives back one code
    unit at a time, an optional group is tried before it is skipped, the
    left branch of an alternation before the right one. *)

Module Regex.

Inductive regex : Type :=
| Lit (s : string)
| One (p : ascii -> bool)
| Many (p : ascii -> bool) (min : nat)
| Group (i : nat) (r : regex)
| Seq (r1 r2 : regex)
| Alt (r1 r2 : regex)
| Opt (r : regex).

Definition captures : Type := list (nat * string).

Fixpoint capture (i : nat) (caps : captures) : option string :=
  match caps with
  | [] => None
  | (j, s) :: rest => if (i =? j)%nat then Some s else capture i rest
  end.

(** The text consumed between [s] and its suffix [s']. *)
Definition consumed (s s' : string) : string :=
  JS.stake (String.length s - String.length s') s.

Section Matcher.

Context {A : Type}.

Fixpoint many (p : ascii -> bool) (min : nat) (s : string)
         (k : string -> option A) : option A :=
  match s with
  | String c s' =>
      if p c then
        match many p (Nat.pred min) s' k with
        | Some r => Some r
        | None => if (min =? 0)%nat then k s else None
        end
      else if (min =? 0)%nat then k s else None
  | EmptyString => if (min =? 0)%nat then k s else None
  end.

Fixpoint run (r : regex) (s : string) (caps : captures)
         (k : string -> captures -> option A) : option A :=
  match r with
  | Lit l =>
      if String.prefix l s then k (JS.sdrop (String.length l) s) caps
      else None
  | One p =>
      match s with
      | String c s' => if p c then k s' caps else None
      | EmptyString => None
      end
  | Many p min => many p min s (fun s' => k s' caps)
  | Group i r' =>
      run r' s caps (fun s' caps' => k s' ((i, consumed s s') :: caps'))
  | Seq r1 r2 => run r1 s caps (fun s' caps' => run r2 s' caps' k)
  | Alt r1 r2 =>
      match run r1 s caps k with
      | Some x => Some x
      | None => run r2 s caps k
      end
  | Opt r' =>
      match run r' s caps k with
      | Some x => Some x
      | None => k s caps
      end
  end.

End Matcher.

(** A sequence of expressions, one after the other. *)
Fixpoint sequence (rs : list regex) : regex :=
  match rs with
  | [] => Lit EmptyString
  | [r] => r
  | r :: rest => Seq r (sequence rest)
  end.

(** A match anchored at the start of [s]: the matched text and the
    captures. *)
Definition matchHere (r : regex) (s : string) : option (string * captures) :=
  run r s [] (fun s' caps => Some (consumed s s', caps)).

(** [s.match(r)] for an expression without the [g] flag: the leftmost
    match. *)
Fixpoint firstMatch (r : regex) (s : string) : option (string * captures) :=
  match matchHere r s with
  | Some m => Some m
  | None =>
      match s with
      | EmptyString => None
      | String _ s' => firstMatch r s'
      end
  end.

(** The loop [while ((m = r.exec(s)) !== null)] for an expression with the
    [g] flag that matches no empty text: the matches from left to right,
    each search resuming where the previous match ended.  [skip] counts the
    code units of the previous match still to be passed over. *)
Fixpoint execAll (r : regex) (skip : nat) (s : string)
  : list (string * captures) :=
  match s with
  | EmptyString => []
  | String _ s' =>
      match skip with
      | S n => execAll r n s'
      | O =>
          match matchHere r s with
          | Some (m, caps) => (m, caps) :: execAll r (String.length m - 1) s'
          | None => execAll r O s'
          end
      end
  end.

End Regex.

(* ================================================================== *)
(** ** The POSIX [path] module of Node.js *)

Module Path.

(** [path.isAbsolute(p)] *)
Definition isAbsolute (p : string) : bool :=
  match p with
  | String "/" _ => true
  | _ => false
  end.

(** [normalizeString]: the segments between separators, where empty
    segments and [.] vanish and [..] removes the segment before it;
    [acc] is the result so far, last segment first. *)
Fixpoint normalizeSegments (allowAboveRoot : bool) (segs acc : list string)
  : list string :=
  match segs with
  | [] => rev acc
  | seg :: rest =>
      if String.eqb seg "" || String.eqb seg "." then
        normalizeSegments allowAboveRoot rest acc
      else if String.eqb seg ".." then
        match acc with
        | top :: acc' =>
            if String.eqb top ".." then
              normalizeSegments allowAboveRoot rest
                (if allowAboveRoot then ".." :: acc else acc)
            else normalizeSegments allowAboveRoot rest acc'
        | [] =>
            normalizeSegments allowAboveRoot rest
              (if allowAboveRoot then [".."] else [])
        end
      else normalizeSegments allowAboveRoot rest (seg :: acc)
  end.

(** The loop of [path.resolve] over its arguments from the last to the
    first and then the working directory, until an absolute one is met. *)
Fixpoint resolveLoop (paths : list string) (resolvedPath : string)
  : string * bool :=
  match paths with
  | [] => (resolvedPath, false)
  | p :: rest =>
      if String.eqb p "" then resolveLoop rest resolvedPath
      else
        let resolvedPath' := p ++ "/" ++ resolvedPath in
        if isAbsolute p then (resolvedPath', true)
        else resolveLoop rest resolvedPath'
  end.

(** [path.resolve(...args)] in a process whose working directory is
    [cwd]. *)
Definition resolve (cwd : string) (args : list string) : string :=
  let (resolvedPath, resolvedAbsolute) := resolveLoop (rev args ++ [cwd]) "" in
  let normalized :=
    JS.join "/"
      (normalizeSegments (negb resolvedAbsolute) (JS.split "/" resolvedPath) [])
  in
  if resolvedAbsolute then "/" ++ normalized
  else if String.eqb normalized "" then "." else normalized.

(** The backwards loop of [path.dirname], from index [i] down to 1. *)
Fixpoint dirnameEnd (p : string) (i : nat) (matchedSlash : bool) : Z :=
  match i with
  | O => -1
  | S i' =>
      match String.get i p with
      | Some "/"%char =>
          if matchedSlash then dirnameEnd p i' matchedSlash else Z.of_nat i
      | _ => dirnameEnd p i' false
      end
  end.

(** [path.dirname(p)] *)
Definition dirname (p : string) : string :=
  if String.eqb p "" then "."
  else
    let hasRoot := isAbsolute p in
    let e := dirnameEnd p (String.length p - 1) true in
    if e =? -1 then (if hasRoot then "/" else ".")
    else if hasRoot && (e =? 1) then "//"
    else JS.substring p 0 e.

End Path.

(* ================================================================== *)
(** ** [Preprocessor] *)

Module Preprocessor.

(** *** Pipelines *)

(** The argument object of a [PipelineFn].  The [engine] field is left
    out: a pipeline is modelled as a function of the fields below. *)
Record PipelineArgs : Type := mkPipelineArgs {
  pa_content : string;
  pa_pipelineName : string;
  pa_toolName : string;
  pa_strategyName : string;
  pa_params : list string
}.

(** What awaiting a pipeline gives: an object whose [content] is a string,
    anything else ([void], an object without a string [content]), or an
    exception. *)
Inductive PipelineResult : Type :=
| WithContent (content : string)
| WithoutContent
| Threw.

Definition PipelineFn : Type := PipelineArgs -> PipelineResult.

(** [Record<string, PipelineFn>], looked up by name. *)
Definition Registry : Type := string -> option PipelineFn.

Record Stage : Type := mkStage {
  name : string;
  params : list string
}.

(** The closure [pushCurrent] of [parsePipelineString], as a function of
    the variables [current] and [result] it reads and writes.  When the
    trimmed text is empty it returns before [current] is reset. *)
Definition pushCurrent (current : string) (result : list Stage)
  : list Stage * string :=
  let trimmed := JS.trim current in
  if String.eqb trimmed EmptyString then (result, current)
  else
    let parenStart := JS.indexOf trimmed "(" 0 in
    if negb (parenStart =? -1) && JS.endsWith trimmed ")" then
      let name := JS.trim (JS.substring trimmed 0 parenStart) in
      let paramsStr :=
        JS.substring trimmed (parenStart + 1) (JS.len trimmed - 1) in
      let params :=
        filter (fun p => 0 <? JS.len p)
               (map JS.trim (JS.split "," paramsStr)) in
      ((result ++ [mkStage name params])%list, EmptyString)
    else ((result ++ [mkStage trimmed []])%list, EmptyString).

(** The [for] loop of [parsePipelineString] over the code units of the
    input, and the last [pushCurrent] after it. *)
Fixpoint parseLoop (input : string) (result : list Stage) (current : string)
         (depth : Z) : list Stage :=
  match input with
  | EmptyString => fst (pushCurrent current result)
  | String char rest =>
      let depth' :=
        if Ascii.eqb char "(" then depth + 1
        else if Ascii.eqb char ")" then depth - 1
        else depth in
      if Ascii.eqb char "," && (depth' =? 0) then
        let (result', current') := pushCurrent current result in
        parseLoop rest result' current' depth'
      else parseLoop rest result (current ++ String char EmptyString) depth'
  end.

Definition parsePipelineString (input : string) : list Stage :=
  parseLoop input [] EmptyString 0.

(** The [for] loop of [executePipelines].  The answer is [currentContent]
    together with the argument objects the pipeline functions were called
    with, in call order. *)
Fixpoint runStages (content : string) (availablePipelines : Registry)
         (toolName strategyName : string) (pipelinesToRun : list Stage)
         (currentContent : string) : string * list PipelineArgs :=
  match pipelinesToRun with
  | [] => (currentContent, [])
  | stage :: rest =>
      match availablePipelines (name stage) with
      | None =>
          runStages content availablePipelines toolName strategyName rest
                    currentContent
      | Some pipelineFn =>
          let args :=
            mkPipelineArgs content (name stage) toolName strategyName
                           (params stage) in
          let currentContent' :=
            match pipelineFn args with
            | WithContent c => c
            | WithoutContent => currentContent
            | Threw => currentContent
            end in
          let (final, calls) :=
            runStages content availablePipelines toolName strategyName rest
                      currentContent' in
          (final, args :: calls)
      end
  end.

Definition executePipelinesTraced (content pipelinesStr : string)
           (availablePipelines : Registry) (toolName strategyName : string)
  : string * list PipelineArgs :=
  runStages content availablePipelines toolName strategyName
            (parsePipelineString pipelinesStr) content.

Definition executePipelines (content pipelinesStr : string)
           (availablePipelines : Registry) (toolName strategyName : string)
  : string :=
  fst (executePipelinesTraced content pipelinesStr availablePipelines
                              toolName strategyName).

(** *** Paths *)

Definition resolvePath (cwd filePath rootPath currentFilePath : string)
  : string :=
  if Path.isAbsolute filePath then filePath
  else if JS.startsWith filePath "@/" then
    Path.resolve cwd [rootPath; JS.substring_from filePath 2]
  else
    let currentDir := Path.dirname currentFilePath in
    Path.resolve cwd [currentDir; filePath].

(** *** Visibility *)

Definition TAG_OPEN_START : string := "<content-factory-filter".
Definition TAG_CLOSE : string := "</content-factory-filter>".

Definition dquote : ascii := "034"%char.

Definition isQuote (c : ascii) : bool :=
  Ascii.eqb c dquote || Ascii.eqb c "'".

Definition notQuote (c : ascii) : bool := negb (isQuote c).

(** The expression [name\s*=\s*QUOTE(NOT-QUOTE+)QUOTE] with [include] or
    [exclude] for [name], where QUOTE is either quote character. *)
Definition attributeRegex (attr : string) : Regex.regex :=
  Regex.sequence
    [Regex.Lit attr; Regex.Many JS.is_space 0; Regex.Lit "=";
     Regex.Many JS.is_space 0; Regex.One isQuote;
     Regex.Group 1 (Regex.Many notQuote 1); Regex.One isQuote].

(** [m ? m[1].split(",").map((s) => s.trim()) : []] for
    [m = openingTagStr.match(attributeRegex)]. *)
Definition attributeList (attr openingTagStr : string) : list string :=
  match Regex.firstMatch (attributeRegex attr) openingTagStr with
  | Some (_, caps) =>
      match Regex.capture 1 caps with
      | Some v => map JS.trim (JS.split "," v)
      | None => []
      end
  | None => []
  end.

Definition includesTool (l : list string) (tool : string) : bool :=
  existsb (String.eqb tool) l.

Definition shouldKeep (openingTagStr currentTool : string) : bool :=
  let includes := attributeList "include" openingTagStr in
  let excludes := attributeList "exclude" openingTagStr in
  let isIncluded :=
    (Nat.eqb (List.length includes) 0) || includesTool includes currentTool in
  let isExcluded := includesTool excludes currentTool in
  isIncluded && negb isExcluded.

(** The [while] loop that looks for the closing tag matching the first
    opening tag.  Every turn moves [cursor] forward, so [fuel] turns are
    enough when [fuel] exceeds the length of the text; [None] is the
    answer only when the fuel is spent. *)
Fixpoint findClosing (fuel : nat) (text : string) (depth cursor : Z)
  : option Z :=
  if cursor <? JS.len text then
    match fuel with
    | O => None
    | S fuel' =>
        let nextOpen := JS.indexOf text TAG_OPEN_START cursor in
        let nextClose := JS.indexOf text TAG_CLOSE cursor in
        if nextClose =? -1 then Some (-1)
        else if negb (nextOpen =? -1) && (nextOpen <? nextClose) then
          findClosing fuel' text (depth + 1)
                      (nextOpen + JS.len TAG_OPEN_START)
        else
          let depth' := depth - 1 in
          if depth' =? 0 then Some nextClose
          else findClosing fuel' text depth' (nextClose + JS.len TAG_CLOSE)
    end
  else Some (-1).

(** The first filter region of a text, as [processVisibility] delimits it:
    the indices [startIndex], [openingTagEnd] and [closingIndex]. *)
Record Region : Type := mkRegion {
  startIndex : Z;
  openingTagEnd : Z;
  closingIndex : Z
}.

Definition firstRegion (text : string) : option Region :=
  let startIndex := JS.indexOf text TAG_OPEN_START 0 in
  if startIndex =? -1 then None
  else
    match findClosing (S (String.length text)) text 0 startIndex with
    | None => None
    | Some closingIndex =>
        if closingIndex =? -1 then None
        else
          Some (mkRegion startIndex (JS.indexOf text ">" startIndex)
                         closingIndex)
    end.

Definition openingTagStr (text : string) (r : Region) : string :=
  JS.substring text (startIndex r) (openingTagEnd r + 1).

Definition innerContentRaw (text : string) (r : Region) : string :=
  JS.substring text (openingTagEnd r + 1) (closingIndex r).

Definition remainingText (text : string) (r : Region) : string :=
  JS.substring_from text (closingIndex r + JS.len TAG_CLOSE).

Definition textBefore (text : string) (r : Region) : string :=
  JS.substring text 0 (startIndex r).

(** [processVisibility], with the depth of its recursion bounded by
    [fuel]; [None] when the bound is reached. *)
Fixpoint processVisibilityFuel (fuel : nat) (text currentTool : string)
  : option string :=
  match fuel with
  | O => None
  | S fuel' =>
      match firstRegion text with
      | None => Some text
      | Some r =>
          let replacement :=
            if shouldKeep (openingTagStr text r) currentTool then
              processVisibilityFuel fuel' (innerContentRaw text r) currentTool
            else Some EmptyString in
          let processedRemaining :=
            processVisibilityFuel fuel' (remainingText text r) currentTool in
          match replacement, processedRemaining with
          | Some a, Some b => Some (textBefore text r ++ a ++ b)
          | _, _ => None
          end
      end
  end.

(** Both recursive calls are on shorter texts, so a bound above the
    length of the text is never reached (lemma [processVisibilityFuel_total]
    below); the second branch is there for the definition to be total. *)
Definition processVisibility (text currentTool : string) : string :=
  match processVisibilityFuel (S (String.length text)) text currentTool with
  | Some r => r
  | None => text
  end.

(** *** Includes *)

Definition includeRegex : Regex.regex :=
  Regex.sequence
    [Regex.Lit "<content-factory-include-file"; Regex.Many JS.is_space 1;
     Regex.Lit "path"; Regex.Many JS.is_space 0; Regex.Lit "=";
     Regex.Many JS.is_space 0; Regex.One isQuote;
     Regex.Group 1 (Regex.Many notQuote 1); Regex.One isQuote;
     Regex.Opt
       (Regex.sequence
          [Regex.Many JS.is_space 1; Regex.Lit "pipelines";
           Regex.Many JS.is_space 0; Regex.Lit "=";
           Regex.Many JS.is_space 0; Regex.One isQuote;
           Regex.Group 2 (Regex.Many notQuote 1); Regex.One isQuote]);
     Regex.Many JS.is_space 0;
     Regex.Alt (Regex.Lit "/>")
               (Regex.Lit "></content-factory-include-file>")].

Record IncludeMatch : Type := mkIncludeMatch {
  fullMatch : string;
  filePath : string;
  pipelinesStr : option string
}.

Definition toIncludeMatch (m : string * Regex.captures) : IncludeMatch :=
  mkIncludeMatch (fst m)
    (match Regex.capture 1 (snd m) with Some p => p | None => EmptyString end)
    (Regex.capture 2 (snd m)).

(** The array [matches] of [processIncludes]. *)
Definition findIncludes (text : string) : list IncludeMatch :=
  map toIncludeMatch (Regex.execAll includeRegex 0 text).

Record PreprocessOptions : Type := mkOptions {
  content : string;
  toolName : string;
  strategyName : string;
  pipelines : option Registry;
  rootPath : string;
  currentFilePath : string
}.

(** The options object [processIncludes] is called with. *)
Record IncludeOptions : Type := mkIncludeOptions {
  io_toolName : string;
  io_strategyName : string;
  io_pipelines : option Registry;
  io_rootPath : string;
  io_currentFilePath : string
}.


(** The state the calls share: the [Set] [visitedFiles] in insertion
    order, and the paths [fs.readFile] was called with, oldest first. *)
Record State : Type := mkState {
  visitedFiles : list string;
  fileReads : list string
}.

(** How a call ends: the promise is fulfilled with a text, or rejected
    with the message of the [Error]; [NoFuel] is the model's answer when
    the bound on the nesting of calls is reached. *)
Inductive Outcome : Type :=
| Fulfilled (text : string)
| Rejected (message : string)
| NoFuel.

Definition setHas (visited : list string) (p : string) : bool :=
  existsb (String.eqb p) visited.

Definition setAdd (visited : list string) (p : string) : list string :=
  if setHas visited p then visited else (visited ++ [p])%list.

Definition setDelete (visited : list string) (p : string) : list string :=
  filter (fun q => negb (String.eqb p q)) visited.

Definition newline : string := String "010"%char EmptyString.

Definition circularMessage (visited : list string) (p : string) : string :=
  "[Transmute] Circular dependency detected: " ++ p
  ++ " is already being processed." ++ newline
  ++ "Include chain: " ++ JS.join " -> " visited ++ " -> " ++ p.

Definition missingFileMarker (filePath : string) : string :=
  "[MISSING FILE: " ++ filePath ++ "]".

Section Files.

(** The working directory of the process and the file system:
    [readFile p] is the content [fs.readFile(p, "utf-8")] resolves to, or
    [None] when it rejects. *)
Variable cwd : string.
Variable readFile : string -> option string.

(** The [for] loop of [processIncludes] over [matches]; [recur] is
    [Preprocessor.process]. *)
Fixpoint includeLoop (recur : PreprocessOptions -> State -> Outcome * State)
         (options : IncludeOptions) (matches : list IncludeMatch)
         (text : string) (st : State) : Outcome * State :=
  match matches with
  | [] => (Fulfilled text, st)
  | m :: rest =>
      let resolvedPath :=
        resolvePath cwd (filePath m) (io_rootPath options)
                    (io_currentFilePath options) in
      let st1 := mkState (visitedFiles st) (fileReads st ++ [resolvedPath])%list in
      match readFile resolvedPath with
      | None =>
          let includedContent := missingFileMarker (filePath m) in
          includeLoop recur options rest
                      (JS.replace text (fullMatch m) includedContent) st1
      | Some includedContent =>
          match
            recur (mkOptions includedContent (io_toolName options)
                             (io_strategyName options) (io_pipelines options)
                             (io_rootPath options) resolvedPath) st1
          with
          | (Fulfilled processedContent, st2) =>
              let processedContent' :=
                match pipelinesStr m, io_pipelines options with
                | Some ps, Some registry =>
                    if String.eqb ps EmptyString then processedContent
                    else executePipelines processedContent ps registry
                                          (io_toolName options)
                                          (io_strategyName options)
                | _, _ => processedContent
                end in
              includeLoop recur options rest
                          (JS.replace text (fullMatch m) processedContent') st2
          | (failure, st2) => (failure, st2)
          end
      end
  end.

Definition processIncludes
           (recur : PreprocessOptions -> State -> Outcome * State)
           (text : string) (options : IncludeOptions) (st : State)
  : Outcome * State :=
  includeLoop recur options (findIncludes text) text st.

(** [Preprocessor.process]; [fuel] bounds the nesting of the calls. *)
Fixpoint process (fuel : nat) (options : PreprocessOptions) (st : State)
  : Outcome * State :=
  let normalizedCurrentPath := Path.resolve cwd [currentFilePath options] in
  if setHas (visitedFiles st) normalizedCurrentPath then
    (Rejected (circularMessage (visitedFiles st) normalizedCurrentPath), st)
  else
    match fuel with
    | O => (NoFuel, st)
    | S fuel' =>
        let st1 :=
          mkState (setAdd (visitedFiles st) normalizedCurrentPath)
                  (fileReads st) in
        let text := processVisibility (content options) (toolName options) in
        match
          processIncludes (process fuel') text
            (mkIncludeOptions (toolName options) (strategyName options)
                              (pipelines options) (rootPath options)
                              normalizedCurrentPath) st1
        with
        | (Fulfilled text', st2) =>
            (Fulfilled text',
             mkState (setDelete (visitedFiles st2) normalizedCurrentPath)
                     (fileReads st2))
        | (failure, st2) => (failure, st2)
        end
    end.

End Files.

(** A call without [visitedFiles]: the set is a new, empty one. *)
Definition initialState : State := mkState [] [].

End Preprocessor.

(* ================================================================== *)
(** ** A finite file system *)

Module FileSystem.

(** The files that can be read, each path with its content; reading any
    other path fails. *)
Definition files : Type := list (string * string).

Definition lookupFile (fs : files) (p : string) : option string :=
  match List.find (fun entry => String.eqb (fst entry) p) fs with
  | Some entry => Some (snd entry)
  | None => None
  end.

End FileSystem.

(* ================================================================== *)
(** ** [Engine.resolveFilePath] *)

Module Engine.

Definition resolveFilePath (cwd root filePath : string) : string :=
  if Path.isAbsolute filePath then filePath
  else if JS.startsWith filePath "@/" then
    Path.resolve cwd [root; JS.substring_from filePath 2]
  else Path.resolve cwd [root; filePath].

End Engine.


(* ================================================================== *)
(** ** Reference readings, used to state the properties *)

Module Reading.

Import Preprocessor.

(** The argument object a stage is called with when it is shown the text
    [shown]. *)
Definition stageArgs (shown toolName strategyName : string) (stage : Stage)
  : PipelineArgs :=
  mkPipelineArgs shown (name stage) toolName strategyName (params stage).

(** The content a stage produces when shown [shown], if it is registered
    and returns content. *)
Definition stageOutput (registry : Registry)
           (shown toolName strategyName : string) (stage : Stage)
  : option string :=
  match registry (name stage) with
  | Some pipelineFn =>
      match pipelineFn (stageArgs shown toolName strategyName stage) with
      | WithContent c => Some c
      | _ => None
      end
  | None => None
  end.

Definition isRegistered (registry : Registry) (stage : Stage) : bool :=
  match registry (name stage) with
  | Some _ => true
  | None => false
  end.

(** The last content among the outputs, or [initial] when there is none. *)
Fixpoint lastContent (initial : string) (outputs : list (option string))
  : string :=
  match outputs with
  | [] => initial
  | Some c :: rest => lastContent c rest
  | None :: rest => lastContent initial rest
  end.

(** A walk over a segment of a pipeline specification with the depth
    counter of the parser: [Some d] when no comma is met at depth zero,
    where [d] is the depth at the end. *)
Fixpoint depthAfter (segment : string) (depth : Z) : option Z :=
  match segment with
  | EmptyString => Some depth
  | String c rest =>
      let depth' :=
        if Ascii.eqb c "(" then depth + 1
        else if Ascii.eqb c ")" then depth - 1
        else depth in
      if Ascii.eqb c "," && (depth' =? 0) then None
      else depthAfter rest depth'
  end.

(** [lacks c s]: the code unit [c] does not occur in [s]. *)
Fixpoint lacks (c : ascii) (s : string) : bool :=
  match s with
  | EmptyString => true
  | String d rest => negb (Ascii.eqb d c) && lacks c rest
  end.

(** The parameters a parenthesized list stands for: the pieces between
    its commas, trimmed, the empty ones dropped. *)
Definition paramsOf (paramsStr : string) : list string :=
  filter (fun p => negb (String.eqb p EmptyString))
         (map JS.trim (JS.split "," paramsStr)).

(** The loop of [parsePipelineString] with the pieces it hands to
    [pushCurrent] left as they are: the input is cut at the commas met
    while the counter [depth] of the source is zero, and nowhere else;
    [current] is the piece being read.  The counter is the one of the
    source: a closing parenthesis takes it below zero. *)
Fixpoint loopPieces (input current : string) (depth : Z) : list string :=
  match input with
  | EmptyString => [current]
  | String c rest =>
      let depth' :=
        if Ascii.eqb c "(" then depth + 1
        else if Ascii.eqb c ")" then depth - 1
        else depth in
      if Ascii.eqb c "," && (depth' =? 0) then
        current :: loopPieces rest EmptyString depth'
      else loopPieces rest (current ++ String c EmptyString) depth'
  end.

(** What [pushCurrent] makes of one piece: the stage it pushes, if
    any. *)
Definition stageOf (segment : string) : list Stage :=
  fst (pushCurrent segment []).

(** *** The specification's reading of a pipeline specification

    "Split the specification string on top-level commas (commas inside a
    parameter list are not top-level)".  A comma is inside a parameter
    list when an opening parenthesis before it is not closed yet; [open]
    counts the parentheses that are open, and a closing parenthesis that
    closes none leaves it at zero. *)
Definition specOpenAfter (c : ascii) (open : nat) : nat :=
  if Ascii.eqb c "(" then S open
  else if Ascii.eqb c ")" then Nat.pred open
  else open.

(** The number of parentheses open at the end of [s]. *)
Fixpoint specOpenCount (s : string) (open : nat) : nat :=
  match s with
  | EmptyString => open
  | String c rest => specOpenCount rest (specOpenAfter c open)
  end.

(** The segments between the top-level commas; [current] is the segment
    being read. *)
Fixpoint specSegments (input current : string) (open : nat) : list string :=
  match input with
  | EmptyString => [current]
  | String c rest =>
      if Ascii.eqb c "," && (open =? 0)%nat then
        current :: specSegments rest EmptyString open
      else
        specSegments rest (current ++ String c EmptyString)
                     (specOpenAfter c open)
  end.

Definition specTopLevelSegments (input : string) : list string :=
  specSegments input EmptyString 0.

(** Every closing parenthesis of [input] closes an opening one before
    it. *)
Fixpoint closesMatched (input : string) (open : nat) : bool :=
  match input with
  | EmptyString => true
  | String c rest =>
      if Ascii.eqb c ")" then
        match open with
        | O => false
        | S open' => closesMatched rest open'
        end
      else closesMatched rest (specOpenAfter c open)
  end.

(** [Subsequence out text]: [out] is [text] with some of its code units
    deleted, the others kept in their order. *)
Inductive Subsequence : string -> string -> Prop :=
| sub_end : Subsequence EmptyString EmptyString
| sub_keep (c : ascii) (out text : string) :
    Subsequence out text -> Subsequence (String c out) (String c text)
| sub_delete (c : ascii) (out text : string) :
    Subsequence out text -> Subsequence out (String c text).

(** The code units of [s] from index [a] to index [b], [b] excluded. *)
Definition between (a b : nat) (s : string) : string :=
  JS.stake (b - a) (JS.sdrop a s).

(** What resolving a relative [target] against an absolute directory
    [base] stands for: the segments of [base] followed by those of
    [target], normalized, under the root. *)
Definition resolveAgainst (base target : string) : string :=
  "/" ++ JS.join "/"
           (Path.normalizeSegments false
              (JS.split "/" base ++ JS.split "/" target) []).



(** [recur] only adds absolute paths at the end of the log of reads. *)
Definition ReadsAbsolute
           (recur : PreprocessOptions -> State -> Outcome * State) : Prop :=
  forall options st,
  exists more,
    fileReads (snd (recur options st)) = (fileReads st ++ more)%list
    /\ forall p, In p more -> Path.isAbsolute p = true.

(** A rejection carries the circular-dependency message for a path that
    is in the set the message lists. *)
Definition RejectsCircular
           (recur : PreprocessOptions -> State -> Outcome * State) : Prop :=
  forall options st message st',
    recur options st = (Rejected message, st') ->
    exists visited p,
      message = circularMessage visited p /\ In p visited.

(** The normalized paths of the files of a finite file system, and how
    many of them are not in the visitation set. *)
Definition knownPaths (cwd : string) (fs : FileSystem.files) : list string :=
  map (fun entry => Path.resolve cwd [fst entry]) fs.

Definition unvisited (cwd : string) (fs : FileSystem.files)
           (visited : list string) : nat :=
  List.length (filter (fun q => negb (setHas visited q)) (knownPaths cwd fs)).

(** The markers of the filter after their first code unit. *)
Definition openTail : string := "content-factory-filter".
Definition closeTail : string := "/content-factory-filter>".

(** A text with a filter region: the text after the opening marker, the
    whole text, and the offset of the closing tag in the first. *)
Definition afterOpen (attrs inner post : string) : string :=
  attrs ++ ">" ++ inner ++ TAG_CLOSE ++ post.

Definition regionText (pre attrs inner post : string) : string :=
  pre ++ TAG_OPEN_START ++ afterOpen attrs inner post.

Definition closeOffset (attrs inner : string) : nat :=
  String.length attrs + 1 + String.length inner.

(** A document as a tree of filter regions: a text without markers, or
    such a text, a region with its attributes and body, and the rest. *)
Inductive Doc : Type :=
| Plain (s : string)
| Filtered (pre attrs : string) (body rest : Doc).

(** The text of a document. *)
Fixpoint docText (d : Doc) : string :=
  match d with
  | Plain s => s
  | Filtered pre attrs body rest =>
      pre ++ TAG_OPEN_START ++ attrs ++ ">" ++ docText body ++ TAG_CLOSE
      ++ docText rest
  end.

(** What a tool is to see of a document: a region whose tag keeps the
    tool gives what the tool sees of its body, any other region
    nothing. *)
Fixpoint visible (tool : string) (d : Doc) : string :=
  match d with
  | Plain s => s
  | Filtered pre attrs body rest =>
      pre
      ++ (if shouldKeep (TAG_OPEN_START ++ attrs ++ ">") tool
          then visible tool body else EmptyString)
      ++ visible tool rest
  end.

Definition noMarker (s : string) : bool :=
  match JS.find TAG_OPEN_START s, JS.find TAG_CLOSE s with
  | None, None => true
  | _, _ => false
  end.

(** The texts between the tags hold no marker, and the attributes no
    angle bracket. *)
Fixpoint wellFormed (d : Doc) : bool :=
  match d with
  | Plain s => noMarker s
  | Filtered pre attrs body rest =>
      noMarker pre && lacks ">" attrs && lacks "<" attrs
      && wellFormed body && wellFormed rest
  end.

(** The loop of [findClosing] with the fuel that is enough at
    [cursor]. *)
Definition closing (text : string) (depth cursor : Z) : option Z :=
  findClosing (S (Z.to_nat (JS.len text - cursor))) text depth cursor.

(** The literal the include expression starts with. *)
Definition includeOpen : string := "<content-factory-include-file".

(** The same after its first code unit. *)
Definition includeOpenTail : string := "content-factory-include-file".

(** [allOf p s]: every code unit of [s] is in the class [p]. *)
Fixpoint allOf (p : ascii -> bool) (s : string) : bool :=
  match s with
  | EmptyString => true
  | String c rest => p c && allOf p rest
  end.

End Reading.

(* ================================================================== *)
(** ** Documents and file systems the properties are tried on *)

Module Fixtures.

Import Preprocessor FileSystem.

Definition quoted (s : string) : string :=
  String dquote s ++ String dquote EmptyString.

(** A self-closing include directive for [path]. *)
Definition includeTag (path : string) : string :=
  "<content-factory-include-file path=" ++ quoted path ++ " />".

(** The directive after its first code unit. *)
Definition tagTail (path : string) : string :=
  "content-factory-include-file path=" ++ quoted path ++ " />".

(** A self-closing include directive for [path] with the pipeline
    specification [ps]. *)
Definition includeTagWith (path ps : string) : string :=
  "<content-factory-include-file path=" ++ quoted path ++ " pipelines="
  ++ quoted ps ++ " />".

(** A filter region with the attribute [include] set to [tools]. *)
Definition filterRegion (tools inner : string) : string :=
  "<content-factory-filter include=" ++ quoted tools ++ ">" ++ inner
  ++ "</content-factory-filter>".

Definition workDir : string := "/work".

(** Options for the document [/t/main.md] of the project [/t]. *)
Definition mainOptions (tool : string) (registry : option Registry)
           (text : string) : PreprocessOptions :=
  mkOptions text tool "default" registry "/t" "/t/main.md".

(** Options for a file read on its own. *)
Definition fileOptions (path text : string) : PreprocessOptions :=
  mkOptions text "claude" "default" None "/t" path.

Definition mathFiles : files := [("/t/shared.md", "$$x$$")].

Definition twoSiblings : string :=
  includeTag "./shared.md" ++ "-" ++ includeTag "./shared.md".



Definition rooRegionWithInclude : string :=
  "A" ++ filterRegion "roo" (includeTag "./roo-only.md") ++ "B".


Definition bothListsRegion : string :=
  "<content-factory-filter include=" ++ quoted "claude, roo" ++ " exclude="
  ++ quoted "claude" ++ ">Content</content-factory-filter>".

Definition priceFiles : files := [("/t/price.md", "[$`|$&|$']")].

Definition priceText : string := "Cost: " ++ includeTag "./price.md" ++ "!".

Definition upperRegistry : Registry :=
  fun name =>
    if String.eqb name "append-world" then
      Some (fun args => WithContent (pa_content args ++ " world"))
    else if String.eqb name "uppercase" then
      Some (fun _ => WithContent "HELLO")
    else None.

Definition shoutStage : Stage := mkStage "uppercase" [].

Definition appendStage : Stage := mkStage "append-world" [].

Definition letterFiles : files := [("/t/a.md", "hello")].

Definition pipelinesFirst : string :=
  "<content-factory-include-file pipelines=" ++ quoted "uppercase"
  ++ " path=" ++ quoted "./a.md" ++ " />".

Definition pathFirst : string :=
  "<content-factory-include-file path=" ++ quoted "./a.md"
  ++ " pipelines=" ++ quoted "uppercase" ++ " />".

(** The files of the repository's tests of the preprocessor. *)
Definition testFiles : files :=
  [("/t/partial.md", "Included Content");
   ("/t/partials/footer.md", "Footer Content");
   ("/t/level2.md", "Level2Content");
   ("/t/level1.md", "Level1-" ++ includeTag "./level2.md" ++ "-Level1");
   ("/t/a.md", "A-" ++ includeTag "./b.md");
   ("/t/b.md", "B-" ++ includeTag "./a.md");
   ("/t/deep.md", "Deep Content");
   ("/t/middle.md",
    "Middle-" ++ filterRegion "claude" (includeTag "./deep.md") ++ "-Middle")].

Definition testRun (tool text : string) : Outcome :=
  fst (process workDir (lookupFile testFiles) 9 (mainOptions tool None text)
               initialState).

(** The registry of the test of chained pipelines: both stages discard
    their input. *)
Definition constantRegistry : Registry :=
  fun name =>
    if String.eqb name "append-world" then
      Some (fun _ => WithContent "hello world")
    else if String.eqb name "uppercase" then
      Some (fun _ => WithContent "HELLO WORLD")
    else None.

End Fixtures.

(* ================================================================== *)
(** ** [path.normalize], [path.join] and [path.sep] of Node.js (POSIX) *)

Module PathJoin.

Definition sep : string := "/".

(** [path.normalize(p)] *)
Definition normalize (p : string) : string :=
  if String.eqb p EmptyString then "."
  else
    let isAbsolute := Path.isAbsolute p in
    let trailingSeparator := JS.endsWith p "/" in
    let normalized :=
      JS.join "/"
        (Path.normalizeSegments (negb isAbsolute) (JS.split "/" p) []) in
    if String.eqb normalized EmptyString then
      if isAbsolute then "/" else if trailingSeparator then "./" else "."
    else
      let normalized' :=
        if trailingSeparator then normalized ++ "/" else normalized in
      if isAbsolute then "/" ++ normalized' else normalized'.

(** The loop of [path.join] over its arguments; [joined] is [None] while
    it is [undefined]. *)
Fixpoint joinLoop (args : list string) (joined : option string)
  : option string :=
  match args with
  | [] => joined
  | arg :: rest =>
      if 0 <? JS.len arg then
        joinLoop rest
          (Some (match joined with
                 | None => arg
                 | Some j => j ++ "/" ++ arg
                 end))
      else joinLoop rest joined
  end.

(** [path.join(...args)] *)
Definition join (args : list string) : string :=
  match joinLoop args None with
  | None => "."
  | Some joined => normalize joined
  end.

End PathJoin.

(* ================================================================== *)
(** ** The path helpers of [src/utils/fs.ts] *)

Module FsUtils.

Definition isSlash (c : ascii) : bool :=
  Ascii.eqb c "/" || Ascii.eqb c "\".

(** [s.split(/[\\/]/)] *)
Fixpoint splitSlashes (s : string) : list string :=
  match s with
  | EmptyString => [EmptyString]
  | String c s' =>
      if isSlash c then EmptyString :: splitSlashes s'
      else match splitSlashes s' with
           | [] => [String c EmptyString]
           | h :: t => String c h :: t
           end
  end.

(** [s.split(/[\\/]/).filter((segment) => segment.length > 0)] *)
Definition cleanSegments (s : string) : list string :=
  filter (fun segment => 0 <? JS.len segment) (splitSlashes s).

(** The index [Array.prototype.slice] starts or ends at, for an integer
    argument: counted from the end when negative, and kept within the
    array. *)
Definition sliceIndex {A : Type} (l : list A) (i : Z) : nat :=
  let len := Z.of_nat (List.length l) in
  Z.to_nat (if i <? 0 then Z.max (len + i) 0 else Z.min i len).

(** [l.slice(start)] *)
Definition sliceFrom {A : Type} (l : list A) (start : Z) : list A :=
  skipn (sliceIndex l start) l.

(** [l.slice(start, end)] *)
Definition slice {A : Type} (l : list A) (start end_ : Z) : list A :=
  let k := sliceIndex l start in
  firstn (sliceIndex l end_ - k) (skipn k l).

Definition startsWithSlash (inputPath : string) : bool :=
  JS.startsWith inputPath "\" || JS.startsWith inputPath "/".

(** [removePathStartSegments(inputPath, count)] for an integer [count]. *)
Definition removePathStartSegments (inputPath : string) (count : Z) : string :=
  let segments := splitSlashes inputPath in
  let cleanSegments := filter (fun segment => 0 <? JS.len segment) segments in
  if Z.of_nat (List.length cleanSegments) <=? count then EmptyString
  else
    let keptSegments := sliceFrom cleanSegments count in
    let result := PathJoin.join keptSegments in
    let isAbsolute := startsWithSlash inputPath in
    if isAbsolute then PathJoin.sep ++ result else result.

(** [slice.every((seg, idx) => seg === matchSegments[idx])] *)
Fixpoint everyEqual (slice_ matchSegments : list string) : bool :=
  match slice_ with
  | [] => true
  | seg :: rest =>
      match matchSegments with
      | [] => false
      | m :: matchSegments' => String.eqb seg m && everyEqual rest matchSegments'
      end
  end.

(** The search loop of [replacePathSegment]: [i] is the index tried and
    [turns] the number of indices left to try; [-1] when none matches. *)
Fixpoint matchLoop (inputSegments matchSegments : list string)
         (i turns : nat) : Z :=
  match turns with
  | O => -1
  | S turns' =>
      let slice_ :=
        slice inputSegments (Z.of_nat i)
              (Z.of_nat i + Z.of_nat (List.length matchSegments)) in
      if everyEqual slice_ matchSegments then Z.of_nat i
      else matchLoop inputSegments matchSegments (S i) turns'
  end.

(** [replacePathSegment(inputPath, match, replacement)] *)
Definition replacePathSegment (inputPath match_ replacement : string)
  : string :=
  let inputSegments := cleanSegments inputPath in
  let matchSegments := cleanSegments match_ in
  let replaceSegments := cleanSegments replacement in
  let matchIndex :=
    matchLoop inputSegments matchSegments 0
      (Z.to_nat (Z.of_nat (List.length inputSegments)
                 - Z.of_nat (List.length matchSegments) + 1)) in
  if matchIndex =? -1 then PathJoin.normalize inputPath
  else
    let finalSegments :=
      (slice inputSegments 0 matchIndex ++ replaceSegments
       ++ sliceFrom inputSegments
            (matchIndex + Z.of_nat (List.length matchSegments)))%list in
    let result := PathJoin.join finalSegments in
    let isAbsolute :=
      JS.startsWith inputPath "/" || JS.startsWith inputPath "\" in
    if isAbsolute && negb (JS.startsWith result PathJoin.sep) then
      PathJoin.sep ++ result
    else result.

(** [noSlash s]: neither slash occurs in [s]. *)
Definition noSlash (s : string) : bool := Reading.allOf (fun c => negb (isSlash c)) s.

(** A segment [path.join] leaves as it is: not empty, without a slash,
    and neither [.] nor [..]. *)
Definition plainSegment (seg : string) : bool :=
  negb (String.eqb seg EmptyString) && noSlash seg
  && negb (String.eqb seg ".") && negb (String.eqb seg "..").

Definition noDots (segs : list string) : bool :=
  forallb (fun seg => negb (String.eqb seg ".") && negb (String.eqb seg ".."))
          segs.

End FsUtils.

(* ================================================================== *)
(** ** [Engine]: grouping by directory, [readFile] and [readFiles] *)

Module EngineModel.

Import Preprocessor.

(** The [Map] [dirGroups] of [Engine.run], its entries in insertion
    order. *)
Definition DirGroups : Type := list (string * list string).

(** [dirGroups.has(dir)] *)
Definition groupsHas (dirGroups : DirGroups) (dir : string) : bool :=
  existsb (fun entry => String.eqb (fst entry) dir) dirGroups.

(** [dirGroups.get(dir).push(fp)] for a key that is there. *)
Fixpoint groupsPush (dirGroups : DirGroups) (dir fp : string) : DirGroups :=
  match dirGroups with
  | [] => []
  | (d, filePaths) :: rest =>
      if String.eqb d dir then (d, (filePaths ++ [fp])%list) :: rest
      else (d, filePaths) :: groupsPush rest dir fp
  end.

(** The loop of [Engine.run] that groups the discovered files by
    directory. *)
Fixpoint groupLoop (rawFilePaths : list string) (dirGroups : DirGroups)
  : DirGroups :=
  match rawFilePaths with
  | [] => dirGroups
  | fp :: rest =>
      let dir := Path.dirname fp in
      let dirGroups' :=
        if groupsHas dirGroups dir then dirGroups
        else (dirGroups ++ [(dir, [])])%list in
      groupLoop rest (groupsPush dirGroups' dir fp)
  end.

Definition groupByDirectory (rawFilePaths : list string) : DirGroups :=
  groupLoop rawFilePaths [].

(** What the grouping loop keeps true: the keys are distinct, each group
    is the paths seen so far whose directory is its key, in the order
    seen, and is not empty, and the directory of each path seen is a
    key. *)
Definition Grouped (seen : list string) (dirGroups : DirGroups) : Prop :=
  NoDup (map fst dirGroups)
  /\ (forall d filePaths,
         In (d, filePaths) dirGroups ->
         filePaths = filter (fun fp => String.eqb (Path.dirname fp) d) seen
         /\ filePaths <> [])
  /\ (forall fp, In fp seen -> In (Path.dirname fp) (map fst dirGroups)).

Record SourceFile : Type := mkSourceFile {
  sf_name : string;
  sf_content : string;
  sf_path : string;
  sf_relativePath : string;
  sf_extension : string
}.

Record ReadFileOptions : Type := mkReadFileOptions {
  rf_toolName : string;
  rf_strategyName : string;
  rf_pipelines : option string
}.

(** How [readFile] and [readFiles] end: with their value, with the
    rejection of [fs.readFile] for a path, with the rejection of
    [Preprocessor.process], or, in the model only, out of fuel. *)
Inductive ReadOutcome (A : Type) : Type :=
| Done (value : A)
| ReadFailed (path : string)
| ProcessRejected (message : string)
| ReadNoFuel.

Arguments Done {A} value.
Arguments ReadFailed {A} path.
Arguments ProcessRejected {A} message.
Arguments ReadNoFuel {A}.

Section Reads.

(** The working directory, the file system, and the functions
    [path.basename], [path.relative] and [path.extname] of Node.js, whose
    answers are only stored in the [SourceFile]. *)
Variable cwd : string.
Variable fsRead : string -> option string.
Variable basename : string -> string.
Variable relative : string -> string -> string.
Variable extname : string -> string.

(** The configuration and the root of the engine, and the bound on the
    nesting of includes. *)
Variable configPipelines : option Registry.
Variable root : string.
Variable fuel : nat.

(** What [readFile] and [readFiles] do with a path that is resolved:
    read, preprocess with a new visitation set, apply the pipelines asked
    for, and build the [SourceFile]. *)
Definition readResolved (resolvedPath : string) (options : ReadFileOptions)
  : ReadOutcome SourceFile :=
  match fsRead resolvedPath with
  | None => ReadFailed resolvedPath
  | Some rawContent =>
      match
        fst (process cwd fsRead fuel
               (mkOptions rawContent (rf_toolName options)
                          (rf_strategyName options) configPipelines root
                          resolvedPath)
               initialState)
      with
      | Fulfilled processedContent =>
          let processedContent' :=
            match rf_pipelines options, configPipelines with
            | Some ps, Some registry =>
                if String.eqb ps EmptyString then processedContent
                else executePipelines processedContent ps registry
                                      (rf_toolName options)
                                      (rf_strategyName options)
            | _, _ => processedContent
            end in
          Done (mkSourceFile (basename resolvedPath) processedContent'
                             resolvedPath (relative root resolvedPath)
                             (extname resolvedPath))
      | Rejected message => ProcessRejected message
      | NoFuel => ReadNoFuel
      end
  end.

(** [Engine.readFile(filePath, options)] *)
Definition readFile (filePath : string) (options : ReadFileOptions)
  : ReadOutcome SourceFile :=
  readResolved (Engine.resolveFilePath cwd root filePath) options.

(** The loop of [Engine.readFiles] over the paths [findFiles] answered;
    [sourceFiles] is the array built so far. *)
Fixpoint readFilesLoop (filePaths : list string) (options : ReadFileOptions)
         (sourceFiles : list SourceFile) : ReadOutcome (list SourceFile) :=
  match filePaths with
  | [] => Done sourceFiles
  | fp :: rest =>
      match readResolved fp options with
      | Done file => readFilesLoop rest options (sourceFiles ++ [file])
      | ReadFailed path => ReadFailed path
      | ProcessRejected message => ProcessRejected message
      | ReadNoFuel => ReadNoFuel
      end
  end.

(** [Engine.readFiles(patterns, options)], given the paths
    [findFiles(patterns, root)] answers. *)
Definition readFiles (filePaths : list string) (options : ReadFileOptions)
  : ReadOutcome (list SourceFile) :=
  readFilesLoop filePaths options [].

End Reads.

End EngineModel.

(* ================================================================== *)
(** * Properties *)

(** ** The primitives on small inputs *)

Example substring_swaps : JS.substring "abcdef" 4 1 = "bcd".
Proof. reflexivity. Qed.

Example indexOf_from : JS.indexOf "a>b>c" ">" 2 = 3.
Proof. reflexivity. Qed.

Example indexOf_absent : JS.indexOf "abc" "x" 0 = -1.
Proof. reflexivity. Qed.

Example trim_both : JS.trim "  a b  " = "a b".
Proof. reflexivity. Qed.

Example split_keeps_empties : JS.split "," "a,,b," = ["a"; ""; "b"; ""].
Proof. reflexivity. Qed.

Example replace_first_only : JS.replace "xAyAz" "A" "[$$|$&|$`|$'|$1]" = "x[$|A|x|yAz|$1]yAz".
Proof. reflexivity. Qed.

Example resolve_relative :
  Path.resolve "/work" ["/proj/docs"; "../shared/./a.md"] = "/proj/shared/a.md".
Proof. reflexivity. Qed.

Example resolve_uses_cwd : Path.resolve "/work" ["x//y/"] = "/work/x/y".
Proof. reflexivity. Qed.

Example resolve_last_absolute_wins :
  Path.resolve "/work" ["/proj"; "/etc/hosts"] = "/etc/hosts".
Proof. reflexivity. Qed.

Example dirname_file : Path.dirname "/proj/sub/main.md" = "/proj/sub".
Proof. reflexivity. Qed.

Example dirname_top : Path.dirname "/main.md" = "/".
Proof. reflexivity. Qed.

Example dirname_trailing : Path.dirname "a/b//" = "a".
Proof. reflexivity. Qed.

(** ** The expectations of the repository's tests *)

Module TestSuite.

Import Preprocessor FileSystem Fixtures.

Example keeps_untagged_content :
  testRun "claude" "Hello World" = Fulfilled "Hello World".
Proof. vm_compute. reflexivity. Qed.

Example keeps_region_of_included_tool :
  testRun "claude" ("Before" ++ filterRegion "claude" "Inner" ++ "After")
  = Fulfilled "BeforeInnerAfter".
Proof. vm_compute. reflexivity. Qed.

Example drops_region_of_other_tool :
  testRun "claude" ("Before" ++ filterRegion "roo" "Inner" ++ "After")
  = Fulfilled "BeforeAfter".
Proof. vm_compute. reflexivity. Qed.

Example drops_region_of_excluded_tool :
  testRun "claude"
          ("Before<content-factory-filter exclude=" ++ quoted "claude"
           ++ ">Inner</content-factory-filter>After")
  = Fulfilled "BeforeAfter".
Proof. vm_compute. reflexivity. Qed.

Example several_tools_in_include_list :
  testRun "roo" (filterRegion "claude, roo, copilot" "Content")
  = Fulfilled "Content".
Proof. vm_compute. reflexivity. Qed.

Example exclude_wins_over_include :
  testRun "claude" bothListsRegion = Fulfilled "".
Proof. vm_compute. reflexivity. Qed.

Example nested_regions :
  testRun "claude"
          (filterRegion "claude"
             ("Outer" ++ filterRegion "claude" "Inner" ++ "OuterEnd"))
  = Fulfilled "OuterInnerOuterEnd"
  /\ testRun "claude"
             (filterRegion "claude"
                ("Outer" ++ filterRegion "roo" "Inner" ++ "OuterEnd"))
     = Fulfilled "OuterOuterEnd".
Proof. split; vm_compute; reflexivity. Qed.

Example sibling_regions :
  testRun "claude"
          (filterRegion "claude" "A" ++ filterRegion "roo" "B"
           ++ filterRegion "claude" "C")
  = Fulfilled "AC".
Proof. vm_compute. reflexivity. Qed.

Example spaces_and_single_quotes_in_attributes :
  testRun "claude"
          ("<content-factory-filter include = " ++ quoted "claude"
           ++ ">Content</content-factory-filter>")
  = Fulfilled "Content"
  /\ testRun "claude"
             "<content-factory-filter include='claude'>Content</content-factory-filter>"
     = Fulfilled "Content"
  /\ testRun "claude" "<content-factory-filter>Content</content-factory-filter>"
     = Fulfilled "Content".
Proof. repeat split; vm_compute; reflexivity. Qed.

Example unclosed_region_is_left :
  testRun "claude" "x<content-factory-filter include='roo'>abc"
  = Fulfilled "x<content-factory-filter include='roo'>abc".
Proof. vm_compute. reflexivity. Qed.

Example include_relative_root_and_parent :
  testRun "claude" ("Before" ++ includeTag "./partial.md" ++ "After")
  = Fulfilled "BeforeIncluded ContentAfter"
  /\ testRun "claude" (includeTag "@/partials/footer.md")
     = Fulfilled "Footer Content"
  /\ fst (process workDir (lookupFile testFiles) 9
                  (mkOptions (includeTag "../partial.md") "claude" "default"
                             None "/t" "/t/sub/main.md")
                  initialState)
     = Fulfilled "Included Content".
Proof. repeat split; vm_compute; reflexivity. Qed.

Example include_with_closing_tag :
  testRun "claude"
          ("<content-factory-include-file path = " ++ quoted "./partial.md"
           ++ "></content-factory-include-file>")
  = Fulfilled "Included Content".
Proof. vm_compute. reflexivity. Qed.

Example include_is_recursive :
  testRun "claude" ("Main-" ++ includeTag "./level1.md" ++ "-Main")
  = Fulfilled "Main-Level1-Level2Content-Level1-Main".
Proof. vm_compute. reflexivity. Qed.

Example cycle_is_rejected :
  testRun "claude" (includeTag "./a.md")
  = Rejected
      ("[Transmute] Circular dependency detected: /t/a.md is already being processed."
       ++ newline
       ++ "Include chain: /t/main.md -> /t/a.md -> /t/b.md -> /t/a.md").
Proof. vm_compute. reflexivity. Qed.

Example visibility_inside_included_files :
  testRun "claude" (includeTag "./middle.md")
  = Fulfilled "Middle-Deep Content-Middle"
  /\ testRun "roo" (includeTag "./middle.md") = Fulfilled "Middle--Middle".
Proof. split; vm_compute; reflexivity. Qed.

Example chained_pipelines :
  executePipelines "hello" "append-world, uppercase" constantRegistry
                   "claude" "default"
  = "HELLO WORLD".
Proof. vm_compute. reflexivity. Qed.

Example documented_pipeline_string :
  parsePipelineString "remove-nth-line(5,true),add-line"
  = [mkStage "remove-nth-line" ["5"; "true"]; mkStage "add-line" []].
Proof. vm_compute. reflexivity. Qed.

End TestSuite.

(* ================================================================== *)
(** ** Facts about the string primitives *)

Module JSFacts.

Lemma length_sdrop (n : nat) (s : string) :
  String.length (JS.sdrop n s) = (String.length s - n)%nat.
Proof.
  revert s; induction n as [|n IH]; intros [|c s]; simpl; auto with arith.
Qed.

Lemma length_stake (n : nat) (s : string) :
  String.length (JS.stake n s) = Nat.min n (String.length s).
Proof.
  revert s; induction n as [|n IH]; intros [|c s]; simpl; auto.
Qed.

Lemma sdrop_sdrop (a b : nat) (s : string) :
  JS.sdrop b (JS.sdrop a s) = JS.sdrop (a + b) s.
Proof.
  revert s; induction a as [|a IH]; intros s; simpl; auto.
  destruct s as [|c s]; simpl; auto.
  destruct b; reflexivity.
Qed.

Lemma stake_sdrop (n : nat) (s : string) :
  JS.stake n s ++ JS.sdrop n s = s.
Proof.
  revert s; induction n as [|n IH]; intros [|c s]; simpl; auto.
  now rewrite IH.
Qed.

Lemma sdrop_app_length (a b : string) :
  JS.sdrop (String.length a) (a ++ b) = b.
Proof. induction a; simpl; auto. Qed.

Lemma stake_app_length (a b : string) :
  JS.stake (String.length a) (a ++ b) = a.
Proof. induction a; simpl; auto. now rewrite IHa. Qed.

Lemma sdrop_all (s : string) (n : nat) :
  (String.length s <= n)%nat -> JS.sdrop n s = EmptyString.
Proof.
  revert n; induction s as [|c s IH]; intros [|n] H; simpl in *; auto; try lia.
  apply IH; lia.
Qed.

Lemma stake_all (s : string) (n : nat) :
  (String.length s <= n)%nat -> JS.stake n s = s.
Proof.
  revert n; induction s as [|c s IH]; intros [|n] H; simpl in *; auto; try lia.
  rewrite IH; auto; lia.
Qed.

Lemma prefix_length (p s : string) :
  String.prefix p s = true -> (String.length p <= String.length s)%nat.
Proof.
  revert s; induction p as [|c p IH]; intros [|d s]; simpl; intro H;
    try lia; try discriminate.
  destruct (ascii_dec c d); try discriminate.
  apply IH in H; lia.
Qed.

Lemma prefix_app (p s : string) : String.prefix p (p ++ s) = true.
Proof.
  induction p as [|c p IH]; simpl.
  - now destruct s.
  - destruct (ascii_dec c c); [assumption | congruence].
Qed.

Lemma prefix_split (p s : string) :
  String.prefix p s = true -> s = p ++ JS.sdrop (String.length p) s.
Proof.
  revert s; induction p as [|c p IH]; intros [|d s]; simpl; intro H;
    try reflexivity; try discriminate.
  destruct (ascii_dec c d); try discriminate.
  subst; f_equal; now apply IH.
Qed.

Lemma find_nil (pat : string) :
  JS.find pat EmptyString =
  if String.prefix pat EmptyString then Some O else None.
Proof. reflexivity. Qed.

Lemma find_cons (pat : string) (c : ascii) (s : string) :
  JS.find pat (String c s) =
  if String.prefix pat (String c s) then Some O
  else option_map S (JS.find pat s).
Proof. reflexivity. Qed.

(** Where [find] answers [k], the pattern is there and fits. *)
Lemma find_some (pat s : string) (k : nat) :
  JS.find pat s = Some k ->
  String.prefix pat (JS.sdrop k s) = true /\
  (k + String.length pat <= String.length s)%nat.
Proof.
  revert k; induction s as [|c s IH]; intros k.
  - rewrite find_nil.
    destruct (String.prefix pat EmptyString) eqn:P; try discriminate.
    intros [= <-]; split; auto.
    apply prefix_length in P; simpl in *; lia.
  - rewrite find_cons.
    destruct (String.prefix pat (String c s)) eqn:P.
    + intros [= <-]; split; auto.
      apply prefix_length in P; simpl in *; lia.
    + destruct (JS.find pat s) as [j|] eqn:F; simpl; try discriminate.
      intros [= <-]; simpl.
      destruct (IH j eq_refl); split; auto; lia.
Qed.

(** No occurrence starts before the one [find] answers. *)
Lemma find_first (pat s : string) (k j : nat) :
  JS.find pat s = Some k -> (j < k)%nat ->
  String.prefix pat (JS.sdrop j s) = false.
Proof.
  revert k j; induction s as [|c s IH]; intros k j.
  - rewrite find_nil.
    destruct (String.prefix pat EmptyString); try discriminate.
    intros [= <-]; lia.
  - rewrite find_cons.
    destruct (String.prefix pat (String c s)) eqn:P.
    + intros [= <-]; lia.
    + destruct (JS.find pat s) as [i|] eqn:F; simpl; try discriminate.
      intros [= <-] Hj.
      destruct j as [|j]; simpl; auto.
      apply (IH i); auto; lia.
Qed.

Lemma find_none (pat s : string) (j : nat) :
  JS.find pat s = None -> String.prefix pat (JS.sdrop j s) = false.
Proof.
  revert j; induction s as [|c s IH]; intros j.
  - rewrite find_nil.
    destruct (String.prefix pat EmptyString) eqn:P; try discriminate.
    intros _; destruct j; exact P.
  - rewrite find_cons.
    destruct (String.prefix pat (String c s)) eqn:P; try discriminate.
    destruct (JS.find pat s) eqn:F; simpl; try discriminate.
    intros _; destruct j; simpl; auto.
Qed.

Lemma len_nonneg (s : string) : 0 <= JS.len s.
Proof. unfold JS.len; lia. Qed.

Lemma clamp_bounds (s : string) (i : Z) :
  0 <= JS.clamp s i <= JS.len s.
Proof. unfold JS.clamp; pose proof (len_nonneg s); lia. Qed.

Lemma clamp_id (s : string) (i : Z) :
  0 <= i <= JS.len s -> JS.clamp s i = i.
Proof. unfold JS.clamp; lia. Qed.

(** Where [indexOf] answers an index, it is at or after the start of the
    search, the pattern is there and fits. *)
Lemma indexOf_found (s pat : string) (pos i : Z) :
  JS.indexOf s pat pos = i -> i <> -1 ->
  JS.clamp s pos <= i /\ i + JS.len pat <= JS.len s /\
  String.prefix pat (JS.sdrop (Z.to_nat i) s) = true.
Proof.
  unfold JS.indexOf; intros H Hi.
  pose proof (clamp_bounds s pos) as Hc.
  destruct (JS.find pat (JS.sdrop (Z.to_nat (JS.clamp s pos)) s)) as [k|] eqn:F;
    [|congruence].
  apply find_some in F; destruct F as [P L].
  rewrite sdrop_sdrop in P; rewrite length_sdrop in L.
  subst i; repeat split.
  - lia.
  - unfold JS.len in *; lia.
  - replace (Z.to_nat (JS.clamp s pos + Z.of_nat k))
      with (Z.to_nat (JS.clamp s pos) + k)%nat by lia.
    exact P.
Qed.

Lemma length_substring (s : string) (i j : Z) :
  JS.len (JS.substring s i j) = Z.abs (JS.clamp s i - JS.clamp s j).
Proof.
  unfold JS.substring, JS.len.
  rewrite length_stake, length_sdrop.
  pose proof (clamp_bounds s i); pose proof (clamp_bounds s j).
  unfold JS.len in *; lia.
Qed.

End JSFacts.

(* ================================================================== *)
(** ** The visibility filter: termination and its defining equation *)

Module VisibilityFacts.

Import Preprocessor.

Lemma findClosing_eq (fuel : nat) (text : string) (depth cursor : Z) :
  findClosing fuel text depth cursor =
  if cursor <? JS.len text then
    match fuel with
    | O => None
    | S fuel' =>
        let nextOpen := JS.indexOf text TAG_OPEN_START cursor in
        let nextClose := JS.indexOf text TAG_CLOSE cursor in
        if nextClose =? -1 then Some (-1)
        else if negb (nextOpen =? -1) && (nextOpen <? nextClose) then
          findClosing fuel' text (depth + 1)
                      (nextOpen + JS.len TAG_OPEN_START)
        else
          let depth' := depth - 1 in
          if depth' =? 0 then Some nextClose
          else findClosing fuel' text depth' (nextClose + JS.len TAG_CLOSE)
    end
  else Some (-1).
Proof. destruct fuel; reflexivity. Qed.

Lemma len_open : JS.len TAG_OPEN_START = 23.
Proof. reflexivity. Qed.

Lemma len_close : JS.len TAG_CLOSE = 25.
Proof. reflexivity. Qed.

(** The closing index the loop answers is at or after the cursor, and a
    closing tag is there. *)
Lemma findClosing_found (fuel : nat) (text : string) :
  forall (depth cursor c : Z),
    0 <= cursor ->
    findClosing fuel text depth cursor = Some c -> c <> -1 ->
    cursor <= c /\ c + 25 <= JS.len text /\
    String.prefix TAG_CLOSE (JS.sdrop (Z.to_nat c) text) = true.
Proof.
  induction fuel as [|fuel IH]; intros depth cursor c Hc;
    rewrite findClosing_eq; destruct (cursor <? JS.len text) eqn:Hlt;
    try (intros [= <-]; congruence); try discriminate.
  apply Z.ltb_lt in Hlt. cbv zeta.
  destruct (JS.indexOf text TAG_CLOSE cursor =? -1) eqn:Hcl;
    [intros [= <-]; congruence|].
  apply Z.eqb_neq in Hcl.
  destruct (JSFacts.indexOf_found _ _ _ _ eq_refl Hcl) as (Hge & Hfit & Hpre).
  rewrite JSFacts.clamp_id in Hge by lia. rewrite len_close in Hfit.
  destruct (negb (JS.indexOf text TAG_OPEN_START cursor =? -1)
            && (JS.indexOf text TAG_OPEN_START cursor
                <? JS.indexOf text TAG_CLOSE cursor)) eqn:Hop.
  - apply andb_true_iff in Hop; destruct Hop as [Hop _].
    apply negb_true_iff, Z.eqb_neq in Hop.
    destruct (JSFacts.indexOf_found _ _ _ _ eq_refl Hop) as (Hge' & _ & _).
    rewrite JSFacts.clamp_id in Hge' by lia. rewrite len_open.
    intros H Hne. apply IH in H; [|lia|assumption].
    destruct H as (? & ? & ?); repeat split; auto; lia.
  - destruct (depth - 1 =? 0).
    + intros [= <-] _. repeat split; auto.
    + rewrite len_close. intros H Hne. apply IH in H; [|lia|assumption].
      destruct H as (? & ? & ?); repeat split; auto; lia.
Qed.

(** Fuel above the distance from the cursor to the end is never spent. *)
Lemma findClosing_fuel (fuel : nat) (text : string) :
  forall (depth cursor : Z),
    0 <= cursor -> JS.len text - cursor < Z.of_nat fuel ->
    findClosing fuel text depth cursor <> None.
Proof.
  induction fuel as [|fuel IH]; intros depth cursor Hc Hf;
    rewrite findClosing_eq; destruct (cursor <? JS.len text) eqn:Hlt;
    try discriminate.
  - apply Z.ltb_lt in Hlt; lia.
  - apply Z.ltb_lt in Hlt. cbv zeta.
    destruct (JS.indexOf text TAG_CLOSE cursor =? -1) eqn:Hcl;
      [discriminate|].
    apply Z.eqb_neq in Hcl.
    destruct (JSFacts.indexOf_found _ _ _ _ eq_refl Hcl) as (Hge & _ & _).
    rewrite JSFacts.clamp_id in Hge by lia.
    destruct (negb (JS.indexOf text TAG_OPEN_START cursor =? -1)
              && (JS.indexOf text TAG_OPEN_START cursor
                  <? JS.indexOf text TAG_CLOSE cursor)) eqn:Hop.
    + apply andb_true_iff in Hop; destruct Hop as [Hop _].
      apply negb_true_iff, Z.eqb_neq in Hop.
      destruct (JSFacts.indexOf_found _ _ _ _ eq_refl Hop) as (Hge' & _ & _).
      rewrite JSFacts.clamp_id in Hge' by lia. rewrite len_open.
      apply IH; lia.
    + destruct (depth - 1 =? 0); [discriminate|].
      rewrite len_close. apply IH; lia.
Qed.

(** In [firstRegion] the fuel of the loop is never spent. *)
Lemma firstRegion_fuel (text : string) :
  JS.indexOf text TAG_OPEN_START 0 <> -1 ->
  findClosing (S (String.length text)) text 0
              (JS.indexOf text TAG_OPEN_START 0) <> None.
Proof.
  intros H.
  destruct (JSFacts.indexOf_found _ _ _ _ eq_refl H) as (Hge & _ & _).
  pose proof (JSFacts.clamp_bounds text 0).
  apply findClosing_fuel; unfold JS.len in *; lia.
Qed.

Lemma open_not_close (x : string) :
  String.prefix TAG_OPEN_START x = true ->
  String.prefix TAG_CLOSE x = true -> False.
Proof.
  intros H1 H2.
  apply JSFacts.prefix_split in H1; apply JSFacts.prefix_split in H2.
  rewrite H1 in H2; simpl in H2; congruence.
Qed.

(** The region [firstRegion] delimits: its opening tag starts inside the
    text, and its closing tag starts after it and fits. *)
Lemma firstRegion_bounds (text : string) (r : Region) :
  firstRegion text = Some r ->
  0 <= startIndex r /\ startIndex r < closingIndex r /\
  closingIndex r + 25 <= JS.len text.
Proof.
  unfold firstRegion.
  destruct (JS.indexOf text TAG_OPEN_START 0 =? -1) eqn:Hs; [discriminate|].
  apply Z.eqb_neq in Hs.
  destruct (JSFacts.indexOf_found _ _ _ _ eq_refl Hs) as (Hge & _ & Hpre).
  pose proof (JSFacts.clamp_bounds text 0) as Hb.
  destruct (findClosing _ text 0 _) as [c|] eqn:Hf; [|discriminate].
  destruct (c =? -1) eqn:Hc; [discriminate|].
  apply Z.eqb_neq in Hc.
  intros [= <-]; simpl.
  apply findClosing_found in Hf; auto; try lia.
  destruct Hf as (H1 & H2 & H3).
  repeat split; auto; try lia.
  assert (JS.indexOf text TAG_OPEN_START 0 <> c); [|lia].
  intros E; rewrite E in Hpre. exact (open_not_close _ Hpre H3).
Qed.

Lemma inner_shorter (text : string) (r : Region) :
  firstRegion text = Some r ->
  (String.length (innerContentRaw text r) < String.length text)%nat.
Proof.
  intros H; apply firstRegion_bounds in H.
  pose proof (JSFacts.length_substring text (openingTagEnd r + 1)
                                       (closingIndex r)) as L.
  pose proof (JSFacts.clamp_bounds text (openingTagEnd r + 1)).
  rewrite (JSFacts.clamp_id text (closingIndex r)) in L by lia.
  unfold innerContentRaw, JS.len in *; lia.
Qed.

Lemma remaining_shorter (text : string) (r : Region) :
  firstRegion text = Some r ->
  (String.length (remainingText text r) < String.length text)%nat.
Proof.
  intros H; apply firstRegion_bounds in H.
  unfold remainingText, JS.substring_from. rewrite len_close.
  pose proof (JSFacts.length_substring text (closingIndex r + 25)
                                       (JS.len text)) as L.
  rewrite !JSFacts.clamp_id in L by (pose proof (JSFacts.len_nonneg text); lia).
  unfold JS.len in *. lia.
Qed.

(** A bound above the length of the text is never reached. *)
Lemma processVisibilityFuel_total (fuel : nat) :
  forall (text tool : string),
    (String.length text < fuel)%nat ->
    exists out, processVisibilityFuel fuel text tool = Some out.
Proof.
  induction fuel as [|fuel IH]; intros text tool Hf; [lia|].
  simpl. destruct (firstRegion text) as [r|] eqn:R; [|eauto].
  pose proof (inner_shorter _ _ R). pose proof (remaining_shorter _ _ R).
  destruct (IH (remainingText text r) tool) as [b Hb]; [lia|].
  destruct (IH (innerContentRaw text r) tool) as [a Ha]; [lia|].
  rewrite Hb, Ha.
  destruct (shouldKeep (openingTagStr text r) tool); eauto.
Qed.

(** More fuel does not change an answer. *)
Lemma processVisibilityFuel_mono (fuel : nat) :
  forall (fuel' : nat) (text tool out : string),
    (fuel <= fuel')%nat ->
    processVisibilityFuel fuel text tool = Some out ->
    processVisibilityFuel fuel' text tool = Some out.
Proof.
  induction fuel as [|fuel IH]; intros fuel' text tool out Hle; [discriminate|].
  destruct fuel' as [|fuel']; [lia|]. simpl.
  destruct (firstRegion text) as [r|]; auto.
  destruct (processVisibilityFuel fuel (remainingText text r) tool)
    as [b|] eqn:Hb.
  - rewrite (IH fuel' _ _ _ (le_S_n _ _ Hle) Hb).
    destruct (shouldKeep (openingTagStr text r) tool); auto.
    destruct (processVisibilityFuel fuel (innerContentRaw text r) tool)
      as [a|] eqn:Ha; [|discriminate].
    now rewrite (IH fuel' _ _ _ (le_S_n _ _ Hle) Ha).
  - destruct (shouldKeep (openingTagStr text r) tool); [|discriminate].
    destruct (processVisibilityFuel fuel (innerContentRaw text r) tool);
      discriminate.
Qed.

Lemma processVisibility_fuel (fuel : nat) (text tool : string) :
  (String.length text < fuel)%nat ->
  processVisibilityFuel fuel text tool = Some (processVisibility text tool).
Proof.
  intros Hf. unfold processVisibility.
  destruct (processVisibilityFuel_total (S (String.length text)) text tool)
    as [out Ho]; [lia|].
  rewrite Ho. apply (processVisibilityFuel_mono _ _ _ _ _ Hf Ho).
Qed.

(** The equation of [processVisibility]: the text unchanged when there is
    no region; otherwise the text before the opening tag, the filtered
    inner content when the region is kept, and the filtered remainder. *)
Lemma processVisibility_unfold (text tool : string) :
  processVisibility text tool =
  match firstRegion text with
  | None => text
  | Some r =>
      textBefore text r
      ++ (if shouldKeep (openingTagStr text r) tool
          then processVisibility (innerContentRaw text r) tool
          else EmptyString)
      ++ processVisibility (remainingText text r) tool
  end.
Proof.
  pose proof (processVisibility_fuel (S (String.length text)) text tool) as H.
  simpl in H.
  destruct (firstRegion text) as [r|] eqn:R.
  - pose proof (inner_shorter _ _ R). pose proof (remaining_shorter _ _ R).
    rewrite !processVisibility_fuel in H by lia.
    destruct (shouldKeep (openingTagStr text r) tool);
      specialize (H (Nat.lt_succ_diag_r _)); now injection H.
  - specialize (H (Nat.lt_succ_diag_r _)); now injection H.
Qed.

End VisibilityFacts.

(* ================================================================== *)
(** ** The retention rule and the order of the two phases *)

Module VisibilityClaims.

Import Preprocessor.

Lemma includesTool_In (l : list string) (tool : string) :
  includesTool l tool = true <-> In tool l.
Proof.
  unfold includesTool; rewrite existsb_exists; split.
  - intros (x & Hx & E). apply String.eqb_eq in E. now subst.
  - intros H. exists tool; split; auto. apply String.eqb_refl.
Qed.

Lemma shouldKeep_iff (tag tool : string) :
  shouldKeep tag tool = true <->
  (attributeList "include" tag = [] \/ In tool (attributeList "include" tag))
  /\ ~ In tool (attributeList "exclude" tag).
Proof.
  unfold shouldKeep.
  rewrite andb_true_iff, orb_true_iff, negb_true_iff, Nat.eqb_eq.
  rewrite <- !includesTool_In, length_zero_iff_nil.
  destruct (includesTool (attributeList "exclude" tag) tool); intuition congruence.
Qed.

(** C4.  For every text whose first filter region is [r] and every tool:
    the region is kept exactly when (the parsed include list is empty or
    holds the tool) and the parsed exclude list does not hold the tool; a
    kept region contributes its filtered inner content, a dropped one
    nothing; and a tool in both lists has the region dropped. *)
Theorem region_kept_iff (text tool : string) (r : Region) :
  firstRegion text = Some r ->
  let tag := openingTagStr text r in
  let includeSet := attributeList "include" tag in
  let excludeSet := attributeList "exclude" tag in
  let kept := (includeSet = [] \/ In tool includeSet) /\ ~ In tool excludeSet in
  (shouldKeep tag tool = true <-> kept)
  /\ (kept ->
      processVisibility text tool =
      textBefore text r ++ processVisibility (innerContentRaw text r) tool
      ++ processVisibility (remainingText text r) tool)
  /\ (~ kept ->
      processVisibility text tool =
      textBefore text r ++ processVisibility (remainingText text r) tool)
  /\ (In tool includeSet -> In tool excludeSet -> ~ kept).
Proof.
  intros R tag includeSet excludeSet kept.
  pose proof (shouldKeep_iff tag tool) as K. fold includeSet excludeSet kept in K.
  pose proof (VisibilityFacts.processVisibility_unfold text tool) as U.
  rewrite R in U. fold tag in U.
  split; [exact K|]. split; [|split].
  - intros Hk. apply K in Hk. now rewrite Hk in U.
  - intros Hk. destruct (shouldKeep tag tool); [|exact U].
    exfalso; apply Hk, K; reflexivity.
  - intros _ Hex [_ Hn]. exact (Hn Hex).
Qed.

End VisibilityClaims.

Module OrderClaims.

Import Preprocessor.

Section WithFiles.

Variable cwd : string.
Variable readFile : string -> option string.

Lemma process_eq (fuel : nat) (options : PreprocessOptions) (st : State) :
  process cwd readFile fuel options st =
  let normalizedCurrentPath := Path.resolve cwd [currentFilePath options] in
  if setHas (visitedFiles st) normalizedCurrentPath then
    (Rejected (circularMessage (visitedFiles st) normalizedCurrentPath), st)
  else
    match fuel with
    | O => (NoFuel, st)
    | S fuel' =>
        match
          processIncludes cwd readFile (process cwd readFile fuel')
            (processVisibility (content options) (toolName options))
            (mkIncludeOptions (toolName options) (strategyName options)
                              (pipelines options) (rootPath options)
                              normalizedCurrentPath)
            (mkState (setAdd (visitedFiles st) normalizedCurrentPath)
                     (fileReads st))
        with
        | (Fulfilled text', st2) =>
            (Fulfilled text',
             mkState (setDelete (visitedFiles st2) normalizedCurrentPath)
                     (fileReads st2))
        | (failure, st2) => (failure, st2)
        end
    end.
Proof. destruct fuel; reflexivity. Qed.



End WithFiles.

End OrderClaims.

(* ================================================================== *)
(** ** The pipeline chain *)

Module PipelineClaims.

Import Preprocessor Reading.

Lemma runStages_spec (content : string) (registry : Registry)
      (toolName strategyName : string) (stages : list Stage) :
  forall currentContent,
    runStages content registry toolName strategyName stages currentContent =
    (lastContent currentContent
       (map (stageOutput registry content toolName strategyName) stages),
     map (stageArgs content toolName strategyName)
         (filter (isRegistered registry) stages)).
Proof.
  induction stages as [|stage rest IH]; intros currentContent; simpl; auto.
  unfold stageOutput at 1, isRegistered at 1.
  destruct (registry (name stage)) as [pipelineFn|]; [|apply IH].
  fold (stageArgs content toolName strategyName stage).
  destruct (pipelineFn (stageArgs content toolName strategyName stage));
    rewrite IH; reflexivity.
Qed.

(** C5.  In [executePipelines] the pipeline functions called are those of
    the registered stages, in order, and each is called with the original
    content; the value returned is the content of the last stage that
    returned content, each computed on the original content, or the
    original content when none did.  So for two registered stages that
    both return content, the result is the output of the second on the
    original content. *)
Theorem stages_see_original_content
        (content pipelinesStr : string) (registry : Registry)
        (toolName strategyName : string) :
  let stages := parsePipelineString pipelinesStr in
  snd (executePipelinesTraced content pipelinesStr registry toolName
                              strategyName)
  = map (stageArgs content toolName strategyName)
        (filter (isRegistered registry) stages)
  /\ (forall args,
        In args (snd (executePipelinesTraced content pipelinesStr registry
                                             toolName strategyName)) ->
        pa_content args = content)
  /\ executePipelines content pipelinesStr registry toolName strategyName
     = lastContent content
         (map (stageOutput registry content toolName strategyName) stages)
  /\ (forall s1 s2 f1 f2 c1 c2,
        stages = [s1; s2] ->
        registry (name s1) = Some f1 ->
        registry (name s2) = Some f2 ->
        f1 (stageArgs content toolName strategyName s1) = WithContent c1 ->
        f2 (stageArgs content toolName strategyName s2) = WithContent c2 ->
        executePipelines content pipelinesStr registry toolName strategyName
        = c2).
Proof.
  intros stages.
  unfold executePipelines, executePipelinesTraced. fold stages.
  rewrite runStages_spec. simpl.
  split; [reflexivity|]. split; [|split; [reflexivity|]].
  - intros args Hin. apply in_map_iff in Hin.
    destruct Hin as (stage & <- & _). reflexivity.
  - intros s1 s2 f1 f2 c1 c2 -> H1 H2 E1 E2. simpl.
    unfold stageOutput. now rewrite H1, H2, E1, E2.
Qed.

End PipelineClaims.

Module ParseClaims.

Import Preprocessor Reading.

Lemma append_nil_r (s : string) : s ++ EmptyString = s.
Proof. induction s; simpl; congruence. Qed.

Lemma append_assoc (a b c : string) : (a ++ b) ++ c = a ++ b ++ c.
Proof. induction a; simpl; congruence. Qed.

Lemma length_append (a b : string) :
  String.length (a ++ b) = (String.length a + String.length b)%nat.
Proof. induction a; simpl; congruence. Qed.

Lemma trimStart_head (s : string) :
  JS.trimStart s = EmptyString \/
  exists c s', JS.trimStart s = String c s' /\ JS.is_space c = false.
Proof.
  induction s as [|c s IH]; simpl; auto.
  destruct (JS.is_space c) eqn:E; auto. right; eauto.
Qed.

Lemma trimEnd_nonspace_head (c : ascii) (s : string) :
  JS.is_space c = false -> JS.trimEnd (String c s) <> EmptyString.
Proof.
  intros E; simpl. rewrite E. destruct (JS.trimEnd s); discriminate.
Qed.

Lemma trim_empty (s : string) :
  JS.trim s = EmptyString -> JS.trimStart s = EmptyString.
Proof.
  unfold JS.trim. destruct (trimStart_head s) as [E|(c & s' & E & Hc)]; auto.
  rewrite E. intros H. now apply trimEnd_nonspace_head in H.
Qed.

Lemma trimStart_app (a x : string) :
  JS.trimStart (a ++ x) =
  if String.eqb (JS.trimStart a) EmptyString then JS.trimStart x
  else JS.trimStart a ++ x.
Proof.
  induction a as [|c a IH]; simpl; auto.
  destruct (JS.is_space c); auto.
Qed.

Lemma trimStart_idem (s : string) :
  JS.trimStart (JS.trimStart s) = JS.trimStart s.
Proof.
  induction s as [|c s IH]; simpl; auto.
  destruct (JS.is_space c) eqn:E; auto. simpl. now rewrite E.
Qed.

(** [pushCurrent] reads [current] only through its trimmed text. *)
Lemma pushCurrent_rel (c1 c2 : string) (result : list Stage) :
  JS.trimStart c1 = JS.trimStart c2 ->
  fst (pushCurrent c1 result) = fst (pushCurrent c2 result) /\
  JS.trimStart (snd (pushCurrent c1 result)) =
  JS.trimStart (snd (pushCurrent c2 result)).
Proof.
  intros H. unfold pushCurrent, JS.trim. rewrite H.
  destruct (String.eqb (JS.trimEnd (JS.trimStart c2)) EmptyString); simpl; auto.
Qed.

Lemma parseLoop_rel (input : string) :
  forall (result : list Stage) (c1 c2 : string) (depth : Z),
    JS.trimStart c1 = JS.trimStart c2 ->
    parseLoop input result c1 depth = parseLoop input result c2 depth.
Proof.
  induction input as [|ch input IH]; intros result c1 c2 depth H; simpl.
  - apply pushCurrent_rel; assumption.
  - destruct (Ascii.eqb ch "," && _).
    + destruct (pushCurrent_rel c1 c2 result H) as [F S].
      destruct (pushCurrent c1 result) as [r1 k1].
      destruct (pushCurrent c2 result) as [r2 k2].
      simpl in F, S. subst r2. now apply IH.
    + apply IH. rewrite !trimStart_app, H. reflexivity.
Qed.

Lemma pushCurrent_acc (current : string) (r0 result : list Stage) :
  pushCurrent current (r0 ++ result) =
  ((r0 ++ fst (pushCurrent current result))%list,
   snd (pushCurrent current result)).
Proof.
  unfold pushCurrent.
  destruct (String.eqb (JS.trim current) EmptyString); simpl; auto.
  destruct (negb _ && _); simpl; now rewrite app_assoc.
Qed.

Lemma parseLoop_acc (input : string) :
  forall (r0 result : list Stage) (current : string) (depth : Z),
    parseLoop input (r0 ++ result) current depth =
    (r0 ++ parseLoop input result current depth)%list.
Proof.
  induction input as [|ch input IH]; intros r0 result current depth; simpl.
  - now rewrite pushCurrent_acc.
  - destruct (Ascii.eqb ch "," && _); auto.
    rewrite pushCurrent_acc.
    destruct (pushCurrent current result) as [r k]; simpl. apply IH.
Qed.

(** A segment over which the loop meets no comma at depth zero is
    gathered into [current]. *)
Lemma parseLoop_segment (segment : string) :
  forall (rest : string) (result : list Stage) (current : string)
         (depth depth' : Z),
    depthAfter segment depth = Some depth' ->
    parseLoop (segment ++ rest) result current depth =
    parseLoop rest result (current ++ segment) depth'.
Proof.
  induction segment as [|ch segment IH];
    intros rest result current depth depth'; simpl.
  - intros [= <-]. now rewrite append_nil_r.
  - destruct (Ascii.eqb ch "," && _); [discriminate|].
    intros H. rewrite (IH _ _ _ _ _ H), append_assoc. reflexivity.
Qed.

(** The parse of a segment, a comma met at depth zero and a rest is the
    stage of the segment followed by the parse of the rest. *)
Lemma parse_segment_comma (segment rest : string) :
  depthAfter segment 0 = Some 0 ->
  parsePipelineString (segment ++ "," ++ rest) =
  (stageOf segment ++ parsePipelineString rest)%list.
Proof.
  intros H. unfold parsePipelineString.
  rewrite (parseLoop_segment _ _ _ _ _ _ H). simpl.
  unfold stageOf.
  destruct (pushCurrent segment []) as [r k] eqn:P; simpl.
  rewrite <- (app_nil_r r) at 1. rewrite parseLoop_acc. f_equal.
  apply parseLoop_rel. simpl.
  unfold pushCurrent in P.
  destruct (String.eqb (JS.trim segment) EmptyString) eqn:E.
  - injection P as <- <-. apply String.eqb_eq in E. now apply trim_empty.
  - destruct (negb _ && _); injection P as <- <-; reflexivity.
Qed.

Lemma pushCurrent_leftover (current : string) (result : list Stage) :
  JS.trimStart (snd (pushCurrent current result)) = EmptyString.
Proof.
  unfold pushCurrent.
  destruct (String.eqb (JS.trim current) EmptyString) eqn:E.
  - apply String.eqb_eq in E. simpl. now apply trim_empty.
  - destruct (negb _ && _); reflexivity.
Qed.

(** The parse is the stages of the pieces between the commas met at depth
    zero, in order. *)
Lemma parseLoop_pieces (input : string) :
  forall (result : list Stage) (current : string) (depth : Z),
    parseLoop input result current depth =
    (result ++ flat_map stageOf (loopPieces input current depth))%list.
Proof.
  induction input as [|ch input IH]; intros result current depth; simpl.
  - rewrite app_nil_r. rewrite <- (app_nil_r result) at 1.
    now rewrite pushCurrent_acc.
  - destruct (Ascii.eqb ch "," && _).
    + rewrite <- (app_nil_r result) at 1. rewrite pushCurrent_acc.
      pose proof (pushCurrent_leftover current []) as L.
      unfold stageOf. simpl flat_map.
      destruct (pushCurrent current []) as [r k]. simpl in *.
      rewrite (parseLoop_rel input _ k EmptyString _ L).
      rewrite IH. now rewrite app_assoc.
    + apply IH.
Qed.

Lemma parse_segment_last (segment : string) (depth : Z) :
  depthAfter segment 0 = Some depth ->
  parsePipelineString segment = stageOf segment.
Proof.
  intros H. unfold parsePipelineString.
  rewrite <- (append_nil_r segment) at 1.
  rewrite (parseLoop_segment _ _ _ _ _ _ H). reflexivity.
Qed.

Lemma trimStart_before_paren (a x : string) :
  JS.trimStart (a ++ String "(" x) = JS.trimStart a ++ String "(" x.
Proof.
  rewrite trimStart_app.
  destruct (String.eqb_spec (JS.trimStart a) EmptyString) as [E|]; auto.
  now rewrite E.
Qed.

Lemma trimEnd_closing (y : string) :
  JS.trimEnd (y ++ ")") = y ++ ")".
Proof.
  induction y as [|c y IH]; simpl; auto.
  rewrite IH. destruct y; reflexivity.
Qed.

Lemma lacks_trimStart (c : ascii) (s : string) :
  lacks c s = true -> lacks c (JS.trimStart s) = true.
Proof.
  induction s as [|d s IH]; simpl; auto.
  destruct (JS.is_space d); simpl; auto.
  intros H; apply andb_true_iff in H; tauto.
Qed.

Lemma find_char (c : ascii) (a x : string) :
  lacks c a = true ->
  JS.find (String c EmptyString) (a ++ String c x) = Some (String.length a).
Proof.
  induction a as [|d a IH]; intros H.
  - simpl. destruct (ascii_dec c c); [|congruence]. now destruct x.
  - simpl in H. apply andb_true_iff in H; destruct H as [Hd Ha].
    simpl append. rewrite JSFacts.find_cons. simpl String.prefix.
    destruct (ascii_dec c d) as [->|_].
    + now rewrite Ascii.eqb_refl in Hd.
    + rewrite (IH Ha). reflexivity.
Qed.

Lemma endsWith_app (x p : string) : JS.endsWith (x ++ p) p = true.
Proof.
  unfold JS.endsWith. rewrite length_append.
  replace (String.length x + String.length p - String.length p)%nat
    with (String.length x) by lia.
  rewrite JSFacts.sdrop_app_length, String.eqb_refl.
  apply andb_true_iff; split; auto. apply Nat.leb_le; lia.
Qed.

Lemma substring_head (a b : string) :
  JS.substring (a ++ b) 0 (JS.len a) = a.
Proof.
  assert (JS.len (a ++ b) = JS.len a + JS.len b) as L
    by (unfold JS.len; rewrite length_append; lia).
  pose proof (JSFacts.len_nonneg a). pose proof (JSFacts.len_nonneg b).
  unfold JS.substring.
  rewrite (JSFacts.clamp_id _ 0), (JSFacts.clamp_id _ (JS.len a)) by lia.
  rewrite Z.min_l, Z.max_r, Z.sub_0_r by lia.
  unfold JS.len. rewrite Nat2Z.id. simpl. apply JSFacts.stake_app_length.
Qed.

Lemma substring_between (a b : string) (c d : ascii) :
  let s := a ++ String c (b ++ String d EmptyString) in
  JS.substring s (JS.len a + 1) (JS.len s - 1) = b.
Proof.
  intros s.
  assert (JS.len s = JS.len a + 1 + JS.len b + 1) as L.
  { unfold s, JS.len. rewrite length_append. simpl. rewrite length_append.
    simpl. lia. }
  pose proof (JSFacts.len_nonneg a). pose proof (JSFacts.len_nonneg b).
  unfold JS.substring.
  rewrite (JSFacts.clamp_id _ (JS.len a + 1)),
          (JSFacts.clamp_id _ (JS.len s - 1)) by lia.
  rewrite Z.min_l, Z.max_r by lia.
  replace (JS.len s - 1 - (JS.len a + 1)) with (JS.len b) by lia.
  replace (Z.to_nat (JS.len a + 1)) with (String.length a + 1)%nat
    by (unfold JS.len; lia).
  unfold JS.len at 1. rewrite Nat2Z.id. unfold s.
  rewrite <- JSFacts.sdrop_sdrop, JSFacts.sdrop_app_length. simpl.
  apply JSFacts.stake_app_length.
Qed.

Lemma nonempty_param (p : string) :
  (0 <? JS.len p) = negb (String.eqb p EmptyString).
Proof. destruct p; reflexivity. Qed.

(** The stage of a segment [name(params)]. *)
Lemma stageOf_call (nm ps : string) :
  lacks "(" nm = true ->
  stageOf (nm ++ "(" ++ ps ++ ")") = [mkStage (JS.trim nm) (paramsOf ps)].
Proof.
  intros H. unfold stageOf, pushCurrent.
  assert (JS.trim (nm ++ "(" ++ ps ++ ")")
          = JS.trimStart nm ++ String "(" (ps ++ ")")) as T.
  { unfold JS.trim. change ("(" ++ ps ++ ")") with (String "(" (ps ++ ")")).
    rewrite trimStart_before_paren.
    change (String "(" (ps ++ ")")) with (("(" ++ ps) ++ ")").
    rewrite <- append_assoc. rewrite trimEnd_closing.
    now rewrite append_assoc. }
  rewrite T. set (n' := JS.trimStart nm).
  assert (String.eqb (n' ++ String "(" (ps ++ ")")) EmptyString = false) as E
    by (destruct n'; reflexivity).
  rewrite E.
  assert (JS.indexOf (n' ++ String "(" (ps ++ ")")) "(" 0 = JS.len n') as I.
  { unfold JS.indexOf, JS.clamp.
    replace (Z.max 0 _) with 0 by (pose proof (JSFacts.len_nonneg
      (n' ++ String "(" (ps ++ ")"))); lia).
    simpl JS.sdrop. rewrite find_char by (now apply lacks_trimStart).
    reflexivity. }
  rewrite I.
  assert ((JS.len n' =? -1) = false) as Ne
    by (apply Z.eqb_neq; pose proof (JSFacts.len_nonneg n'); lia).
  rewrite Ne.
  change (n' ++ String "(" (ps ++ ")")) with (n' ++ ("(" ++ ps) ++ ")") at 1.
  rewrite <- append_assoc, endsWith_app. simpl andb. cbv iota.
  rewrite substring_head.
  rewrite (substring_between n' ps "(" ")"). simpl fst.
  unfold paramsOf, n', JS.trim. rewrite trimStart_idem.
  do 2 f_equal. apply filter_ext. intros p. apply nonempty_param.
Qed.

Lemma depthAfter_flat (s : string) (depth : Z) :
  lacks "(" s = true -> lacks ")" s = true -> depth <> 0 ->
  depthAfter s depth = Some depth.
Proof.
  induction s as [|c s IH]; simpl; auto.
  intros H1 H2 Hd.
  apply andb_true_iff in H1; destruct H1 as [C1 H1].
  apply andb_true_iff in H2; destruct H2 as [C2 H2].
  apply negb_true_iff in C1, C2. rewrite C1, C2.
  replace (depth =? 0) with false by (symmetry; now apply Z.eqb_neq).
  rewrite andb_false_r. now apply IH.
Qed.

Lemma depthAfter_plain (s : string) (depth : Z) :
  lacks "(" s = true -> lacks ")" s = true -> lacks "," s = true ->
  depthAfter s depth = Some depth.
Proof.
  induction s as [|c s IH]; simpl; auto.
  intros H1 H2 H3.
  apply andb_true_iff in H1; destruct H1 as [C1 H1].
  apply andb_true_iff in H2; destruct H2 as [C2 H2].
  apply andb_true_iff in H3; destruct H3 as [C3 H3].
  apply negb_true_iff in C1, C2, C3. rewrite C1, C2, C3. simpl.
  now apply IH.
Qed.

Lemma depthAfter_app (a b : string) (d0 d1 : Z) :
  depthAfter a d0 = Some d1 -> depthAfter (a ++ b) d0 = depthAfter b d1.
Proof.
  revert d0; induction a as [|c a IH]; intros d0; simpl.
  - now intros [= <-].
  - destruct (Ascii.eqb c "," && _); [discriminate|]. apply IH.
Qed.

(** The depth counter over [name(params)]: no comma is met at depth zero,
    and the depth is zero again at the end. *)
Lemma depthAfter_call (nm ps : string) :
  lacks "(" nm = true -> lacks ")" nm = true -> lacks "," nm = true ->
  lacks "(" ps = true -> lacks ")" ps = true ->
  depthAfter (nm ++ "(" ++ ps ++ ")") 0 = Some 0.
Proof.
  intros N1 N2 N3 P1 P2.
  rewrite (depthAfter_app nm _ 0 0) by (now apply depthAfter_plain).
  change (depthAfter ("(" ++ ps ++ ")") 0) with (depthAfter (ps ++ ")") 1).
  rewrite (depthAfter_app ps _ 1 1) by (apply depthAfter_flat; auto; lia).
  reflexivity.
Qed.

(** While every closing parenthesis is matched, the counter of the parser
    is the number of open parentheses, and the parser cuts at the
    top-level commas. *)
Lemma pieces_are_segments (input : string) :
  forall (current : string) (open : nat),
    closesMatched input open = true ->
    loopPieces input current (Z.of_nat open)
    = specSegments input current open.
Proof.
  induction input as [|c input IH]; intros current open; [reflexivity|].
  cbn [loopPieces specSegments closesMatched]. cbv zeta.
  unfold specOpenAfter.
  destruct (Ascii.eqb_spec c ")") as [->|Nclose].
  - cbn [Ascii.eqb Bool.eqb andb].
    destruct open as [|open]; [discriminate|]. intros M.
    replace (Z.of_nat (S open) - 1) with (Z.of_nat open) by lia.
    cbn [Nat.pred]. now apply IH.
  - destruct (Ascii.eqb_spec c "(") as [->|Nopen]; intros M.
    + cbn [Ascii.eqb Bool.eqb andb].
      replace (Z.of_nat open + 1) with (Z.of_nat (S open)) by lia.
      now apply IH.
    + assert ((Z.of_nat open =? 0) = (open =? 0)%nat) as ->
        by (destruct open; reflexivity).
      destruct (Ascii.eqb c "," && (open =? 0)%nat) eqn:E.
      * apply andb_true_iff in E. destruct E as [_ E].
        apply Nat.eqb_eq in E. subst open. f_equal.
        now apply (IH EmptyString 0%nat).
      * now apply IH.
Qed.

Lemma specSegments_nonempty (input current : string) (open : nat) :
  specSegments input current open <> [].
Proof.
  revert current open. induction input as [|c input IH]; intros current open;
    cbn [specSegments]; [discriminate|].
  destruct (Ascii.eqb c "," && (open =? 0)%nat); [discriminate | apply IH].
Qed.

(** A text that is one segment is walked by the parser without a cut,
    its counter ending at the number of open parentheses. *)
Lemma depthAfter_segment (segment : string) :
  forall (current : string) (open : nat),
    closesMatched segment open = true ->
    specSegments segment current open = [current ++ segment] ->
    depthAfter segment (Z.of_nat open)
    = Some (Z.of_nat (specOpenCount segment open)).
Proof.
  induction segment as [|c segment IH]; intros current open; [reflexivity|].
  cbn [depthAfter specSegments closesMatched specOpenCount]. cbv zeta.
  unfold specOpenAfter.
  destruct (Ascii.eqb_spec c ")") as [->|Nclose].
  - cbn [Ascii.eqb Bool.eqb andb].
    destruct open as [|open]; [discriminate|]. intros M G.
    replace (Z.of_nat (S open) - 1) with (Z.of_nat open) by lia.
    cbn [Nat.pred] in *. apply (IH (current ++ ")")); auto.
    now rewrite append_assoc.
  - destruct (Ascii.eqb_spec c "(") as [->|Nopen]; intros M G.
    + cbn [Ascii.eqb Bool.eqb andb] in *.
      replace (Z.of_nat open + 1) with (Z.of_nat (S open)) by lia.
      apply (IH (current ++ "(")); auto.
      now rewrite append_assoc.
    + assert ((Z.of_nat open =? 0) = (open =? 0)%nat) as ->
        by (destruct open; reflexivity).
      destruct (Ascii.eqb c "," && (open =? 0)%nat) eqn:E.
      * injection G as _ G. now apply specSegments_nonempty in G.
      * apply (IH (current ++ String c EmptyString)); auto.
        now rewrite append_assoc.
Qed.

(** C8.  [parsePipelineString] splits on the commas met while its
    parenthesis counter is zero.  On a specification in which every
    closing parenthesis closes an opening one before it, these are the
    top-level commas: the stages are those of the segments between the
    commas that are in no parameter list, so that a comma inside a
    parameter list, nested parentheses included, starts no stage.  The
    specification [a(1,2), b] gives the two stages [a] with parameters [1]
    and [2], and [b] with none.  A segment [name(params)], with no
    parenthesis or comma in the name and no parenthesis among the
    parameters, gives the one stage of that name, trimmed, with the pieces
    between the commas of [params] as parameters, each trimmed and the
    empty ones dropped. *)
Theorem commas_inside_matched_parentheses_do_not_split :
  parsePipelineString "a(1,2), b"
  = [mkStage "a" ["1"; "2"]; mkStage "b" []]
  /\ (forall input,
        closesMatched input 0 = true ->
        parsePipelineString input
        = flat_map stageOf (specTopLevelSegments input))
  /\ (forall segment rest,
        closesMatched segment 0 = true ->
        specOpenCount segment 0 = 0%nat ->
        specTopLevelSegments segment = [segment] ->
        parsePipelineString (segment ++ "," ++ rest)
        = (stageOf segment ++ parsePipelineString rest)%list
        /\ (List.length (stageOf segment) <= 1)%nat)
  /\ (forall nm ps rest,
        lacks "(" nm = true -> lacks ")" nm = true -> lacks "," nm = true ->
        lacks "(" ps = true -> lacks ")" ps = true ->
        parsePipelineString (nm ++ "(" ++ ps ++ ")")
        = [mkStage (JS.trim nm) (paramsOf ps)]
        /\ parsePipelineString ((nm ++ "(" ++ ps ++ ")") ++ "," ++ rest)
           = mkStage (JS.trim nm) (paramsOf ps) :: parsePipelineString rest).
Proof.
  split; [reflexivity|]. split; [|split].
  - intros input M. unfold parsePipelineString, specTopLevelSegments.
    rewrite parseLoop_pieces. cbn [app].
    pose proof (pieces_are_segments input EmptyString 0 M) as E.
    change (Z.of_nat 0) with 0 in E. now rewrite E.
  - intros segment rest M C G.
    pose proof (depthAfter_segment segment EmptyString 0 M G) as D.
    rewrite C in D. change (Z.of_nat 0) with 0 in D.
    split; [now apply parse_segment_comma|].
    unfold stageOf, pushCurrent.
    destruct (String.eqb _ _); simpl; auto.
    destruct (negb _ && _); simpl; auto.
  - intros nm ps rest N1 N2 N3 P1 P2.
    pose proof (depthAfter_call nm ps N1 N2 N3 P1 P2) as D.
    split.
    + rewrite (parse_segment_last _ 0 D).
      now apply stageOf_call.
    + rewrite (parse_segment_comma _ _ D),
              stageOf_call by assumption.
      reflexivity.
Qed.

(** C8, as the claim states it, fails on the specification [a), b(1,2)]:
    the comma between [1] and [2] is inside the parameter list of [b],
    one parenthesis being open there, and the segments between the
    top-level commas are [a)] and [b(1,2)].  The counter of the parser is
    at -1 after the first closing parenthesis and at zero inside the
    list, so the parser cuts at that comma and not at the first one: it
    answers the two stages [a), b(1] and [2)]. *)
Theorem comma_after_stray_parenthesis_splits :
  "a), b(1,2)" = "a), b(1" ++ "," ++ "2)"
  /\ specOpenCount "a), b(1" 0 = 1%nat
  /\ specTopLevelSegments "a), b(1,2)" = ["a)"; " b(1,2)"]
  /\ flat_map stageOf (specTopLevelSegments "a), b(1,2)")
     = [mkStage "a)" []; mkStage "b" ["1"; "2"]]
  /\ parsePipelineString "a), b(1,2)"
     = [mkStage "a), b(1" []; mkStage "2)" []]
  /\ parsePipelineString "a), b(1,2)"
     <> flat_map stageOf (specTopLevelSegments "a), b(1,2)").
Proof.
  repeat split; try reflexivity. discriminate.
Qed.

End ParseClaims.

(* ================================================================== *)
(** ** Path resolution *)

Module PathClaims.

Import Preprocessor Reading.

Lemma split_nonempty (sep : ascii) (s : string) : JS.split sep s <> [].
Proof.
  destruct s as [|c s]; simpl; [discriminate|].
  destruct (Ascii.eqb c sep); [discriminate|].
  destruct (JS.split sep s); discriminate.
Qed.

Lemma split_app_sep (sep : ascii) (a b : string) :
  JS.split sep (a ++ String sep b) = (JS.split sep a ++ JS.split sep b)%list.
Proof.
  induction a as [|c a IH]; simpl.
  - now rewrite Ascii.eqb_refl.
  - destruct (Ascii.eqb c sep); [now rewrite IH|].
    rewrite IH. pose proof (split_nonempty sep a).
    destruct (JS.split sep a); [congruence | reflexivity].
Qed.

Lemma normalizeSegments_trailing (allow : bool) (segs : list string) :
  forall acc,
    Path.normalizeSegments allow (segs ++ [EmptyString]) acc =
    Path.normalizeSegments allow segs acc.
Proof.
  induction segs as [|seg segs IH]; intros acc; simpl; auto.
  destruct (String.eqb seg "" || String.eqb seg "."); auto.
  destruct (String.eqb seg ".."); auto.
  destruct acc as [|top acc]; auto.
  destruct (String.eqb top ".."); auto.
Qed.

(** [path.resolve(base, target)] for an absolute [base] and a relative
    [target] does not look at the working directory. *)
Lemma resolve_against (cwd base target : string) :
  Path.isAbsolute base = true -> Path.isAbsolute target = false ->
  Path.resolve cwd [base; target] = resolveAgainst base target.
Proof.
  intros Hb Ht. unfold Path.resolve, resolveAgainst. simpl rev. simpl app.
  assert (String.eqb base EmptyString = false) as Eb
    by (destruct base; [discriminate | reflexivity]).
  unfold Path.resolveLoop.
  destruct (String.eqb_spec target EmptyString) as [->|Hne].
  - rewrite Eb, Hb. simpl negb.
    change (base ++ "/" ++ "") with (base ++ String "/" EmptyString).
    rewrite split_app_sep. reflexivity.
  - rewrite Ht, Eb, Hb. simpl negb.
    change (base ++ "/" ++ target ++ "/" ++ "")
      with (base ++ String "/" (target ++ String "/" EmptyString)).
    rewrite !split_app_sep. simpl (JS.split "/" "").
    rewrite app_assoc, normalizeSegments_trailing. reflexivity.
Qed.

Lemma dirnameEnd_range (p : string) (i : nat) :
  forall matchedSlash,
    Path.dirnameEnd p i matchedSlash = -1 \/
    1 <= Path.dirnameEnd p i matchedSlash <= Z.of_nat i.
Proof.
  induction i as [|i IH]; intros m; [left; reflexivity|].
  cbn [Path.dirnameEnd].
  destruct (String.get (S i) p) as [c|]; [|destruct (IH false); lia].
  destruct c as [[] [] [] [] [] [] [] []]; try (destruct (IH false); lia).
  destruct m; [destruct (IH true); lia | lia].
Qed.

(** The directory of an absolute path is absolute. *)
Lemma dirname_absolute (p : string) :
  Path.isAbsolute p = true -> Path.isAbsolute (Path.dirname p) = true.
Proof.
  intros H. unfold Path.dirname. rewrite H.
  destruct p as [|c p]; [discriminate|]. simpl String.eqb. cbv iota.
  set (e := Path.dirnameEnd _ _ _).
  destruct (e =? -1) eqn:E1; [reflexivity|].
  simpl andb. destruct (e =? 1); [reflexivity|].
  apply Z.eqb_neq in E1.
  destruct (dirnameEnd_range (String c p) (String.length (String c p) - 1) true)
    as [D|D]; fold e in D; [congruence|].
  unfold JS.substring.
  assert (0 < JS.clamp (String c p) e) as Hc.
  { unfold JS.clamp, JS.len. simpl String.length in *. lia. }
  rewrite (JSFacts.clamp_id _ 0)
    by (pose proof (JSFacts.len_nonneg (String c p)); lia).
  rewrite Z.min_l, Z.max_r, Z.sub_0_r by lia.
  destruct (Z.to_nat (JS.clamp (String c p) e)) as [|n] eqn:N; [lia|].
  simpl. simpl in H. exact H.
Qed.

(** C7.  A path that is absolute is used as it is by both resolvers, and
    one that starts with [@/] is resolved against the project root by
    both.  A bare relative path is resolved against the directory of the
    including file by [Preprocessor.resolvePath] and against the project
    root by [Engine.resolveFilePath]; with an absolute including file and
    an absolute root these are the segments of that directory, and of the
    root, followed by the segments of the path. *)
Theorem relative_path_asymmetry
        (cwd rootPath currentFilePath filePath : string) :
  (Path.isAbsolute filePath = true ->
   resolvePath cwd filePath rootPath currentFilePath = filePath
   /\ Engine.resolveFilePath cwd rootPath filePath = filePath)
  /\ (Path.isAbsolute filePath = false ->
      JS.startsWith filePath "@/" = true ->
      resolvePath cwd filePath rootPath currentFilePath
      = Path.resolve cwd [rootPath; JS.substring_from filePath 2]
      /\ Engine.resolveFilePath cwd rootPath filePath
         = Path.resolve cwd [rootPath; JS.substring_from filePath 2])
  /\ (Path.isAbsolute filePath = false ->
      JS.startsWith filePath "@/" = false ->
      resolvePath cwd filePath rootPath currentFilePath
      = Path.resolve cwd [Path.dirname currentFilePath; filePath]
      /\ Engine.resolveFilePath cwd rootPath filePath
         = Path.resolve cwd [rootPath; filePath]
      /\ (Path.isAbsolute currentFilePath = true ->
          resolvePath cwd filePath rootPath currentFilePath
          = resolveAgainst (Path.dirname currentFilePath) filePath)
      /\ (Path.isAbsolute rootPath = true ->
          Engine.resolveFilePath cwd rootPath filePath
          = resolveAgainst rootPath filePath)).
Proof.
  unfold resolvePath, Engine.resolveFilePath.
  split; [|split].
  - intros ->. auto.
  - intros -> ->. auto.
  - intros A ->. rewrite A. repeat split; auto.
    + intros C. apply resolve_against; auto. now apply dirname_absolute.
    + intros R. now apply resolve_against.
Qed.

End PathClaims.

(* ================================================================== *)
(** ** The visitation set *)

Module VisitationFacts.

Import Preprocessor.

Lemma setHas_false (visited : list string) (p : string) :
  setHas visited p = false -> forall q, In q visited -> String.eqb p q = false.
Proof.
  unfold setHas. intros H q Hq.
  destruct (String.eqb p q) eqn:E; auto.
  assert (existsb (String.eqb p) visited = true) as C
    by (apply existsb_exists; eauto).
  congruence.
Qed.

Lemma setHas_In (visited : list string) (p : string) :
  setHas visited p = true <-> In p visited.
Proof.
  unfold setHas. rewrite existsb_exists. split.
  - intros (q & Hq & E). apply String.eqb_eq in E. now subst.
  - intros H. exists p. split; auto. apply String.eqb_refl.
Qed.

Lemma setDelete_absent (visited : list string) (p : string) :
  setHas visited p = false -> setDelete visited p = visited.
Proof.
  intros H. unfold setDelete.
  induction visited as [|q visited IH]; simpl; auto.
  simpl in H. apply orb_false_iff in H. destruct H as [Hq Hv].
  rewrite Hq. simpl. now rewrite IH.
Qed.

(** Adding a path that is not in the set and deleting it again gives the
    set back, in the same order. *)
Lemma setDelete_setAdd (visited : list string) (p : string) :
  setHas visited p = false -> setDelete (setAdd visited p) p = visited.
Proof.
  intros H. unfold setAdd. rewrite H. unfold setDelete.
  rewrite filter_app. simpl. rewrite String.eqb_refl. simpl.
  rewrite app_nil_r. now apply setDelete_absent.
Qed.


End VisitationFacts.

Module ProcessFacts.

Import Preprocessor Reading VisitationFacts.

Section WithFiles.

Variable cwd : string.
Variable readFile : string -> option string.





(** A call whose normalized path is in the set is rejected at once,
    whatever the fuel; the message names the path and lists the set; the
    state is left as it was. *)
Lemma process_rejects_visited (fuel : nat) (options : PreprocessOptions)
      (st : State) :
  let p := Path.resolve cwd [currentFilePath options] in
  setHas (visitedFiles st) p = true ->
  process cwd readFile fuel options st
  = (Rejected ("[Transmute] Circular dependency detected: " ++ p
               ++ " is already being processed." ++ newline
               ++ "Include chain: " ++ JS.join " -> " (visitedFiles st)
               ++ " -> " ++ p), st).
Proof.
  intros p H. rewrite OrderClaims.process_eq. cbv zeta. fold p.
  now rewrite H.
Qed.

End WithFiles.

End ProcessFacts.

(* ================================================================== *)
(** ** Termination over a finite file system *)

Module TerminationFacts.

Import Preprocessor Reading VisitationFacts FileSystem.

Lemma filter_length_mono {A : Type} (f g : A -> bool) (l : list A) :
  (forall x, f x = true -> g x = true) ->
  (List.length (filter f l) <= List.length (filter g l))%nat.
Proof.
  intros H. induction l as [|a l IH]; simpl; auto.
  destruct (f a) eqn:F.
  - rewrite (H a F). simpl. lia.
  - destruct (g a); simpl; lia.
Qed.


Lemma setHas_setAdd (visited : list string) (p q : string) :
  setHas (setAdd visited p) q = setHas visited q || String.eqb q p.
Proof.
  unfold setAdd. destruct (setHas visited p) eqn:V.
  - destruct (String.eqb_spec q p) as [->|_].
    + rewrite V. reflexivity.
    + now rewrite orb_false_r.
  - unfold setHas. rewrite existsb_app. simpl. now rewrite orb_false_r.
Qed.

Section Finite.

Variable cwd : string.
Variable fs : files.

Lemma unvisited_add_le (visited : list string) (p : string) :
  (unvisited cwd fs (setAdd visited p) <= unvisited cwd fs visited)%nat.
Proof.
  unfold unvisited. apply filter_length_mono. intros q.
  rewrite setHas_setAdd. destruct (setHas visited q); simpl; auto.
Qed.







End Finite.

End TerminationFacts.

(* ================================================================== *)
(** ** What the include expression matches *)

Module RegexFacts.

Import Regex Reading.

Lemma many_sound {A : Type} (p : ascii -> bool) (s : string) :
  forall (min : nat) (k : string -> option A) (x : A),
    many p min s k = Some x ->
    exists run_ rest,
      s = run_ ++ rest /\ allOf p run_ = true /\
      (min <= String.length run_)%nat /\ k rest = Some x.
Proof.
  induction s as [|c s IH]; intros min k x; simpl.
  - destruct (min =? 0)%nat eqn:M; [|discriminate].
    apply Nat.eqb_eq in M. intros H.
    exists EmptyString, EmptyString. simpl. repeat split; auto; lia.
  - destruct (p c) eqn:P.
    + destruct (many p (Nat.pred min) s k) as [y|] eqn:R.
      * intros [= <-]. apply IH in R.
        destruct R as (r & rest & -> & Hall & Hmin & Hk).
        exists (String c r), rest. simpl. rewrite P, Hall.
        repeat split; auto; lia.
      * destruct (min =? 0)%nat eqn:M; [|discriminate].
        apply Nat.eqb_eq in M. intros H.
        exists EmptyString, (String c s). simpl. repeat split; auto; lia.
    + destruct (min =? 0)%nat eqn:M; [|discriminate].
      apply Nat.eqb_eq in M. intros H.
      exists EmptyString, (String c s). simpl. repeat split; auto; lia.
Qed.

(** A successful [run] hands a suffix of its input to the continuation. *)
Lemma run_suffix {A : Type} (r : regex) :
  forall (s : string) (caps : captures)
         (k : string -> captures -> option A) (x : A),
    run r s caps k = Some x ->
    exists pre rest caps', s = pre ++ rest /\ k rest caps' = Some x.
Proof.
  induction r as [l|p|p min|i r IH|r1 IH1 r2 IH2|r1 IH1 r2 IH2|r IH];
    intros s caps k x; simpl.
  - destruct (String.prefix l s) eqn:P; [|discriminate].
    intros H. exists l, (JS.sdrop (String.length l) s), caps.
    split; auto. now apply JSFacts.prefix_split.
  - destruct s as [|c s]; [discriminate|].
    destruct (p c); [|discriminate].
    intros H. exists (String c EmptyString), s, caps. auto.
  - intros H. apply many_sound in H.
    destruct H as (r & rest & -> & _ & _ & Hk). eauto.
  - intros H. apply IH in H. destruct H as (pre & rest & caps' & -> & Hk).
    eauto.
  - intros H. apply IH1 in H. destruct H as (pre1 & s1 & caps1 & -> & H).
    apply IH2 in H. destruct H as (pre2 & s2 & caps2 & -> & H).
    exists (pre1 ++ pre2), s2, caps2. split; auto.
    now rewrite ParseClaims.append_assoc.
  - destruct (run r1 s caps k) as [y|] eqn:R1.
    + intros [= <-]. now apply IH1 in R1.
    + apply IH2.
  - destruct (run r s caps k) as [y|] eqn:R.
    + intros [= <-]. now apply IH in R.
    + intros H. exists EmptyString, s, caps. auto.
Qed.

Lemma consumed_app (pre rest : string) : consumed (pre ++ rest) rest = pre.
Proof.
  unfold consumed. rewrite ParseClaims.length_append.
  replace (String.length pre + String.length rest - String.length rest)%nat
    with (String.length pre) by lia.
  apply JSFacts.stake_app_length.
Qed.

(** Every match [execAll] lists is a match anchored at some suffix. *)
Lemma execAll_matchHere (r : regex) (s : string) :
  forall (skip : nat) (m : string * captures),
    In m (execAll r skip s) -> exists s', matchHere r s' = Some m.
Proof.
  induction s as [|c s IH]; intros skip m; simpl; [tauto|].
  destruct skip as [|n]; [|apply IH].
  destruct (matchHere r (String c s)) as [[t caps]|] eqn:M; [|apply IH].
  intros [<-|H]; eauto.
Qed.

(** A match of [tag\s+attr...] is the tag, white space and the attribute
    name, followed by the rest of the match. *)
Lemma match_starts_with (tag attr : string) (r : regex) (s : string)
      (m : string * captures) :
  matchHere (Seq (Lit tag) (Seq (Many JS.is_space 1) (Seq (Lit attr) r))) s
  = Some m ->
  exists space rest,
    fst m = tag ++ space ++ attr ++ rest /\
    allOf JS.is_space space = true /\ (1 <= String.length space)%nat.
Proof.
  unfold matchHere. simpl.
  destruct (String.prefix tag s) eqn:P; [|discriminate].
  apply JSFacts.prefix_split in P. intros H.
  apply many_sound in H. destruct H as (space & s2 & E2 & Hall & Hlen & H).
  destruct (String.prefix attr s2) eqn:P2; [|discriminate].
  apply JSFacts.prefix_split in P2.
  apply run_suffix in H. destruct H as (rest & fin & caps' & E3 & H).
  injection H as <-. exists space, rest. split; auto. simpl.
  rewrite P, E2, P2, E3.
  rewrite <- !ParseClaims.append_assoc. apply consumed_app.
Qed.

End RegexFacts.

(* ================================================================== *)
(** ** The directive processor *)

Module ProcessClaims.

Import Preprocessor Reading FileSystem Fixtures VisitationFacts.






(** C1.  A call whose normalized path is in the visitation set at entry
    is rejected at once with the circular-dependency message, which names
    the path.  A document with the same file in two sibling includes is
    fulfilled, but not always with the resolved content of the file
    twice: the content is used as a replacement template, so the content
    [$$x$$] of [shared.md] comes out as [$x$] at both places. *)
Theorem sibling_includes_lose_dollar_signs :
  (forall cwd readFile fuel options st,
      setHas (visitedFiles st) (Path.resolve cwd [currentFilePath options])
      = true ->
      process cwd readFile fuel options st
      = (Rejected
           ("[Transmute] Circular dependency detected: "
            ++ Path.resolve cwd [currentFilePath options]
            ++ " is already being processed." ++ newline
            ++ "Include chain: " ++ JS.join " -> " (visitedFiles st)
            ++ " -> " ++ Path.resolve cwd [currentFilePath options]), st))
  /\ findIncludes twoSiblings
     = [mkIncludeMatch (includeTag "./shared.md") "./shared.md" None;
        mkIncludeMatch (includeTag "./shared.md") "./shared.md" None]
  /\ process workDir (lookupFile mathFiles) 2
             (fileOptions "/t/shared.md" "$$x$$") initialState
     = (Fulfilled "$$x$$", mkState [] [])
  /\ process workDir (lookupFile mathFiles) 2
             (mainOptions "claude" None twoSiblings) initialState
     = (Fulfilled "$x$-$x$", mkState [] ["/t/shared.md"; "/t/shared.md"]).
Proof.
  split.
  - intros cwd readFile fuel options st.
    apply ProcessFacts.process_rejects_visited.
  - repeat split; vm_compute; reflexivity.
Qed.

Lemma getSubstitution_cons (matched before after : string) (c : ascii)
      (rest : string) :
  c <> "$"%char ->
  JS.getSubstitution matched before after (String c rest)
  = String c (JS.getSubstitution matched before after rest).
Proof.
  intros H.
  destruct c as [[] [] [] [] [] [] [] []]; try reflexivity. now elim H.
Qed.

(** A template without [$] stands for itself. *)
Lemma getSubstitution_plain (matched before after template : string) :
  lacks "$" template = true ->
  JS.getSubstitution matched before after template = template.
Proof.
  induction template as [|c rest IH]; intros H; [reflexivity|].
  simpl in H. apply andb_true_iff in H. destruct H as [Hc Hr].
  apply negb_true_iff, Ascii.eqb_neq in Hc.
  rewrite getSubstitution_cons by assumption. now rewrite IH.
Qed.

Lemma replace_plain (s pat template : string) :
  lacks "$" template = true ->
  JS.replace s pat template = JS.replace_verbatim s pat template.
Proof.
  intros H. unfold JS.replace, JS.replace_verbatim.
  destruct (JS.find pat s); auto. now rewrite getSubstitution_plain.
Qed.

(** C6.  When the file of an include directive cannot be read, the loop
    over the directives is not rejected at that directive and goes on with
    the directives after it, the text being
    [text.replace(fullMatch, marker)] for the marker
    [[MISSING FILE: path]] built from the path as written; this puts the
    marker itself in the text when the marker holds no [$], as for
    [./nope.md].  But the marker is used as a replacement template: for
    the path [./a$$b.md] the text put in place of the directive is
    [[MISSING FILE: ./a$b.md]], which is not the path as written. *)
Theorem missing_file_marker_is_a_template :
  (forall cwd readFile recur options m rest text st,
      readFile (resolvePath cwd (filePath m) (io_rootPath options)
                            (io_currentFilePath options)) = None ->
      includeLoop cwd readFile recur options (m :: rest) text st
      = includeLoop cwd readFile recur options rest
          (JS.replace text (fullMatch m) (missingFileMarker (filePath m)))
          (mkState (visitedFiles st)
             (fileReads st
              ++ [resolvePath cwd (filePath m) (io_rootPath options)
                              (io_currentFilePath options)])))
  /\ (forall text pat path,
        lacks "$" path = true ->
        JS.replace text pat (missingFileMarker path)
        = JS.replace_verbatim text pat (missingFileMarker path))
  /\ process workDir (lookupFile []) 1
             (mainOptions "claude" None ("X" ++ includeTag "./nope.md" ++ "Y"))
             initialState
     = (Fulfilled "X[MISSING FILE: ./nope.md]Y", mkState [] ["/t/nope.md"])
  /\ findIncludes ("X" ++ includeTag "./a$$b.md" ++ "Y"
                   ++ includeTag "./nope.md")
     = [mkIncludeMatch (includeTag "./a$$b.md") "./a$$b.md" None;
        mkIncludeMatch (includeTag "./nope.md") "./nope.md" None]
  /\ process workDir (lookupFile []) 1
             (mainOptions "claude" None
                ("X" ++ includeTag "./a$$b.md" ++ "Y"
                 ++ includeTag "./nope.md"))
             initialState
     = (Fulfilled "X[MISSING FILE: ./a$b.md]Y[MISSING FILE: ./nope.md]",
        mkState [] ["/t/a$$b.md"; "/t/nope.md"]).
Proof.
  split; [|split].
  - intros cwd readFile recur options m rest text st H. simpl.
    now rewrite H.
  - intros text pat path H. apply replace_plain. unfold missingFileMarker.
    simpl. induction path as [|c path IH]; [reflexivity|].
    simpl in *. apply andb_true_iff in H. destruct H as [Hc Hp].
    rewrite Hc. simpl. now apply IH.
  - repeat split; vm_compute; reflexivity.
Qed.

(** C9.  The content put in place of a directive is the second argument
    of [String.prototype.replace], a replacement template.  For the file
    [price.md] whose content holds the patterns of the text before the
    match, the match and the text after it, the output differs from the
    text with the directive replaced by that content as it is. *)
Theorem substitution_is_a_replacement_template :
  exists (fs : files) (text directive resolved output : string),
    findIncludes text = [mkIncludeMatch directive "./price.md" None]
    /\ fst (process workDir (lookupFile fs) 2
                    (fileOptions "/t/price.md" resolved) initialState)
       = Fulfilled resolved
    /\ lookupFile fs "/t/price.md" = Some resolved
    /\ fst (process workDir (lookupFile fs) 2
                    (mainOptions "claude" None text) initialState)
       = Fulfilled output
    /\ output = "Cost: [Cost: |" ++ directive ++ "|!]!"
    /\ JS.replace_verbatim text directive resolved = "Cost: [$`|$&|$']!"
    /\ output <> JS.replace_verbatim text directive resolved.
Proof.
  exists priceFiles, priceText, (includeTag "./price.md"), "[$`|$&|$']",
         ("Cost: [Cost: |" ++ includeTag "./price.md" ++ "|!]!").
  repeat split; try (vm_compute; reflexivity).
  vm_compute. discriminate.
Qed.

(** C10.  Every include directive the scan recognizes is the tag name,
    white space and then the attribute [path]: the path attribute comes
    first.  A tag with [pipelines] written before [path] is not matched:
    it stays in the output as it is and no file is read, while the same
    two attributes in the other order are matched and resolved. *)
Theorem include_needs_path_first :
  (forall text m,
      In m (findIncludes text) ->
      exists space rest,
        fullMatch m
        = "<content-factory-include-file" ++ space ++ "path" ++ rest
        /\ allOf JS.is_space space = true
        /\ (1 <= String.length space)%nat)
  /\ (exists text,
        text = pipelinesFirst
        /\ findIncludes text = []
        /\ lookupFile letterFiles "/t/a.md" = Some "hello"
        /\ process workDir (lookupFile letterFiles) 2
                   (mainOptions "claude" (Some upperRegistry) text)
                   initialState
           = (Fulfilled text, mkState [] []))
  /\ process workDir (lookupFile letterFiles) 2
             (mainOptions "claude" (Some upperRegistry) pathFirst)
             initialState
     = (Fulfilled "HELLO", mkState [] ["/t/a.md"]).
Proof.
  split; [|split].
  - intros text m H. unfold findIncludes in H. apply in_map_iff in H.
    destruct H as (x & <- & H).
    apply RegexFacts.execAll_matchHere in H. destruct H as (s' & H).
    apply RegexFacts.match_starts_with in H. exact H.
  - exists pipelinesFirst. repeat split; vm_compute; reflexivity.
  - vm_compute. reflexivity.
Qed.

End ProcessClaims.

(* ================================================================== *)
(** ** The properties at work on the documents above *)

Module Witnesses.

Import Preprocessor Reading FileSystem Fixtures.


Lemma region_kept_iff_witness :
  firstRegion bothListsRegion = Some (mkRegion 0 62 70)
  /\ processVisibility bothListsRegion "claude"
     = textBefore bothListsRegion (mkRegion 0 62 70)
       ++ processVisibility
            (remainingText bothListsRegion (mkRegion 0 62 70)) "claude".
Proof.
  assert (firstRegion bothListsRegion = Some (mkRegion 0 62 70)) as R
    by (vm_compute; reflexivity).
  split; [exact R|].
  destruct (VisibilityClaims.region_kept_iff bothListsRegion "claude" _ R)
    as (_ & _ & Hdrop & Hprec).
  apply Hdrop. apply Hprec; vm_compute; auto.
Defined.

Lemma stages_see_original_content_witness :
  executePipelines "hello" "uppercase, append-world" upperRegistry
                   "claude" "default"
  = "hello world".
Proof.
  apply (proj2 (proj2 (proj2
           (PipelineClaims.stages_see_original_content
              "hello" "uppercase, append-world" upperRegistry
              "claude" "default")))
           shoutStage appendStage
           (fun _ => WithContent "HELLO")
           (fun args => WithContent (pa_content args ++ " world"))
           "HELLO" "hello world");
    vm_compute; reflexivity.
Defined.

Lemma commas_inside_matched_parentheses_do_not_split_witness :
  parsePipelineString "a(1,(2)), b"
  = flat_map stageOf (specTopLevelSegments "a(1,(2)), b")
  /\ parsePipelineString
       ((" adjust-headings " ++ "(" ++ " 2 , , x " ++ ")") ++ "," ++ " wrap")
     = [mkStage "adjust-headings" ["2"; "x"]; mkStage "wrap" []].
Proof.
  destruct ParseClaims.commas_inside_matched_parentheses_do_not_split
    as (_ & G & _ & H).
  destruct (H " adjust-headings " " 2 , , x " " wrap"
              eq_refl eq_refl eq_refl eq_refl eq_refl) as (_ & E).
  split; [exact (G "a(1,(2)), b" eq_refl)|].
  etransitivity; [exact E | reflexivity].
Defined.

Lemma relative_path_asymmetry_witness :
  resolvePath workDir "x.md" "/proj" "/proj/sub/main.md" = "/proj/sub/x.md"
  /\ Engine.resolveFilePath workDir "/proj" "x.md" = "/proj/x.md"
  /\ resolvePath workDir "@/x.md" "/proj" "/proj/sub/main.md" = "/proj/x.md"
  /\ Engine.resolveFilePath workDir "/proj" "@/x.md" = "/proj/x.md".
Proof.
  destruct (PathClaims.relative_path_asymmetry
              workDir "/proj" "/proj/sub/main.md" "x.md") as (_ & _ & H).
  destruct (H eq_refl eq_refl) as (_ & _ & H1 & H2).
  destruct (PathClaims.relative_path_asymmetry
              workDir "/proj" "/proj/sub/main.md" "@/x.md") as (_ & G & _).
  destruct (G eq_refl eq_refl) as (G1 & G2).
  split; [|split; [|split]].
  - rewrite (H1 eq_refl). reflexivity.
  - rewrite (H2 eq_refl). reflexivity.
  - rewrite G1. reflexivity.
  - rewrite G2. reflexivity.
Defined.

End Witnesses.

(* ================================================================== *)
(** ** More on the pipeline chain *)

Module PipelineFacts.

Import Preprocessor Reading.

Lemma lastContent_cases (outputs : list (option string)) :
  forall initial,
    lastContent initial outputs = initial \/
    In (Some (lastContent initial outputs)) outputs.
Proof.
  induction outputs as [|[c|] rest IH]; intros initial; simpl; auto.
  - destruct (IH c) as [E|H]; [rewrite E|]; auto.
  - destruct (IH initial) as [E|H]; auto.
Qed.

Lemma lastContent_none (outputs : list (option string)) (initial : string) :
  (forall o, In o outputs -> o = None) ->
  lastContent initial outputs = initial.
Proof.
  induction outputs as [|o rest IH]; intros H; simpl; auto.
  rewrite (H o (or_introl eq_refl)). apply IH.
  intros o' Ho'. apply H. now right.
Qed.

(** X1.  What [executePipelines] returns is the content it was given or the
    content some registered stage of the specification returned when
    called on that content; and when no stage of the specification
    returns content (none is registered, or each throws or returns
    nothing), it is the content it was given. *)
Theorem executePipelines_returns_input_or_stage_output
        (content pipelinesStr : string) (registry : Registry)
        (toolName strategyName : string) :
  (executePipelines content pipelinesStr registry toolName strategyName
   = content
   \/ exists stage pipelineFn,
       In stage (parsePipelineString pipelinesStr)
       /\ registry (name stage) = Some pipelineFn
       /\ pipelineFn (stageArgs content toolName strategyName stage)
          = WithContent
              (executePipelines content pipelinesStr registry toolName
                                strategyName))
  /\ ((forall stage pipelineFn c,
          In stage (parsePipelineString pipelinesStr) ->
          registry (name stage) = Some pipelineFn ->
          pipelineFn (stageArgs content toolName strategyName stage)
          <> WithContent c) ->
      executePipelines content pipelinesStr registry toolName strategyName
      = content).
Proof.
  unfold executePipelines, executePipelinesTraced.
  rewrite PipelineClaims.runStages_spec. simpl. split.
  - destruct (lastContent_cases
                (map (stageOutput registry content toolName strategyName)
                     (parsePipelineString pipelinesStr)) content)
      as [E|H]; [now left|right].
    set (result := lastContent _ _) in *.
    apply in_map_iff in H. destruct H as (stage & E & Hin).
    unfold stageOutput in E.
    destruct (registry (name stage)) as [f|] eqn:R; [|discriminate].
    destruct (f (stageArgs content toolName strategyName stage)) eqn:F;
      try discriminate.
    injection E as <-. exists stage, f. auto.
  - intros H. apply lastContent_none. intros o Ho.
    apply in_map_iff in Ho. destruct Ho as (stage & <- & Hin).
    unfold stageOutput.
    destruct (registry (name stage)) as [f|] eqn:R; auto.
    destruct (f (stageArgs content toolName strategyName stage)) eqn:F; auto.
    now elim (H stage f content0 Hin R).
Qed.

Lemma trimEnd_idem (s : string) : JS.trimEnd (JS.trimEnd s) = JS.trimEnd s.
Proof.
  induction s as [|c s IH]; simpl; auto.
  destruct (JS.trimEnd s) as [|d r] eqn:E.
  - destruct (JS.is_space c) eqn:C; simpl; auto. now rewrite C.
  - simpl in *. now rewrite IH.
Qed.

Lemma trimStart_trimEnd (s : string) :
  JS.trimStart (JS.trimEnd s) = JS.trimEnd (JS.trimStart s).
Proof.
  induction s as [|c s IH]; simpl; auto.
  destruct (JS.is_space c) eqn:C.
  - destruct (JS.trimEnd s) as [|d r] eqn:E.
    + rewrite <- IH. reflexivity.
    + rewrite <- IH. simpl. now rewrite C.
  - destruct (JS.trimEnd s) as [|d r] eqn:E; simpl; now rewrite C, ?E.
Qed.

(** Trimming twice is trimming once. *)
Lemma trim_idem (s : string) : JS.trim (JS.trim s) = JS.trim s.
Proof.
  unfold JS.trim.
  rewrite trimStart_trimEnd, trimEnd_idem, ParseClaims.trimStart_idem.
  reflexivity.
Qed.

Lemma stageOf_trimmed (segment : string) (stage : Stage) :
  In stage (stageOf segment) ->
  JS.trim (name stage) = name stage
  /\ forall p, In p (params stage) -> p <> EmptyString /\ JS.trim p = p.
Proof.
  unfold stageOf, pushCurrent.
  destruct (String.eqb (JS.trim segment) EmptyString); [intros []|].
  destruct (negb _ && _); simpl; intros [<-|[]]; simpl.
  - split; [apply trim_idem|].
    intros p Hp. apply filter_In in Hp. destruct Hp as [Hp Hlen].
    apply in_map_iff in Hp. destruct Hp as (x & <- & _).
    split; [|apply trim_idem].
    intros E. rewrite E in Hlen. discriminate.
  - split; [apply trim_idem | intros p []].
Qed.

Lemma space_is_plain (c : ascii) :
  JS.is_space c = true ->
  Ascii.eqb c "(" = false /\ Ascii.eqb c ")" = false /\ Ascii.eqb c "," = false.
Proof.
  intros H. repeat split;
    match goal with
    | |- Ascii.eqb c ?d = false =>
        destruct (Ascii.eqb_spec c d) as [->|]; [discriminate | reflexivity]
    end.
Qed.

Lemma parseLoop_blank (input : string) :
  forall current,
    allOf (fun c => JS.is_space c || Ascii.eqb c ",") input = true ->
    JS.trimStart current = EmptyString ->
    parseLoop input [] current 0 = [].
Proof.
  induction input as [|c input IH]; intros current Hall Hcur.
  - simpl. unfold pushCurrent, JS.trim. now rewrite Hcur.
  - simpl in Hall. apply andb_true_iff in Hall. destruct Hall as [Hc Hall].
    simpl. destruct (JS.is_space c) eqn:S.
    + destruct (space_is_plain c S) as (E1 & E2 & E3).
      rewrite E1, E2, E3. simpl. apply IH; auto.
      rewrite ParseClaims.trimStart_app, Hcur. simpl. now rewrite S.
    + simpl in Hc. apply Ascii.eqb_eq in Hc. subst c. simpl.
      unfold pushCurrent, JS.trim. rewrite Hcur. simpl. now apply IH.
Qed.

(** X2.  Every stage [parsePipelineString] answers has a name without white
    space around it, and parameters that are not empty and have no white
    space around them; a specification of white space and commas only,
    the empty one among them, gives no stage. *)
Theorem parsed_stages_are_trimmed (input : string) :
  (forall stage,
      In stage (parsePipelineString input) ->
      JS.trim (name stage) = name stage
      /\ forall p, In p (params stage) -> p <> EmptyString /\ JS.trim p = p)
  /\ (allOf (fun c => JS.is_space c || Ascii.eqb c ",") input = true ->
      parsePipelineString input = []).
Proof.
  split.
  - unfold parsePipelineString. rewrite ParseClaims.parseLoop_pieces. simpl.
    intros stage H. apply in_flat_map in H. destruct H as (piece & _ & H).
    now apply (stageOf_trimmed piece).
  - intros H. now apply parseLoop_blank.
Qed.

End PipelineFacts.

(* ================================================================== *)
(** ** More on the directive processor *)

Module ProcessMore.

Import Preprocessor Reading FileSystem Fixtures VisitationFacts.

Lemma resolveLoop_absolute (cwd : string) (paths : list string) :
  Path.isAbsolute cwd = true ->
  forall acc, snd (Path.resolveLoop (paths ++ [cwd]) acc) = true.
Proof.
  intros H. induction paths as [|p paths IH]; intros acc; simpl.
  - destruct cwd as [|c cwd]; [discriminate|]. simpl String.eqb. cbv iota.
    rewrite H. reflexivity.
  - destruct (String.eqb p EmptyString); [apply IH|].
    destruct (Path.isAbsolute p); [reflexivity | apply IH].
Qed.

(** In a process whose working directory is absolute, [path.resolve]
    answers an absolute path. *)
Lemma resolve_absolute (cwd : string) (args : list string) :
  Path.isAbsolute cwd = true ->
  Path.isAbsolute (Path.resolve cwd args) = true.
Proof.
  intros H. unfold Path.resolve.
  pose proof (resolveLoop_absolute cwd (rev args) H EmptyString) as A.
  destruct (Path.resolveLoop (rev args ++ [cwd]) EmptyString) as [rp abs].
  simpl in A. subst abs. reflexivity.
Qed.

Lemma resolvePath_absolute (cwd filePath rootPath currentFilePath : string) :
  Path.isAbsolute cwd = true ->
  Path.isAbsolute (resolvePath cwd filePath rootPath currentFilePath) = true.
Proof.
  intros H. unfold resolvePath.
  destruct (Path.isAbsolute filePath) eqn:A; [exact A|].
  destruct (JS.startsWith filePath "@/"); now apply resolve_absolute.
Qed.

Section WithFiles.

Variable cwd : string.
Variable readFile : string -> option string.

Lemma includeLoop_reads
      (recur : PreprocessOptions -> State -> Outcome * State)
      (options : IncludeOptions) (matches : list IncludeMatch) :
  Path.isAbsolute cwd = true -> ReadsAbsolute recur ->
  forall text st,
  exists more,
    fileReads (snd (includeLoop cwd readFile recur options matches text st))
    = (fileReads st ++ more)%list
    /\ forall p, In p more -> Path.isAbsolute p = true.
Proof.
  intros Hcwd HR. induction matches as [|m rest IH]; intros text st.
  - exists []. simpl. rewrite app_nil_r. split; [reflexivity | intros p []].
  - simpl.
    set (rp := resolvePath cwd (filePath m) (io_rootPath options)
                           (io_currentFilePath options)).
    assert (Path.isAbsolute rp = true) as Hrp
      by (now apply resolvePath_absolute).
    destruct (readFile rp) as [included|].
    + match goal with
      | |- context [recur ?o ?s] =>
          destruct (HR o s) as (more1 & E1 & A1);
          destruct (recur o s) as [[t|msg|] st2]
      end; simpl in E1.
      * match goal with
        | |- context [includeLoop _ _ _ _ _ ?t' st2] =>
            destruct (IH t' st2) as (more2 & E2 & A2)
        end.
        exists ([rp] ++ more1 ++ more2)%list. split.
        -- rewrite E2, E1. now rewrite <- !app_assoc.
        -- intros p Hp. apply in_app_or in Hp. destruct Hp as [[<-|[]]|Hp]; auto.
           apply in_app_or in Hp. destruct Hp; auto.
      * exists ([rp] ++ more1)%list. simpl. split.
        -- rewrite E1. now rewrite <- app_assoc.
        -- intros p [<-|Hp]; auto.
      * exists ([rp] ++ more1)%list. simpl. split.
        -- rewrite E1. now rewrite <- app_assoc.
        -- intros p [<-|Hp]; auto.
    + match goal with
      | |- context [includeLoop _ _ _ _ _ ?t' ?s'] =>
          destruct (IH t' s') as (more2 & E2 & A2)
      end.
      exists ([rp] ++ more2)%list. split.
      * rewrite E2. simpl. now rewrite <- app_assoc.
      * intros p [<-|Hp]; auto.
Qed.

Lemma process_reads (fuel : nat) :
  Path.isAbsolute cwd = true -> ReadsAbsolute (process cwd readFile fuel).
Proof.
  intros Hcwd. induction fuel as [|fuel IH]; intros options st;
    rewrite OrderClaims.process_eq; cbv zeta;
    destruct (setHas _ _);
    try (exists []; simpl; rewrite app_nil_r;
         split; [reflexivity | intros p []]).
  unfold processIncludes.
  match goal with
  | |- context [includeLoop _ _ ?rec ?o ?ms ?t ?s] =>
      destruct (includeLoop_reads rec o ms Hcwd IH t s) as (more & E & A);
      destruct (includeLoop cwd readFile rec o ms t s) as [[t'|msg|] st2]
  end; simpl in *; exists more; auto.
Qed.

Lemma process_rejects_circular (fuel : nat) :
  RejectsCircular (process cwd readFile fuel).
Proof.
  induction fuel as [|fuel IH]; intros options st message st';
    rewrite OrderClaims.process_eq; cbv zeta;
    destruct (setHas _ _) eqn:V; try discriminate;
    try (intros [= <- <-]; eexists _, _; split;
         [reflexivity | now apply setHas_In]).
  unfold processIncludes.
  match goal with
  | |- context [includeLoop _ _ ?rec ?o ?ms ?t ?s] =>
      generalize t at 2; generalize s; induction ms as [|m rest IHm];
        intros s0 t0; simpl
  end.
  - discriminate.
  - destruct (readFile _) as [included|]; [|apply IHm].
    match goal with
    | |- context [process cwd readFile fuel ?o ?s] =>
        destruct (process cwd readFile fuel o s) as [[t|msg|] st2] eqn:E
    end.
    + apply IHm.
    + intros [= <- <-]. now apply IH in E.
    + discriminate.
Qed.

End WithFiles.

(** X3.  Every path [process] hands to [fs.readFile] is absolute, when the
    working directory is: the log of reads after a call is the log
    before it followed by absolute paths only. *)
Theorem file_reads_are_absolute
        (cwd : string) (readFile : string -> option string) (fuel : nat)
        (options : PreprocessOptions) (st : State) :
  Path.isAbsolute cwd = true ->
  exists more,
    fileReads (snd (process cwd readFile fuel options st))
    = (fileReads st ++ more)%list
    /\ forall p, In p more -> Path.isAbsolute p = true.
Proof.
  intros H. now apply process_reads.
Qed.

Lemma file_reads_are_absolute_witness :
  exists more,
    fileReads (snd (process workDir (lookupFile testFiles) 9
                            (mainOptions "claude" None
                               (includeTag "./level1.md"))
                            initialState))
    = ([] ++ more)%list
    /\ forall p, In p more -> Path.isAbsolute p = true.
Proof.
  apply (file_reads_are_absolute workDir (lookupFile testFiles) 9
           (mainOptions "claude" None (includeTag "./level1.md"))
           initialState).
  reflexivity.
Defined.

(** X4.  The only rejection of [process] is the circular dependency: a
    rejected call carries the message of [circularMessage] for a set of
    paths in flight and a path that is in it.  A file that cannot be read
    and a pipeline that throws never reject the call. *)
Theorem rejection_is_circular_dependency
        (cwd : string) (readFile : string -> option string) (fuel : nat)
        (options : PreprocessOptions) (st : State)
        (message : string) (st' : State) :
  process cwd readFile fuel options st = (Rejected message, st') ->
  exists visited p,
    message = circularMessage visited p /\ In p visited.
Proof. apply process_rejects_circular. Qed.

Lemma rejection_is_circular_dependency_witness :
  exists visited p,
    "[Transmute] Circular dependency detected: /t/a.md is already being processed."
    ++ newline ++ "Include chain: /t/main.md -> /t/a.md -> /t/b.md -> /t/a.md"
    = circularMessage visited p
    /\ In p visited.
Proof.
  apply (rejection_is_circular_dependency
           workDir (lookupFile testFiles) 9
           (mainOptions "claude" None (includeTag "./a.md")) initialState
           _ (mkState ["/t/main.md"; "/t/a.md"; "/t/b.md"]
                      ["/t/a.md"; "/t/b.md"; "/t/a.md"])).
  vm_compute. reflexivity.
Defined.

End ProcessMore.

(* ================================================================== *)
(** ** Cycles are met *)

Module CycleFacts.

Import Preprocessor Reading FileSystem Fixtures VisitationFacts.

Section Finite.

Variable cwd : string.
Variable fs : files.



End Finite.


End CycleFacts.

(* ================================================================== *)
(** ** Searching in concatenations *)

Module SearchFacts.

Import Reading.

Lemma sdrop_app (a b : string) (n : nat) :
  (n <= String.length a)%nat -> JS.sdrop n (a ++ b) = JS.sdrop n a ++ b.
Proof.
  revert a; induction n as [|n IH]; intros a H; [reflexivity|].
  destruct a as [|c a]; simpl in *; [lia|]. apply IH. lia.
Qed.

(** An occurrence at [j], at or after the start of the search, makes
    [indexOf] answer an index that is at most [j]. *)
Lemma indexOf_le (s pat : string) (pos : Z) (j : nat) :
  String.prefix pat (JS.sdrop j s) = true ->
  JS.clamp s pos <= Z.of_nat j ->
  JS.indexOf s pat pos <> -1 /\ JS.indexOf s pat pos <= Z.of_nat j.
Proof.
  intros P L. unfold JS.indexOf.
  pose proof (JSFacts.clamp_bounds s pos) as B.
  set (start := Z.to_nat (JS.clamp s pos)).
  assert (j = start + (j - start))%nat as Ej by (unfold start; lia).
  rewrite Ej, <- JSFacts.sdrop_sdrop in P. fold start.
  destruct (JS.find pat (JS.sdrop start s)) as [k|] eqn:F.
  - destruct (Nat.le_gt_cases k (j - start)) as [Hk|Hk].
    + unfold start in *. lia.
    + rewrite (JSFacts.find_first _ _ _ _ F Hk) in P. discriminate.
  - rewrite (JSFacts.find_none _ _ _ F) in P. discriminate.
Qed.

Lemma prefix_cons (c d : ascii) (p s : string) :
  String.prefix (String c p) (String d s) =
  if ascii_dec c d then String.prefix p s else false.
Proof. reflexivity. Qed.

(** A pattern that has no [<] after its first code unit cannot begin in
    one text and end in the next when the next text starts with [<]. *)
Lemma prefix_tail_marker (t : string) :
  lacks "<" t = true ->
  forall a b, String.prefix t (a ++ String "<" b) = String.prefix t a.
Proof.
  induction t as [|c t IH]; intros L a b.
  - destruct a; reflexivity.
  - simpl in L. apply andb_true_iff in L. destruct L as [Lc Lt].
    apply negb_true_iff, Ascii.eqb_neq in Lc.
    destruct a as [|e a]; simpl append; rewrite ?prefix_cons.
    + destruct (ascii_dec c "<"); [contradiction | reflexivity].
    + destruct (ascii_dec c e); [now apply IH | reflexivity].
Qed.

Lemma find_app_marker (t a b : string) :
  lacks "<" t = true ->
  JS.find (String "<" t) (a ++ String "<" b) =
  match JS.find (String "<" t) a with
  | Some k => Some k
  | None =>
      option_map (fun k => (String.length a + k)%nat)
                 (JS.find (String "<" t) (String "<" b))
  end.
Proof.
  intros L. induction a as [|d a IH].
  - simpl append. rewrite JSFacts.find_nil.
    change (String.prefix (String "<" t) EmptyString) with false.
    destruct (JS.find (String "<" t) (String "<" b)); reflexivity.
  - set (X := JS.find (String "<" t) (String "<" b)) in *.
    simpl append. rewrite !JSFacts.find_cons, IH.
    assert (String.prefix (String "<" t) (String d (a ++ String "<" b))
            = String.prefix (String "<" t) (String d a)) as ->.
    { rewrite !prefix_cons. destruct (ascii_dec "<" d); auto.
      now apply prefix_tail_marker. }
    clear IH.
    destruct (String.prefix (String "<" t) (String d a)); [reflexivity|].
    destruct (JS.find (String "<" t) a); [reflexivity|].
    destruct X; reflexivity.
Qed.

(** A pattern is not found inside a text that lacks its first code
    unit. *)
Lemma find_app_lacks (c : ascii) (t a b : string) :
  lacks c a = true ->
  JS.find (String c t) (a ++ b) =
  option_map (fun k => (String.length a + k)%nat) (JS.find (String c t) b).
Proof.
  intros L. induction a as [|d a IH].
  - simpl. destruct (JS.find (String c t) b); reflexivity.
  - simpl in L. apply andb_true_iff in L. destruct L as [Ld La].
    apply negb_true_iff, Ascii.eqb_neq in Ld.
    simpl append. rewrite JSFacts.find_cons, prefix_cons.
    destruct (ascii_dec c d) as [->|_]; [congruence|].
    rewrite (IH La). destruct (JS.find (String c t) b); reflexivity.
Qed.

Lemma find_none_marker (t a b : string) :
  lacks "<" t = true ->
  JS.find (String "<" t) a = None ->
  JS.find (String "<" t) (a ++ String "<" b) =
  option_map (fun k => (String.length a + k)%nat)
             (JS.find (String "<" t) (String "<" b)).
Proof.
  intros L N. rewrite find_app_marker by assumption. now rewrite N.
Qed.

Lemma find_here (pat s : string) :
  String.prefix pat s = true -> JS.find pat s = Some O.
Proof.
  intros P. destruct s; [rewrite JSFacts.find_nil | rewrite JSFacts.find_cons];
    now rewrite P.
Qed.

(** [indexOf] in a concatenation, the search starting where the second
    text starts. *)
Lemma indexOf_app (a b pat : string) :
  JS.indexOf (a ++ b) pat (JS.len a) =
  match JS.find pat b with
  | Some k => JS.len a + Z.of_nat k
  | None => -1
  end.
Proof.
  unfold JS.indexOf.
  assert (JS.clamp (a ++ b) (JS.len a) = JS.len a) as ->.
  { apply JSFacts.clamp_id. unfold JS.len.
    rewrite ParseClaims.length_append. lia. }
  unfold JS.len. rewrite Nat2Z.id, JSFacts.sdrop_app_length. reflexivity.
Qed.

Lemma indexOf_zero (s pat : string) :
  JS.indexOf s pat 0 =
  match JS.find pat s with
  | Some k => Z.of_nat k
  | None => -1
  end.
Proof.
  unfold JS.indexOf.
  rewrite JSFacts.clamp_id by (pose proof (JSFacts.len_nonneg s); lia).
  reflexivity.
Qed.

Lemma substring_middle (a b c : string) :
  JS.substring (a ++ b ++ c) (JS.len a) (JS.len a + JS.len b) = b.
Proof.
  assert (JS.len (a ++ b ++ c) = JS.len a + JS.len b + JS.len c) as L
    by (unfold JS.len; rewrite !ParseClaims.length_append; lia).
  pose proof (JSFacts.len_nonneg a). pose proof (JSFacts.len_nonneg b).
  pose proof (JSFacts.len_nonneg c).
  unfold JS.substring.
  rewrite (JSFacts.clamp_id _ (JS.len a)),
          (JSFacts.clamp_id _ (JS.len a + JS.len b)) by lia.
  rewrite Z.min_l, Z.max_r by lia.
  replace (JS.len a + JS.len b - JS.len a) with (JS.len b) by lia.
  unfold JS.len. rewrite !Nat2Z.id, JSFacts.sdrop_app_length.
  apply JSFacts.stake_app_length.
Qed.

Lemma substring_from_app (a b : string) :
  JS.substring_from (a ++ b) (JS.len a) = b.
Proof.
  assert (JS.len (a ++ b) = JS.len a + JS.len b) as L
    by (unfold JS.len; rewrite ParseClaims.length_append; lia).
  pose proof (JSFacts.len_nonneg a). pose proof (JSFacts.len_nonneg b).
  unfold JS.substring_from, JS.substring.
  rewrite (JSFacts.clamp_id _ (JS.len a)),
          (JSFacts.clamp_id _ (JS.len (a ++ b))) by lia.
  rewrite Z.min_l, Z.max_r by lia.
  rewrite L. replace (JS.len a + JS.len b - JS.len a) with (JS.len b) by lia.
  unfold JS.len. rewrite !Nat2Z.id, JSFacts.sdrop_app_length.
  apply JSFacts.stake_all. lia.
Qed.

End SearchFacts.

(* ================================================================== *)
(** ** The visibility filter only removes *)

Module FilterFacts.

Import Preprocessor Reading.

Lemma firstRegion_spec (text : string) (r : Region) :
  firstRegion text = Some r ->
  startIndex r = JS.indexOf text TAG_OPEN_START 0
  /\ openingTagEnd r = JS.indexOf text ">" (startIndex r)
  /\ String.prefix TAG_CLOSE (JS.sdrop (Z.to_nat (closingIndex r)) text) = true
  /\ 0 <= startIndex r /\ startIndex r < closingIndex r
  /\ closingIndex r + 25 <= JS.len text.
Proof.
  intros H. pose proof (VisibilityFacts.firstRegion_bounds _ _ H) as B.
  revert H. unfold firstRegion.
  destruct (JS.indexOf text TAG_OPEN_START 0 =? -1) eqn:Hs; [discriminate|].
  destruct (findClosing _ text 0 _) as [c|] eqn:Hf; [|discriminate].
  destruct (c =? -1) eqn:Hc; [discriminate|].
  apply Z.eqb_neq in Hc.
  intros [= <-]; simpl in B |- *.
  apply VisibilityFacts.findClosing_found in Hf; auto; try lia.
  destruct Hf as (_ & _ & P). repeat split; auto; lia.
Qed.

(** The opening tag ends at or before the [>] of the closing tag. *)
Lemma tag_end_bounds (text : string) (r : Region) :
  firstRegion text = Some r ->
  startIndex r <= openingTagEnd r <= closingIndex r + 24.
Proof.
  intros H. destruct (firstRegion_spec _ _ H) as (_ & E & P & B0 & B1 & B2).
  assert (JS.clamp text (startIndex r) = startIndex r) as C
    by (apply JSFacts.clamp_id; lia).
  assert (String.prefix ">" (JS.sdrop (Z.to_nat (closingIndex r) + 24) text)
          = true) as Q.
  { rewrite <- JSFacts.sdrop_sdrop.
    apply JSFacts.prefix_split in P.
    set (rest := JS.sdrop (String.length TAG_CLOSE) _) in P.
    rewrite P. destruct rest; reflexivity. }
  destruct (SearchFacts.indexOf_le text ">" (startIndex r) _ Q) as (N & U);
    [lia|].
  destruct (JSFacts.indexOf_found _ _ _ _ eq_refl N) as (L & _ & _).
  rewrite E. lia.
Qed.

Lemma region_parts_shorter (text : string) (r : Region) :
  firstRegion text = Some r ->
  (String.length (textBefore text r)
   + String.length (innerContentRaw text r)
   + String.length (remainingText text r) < String.length text)%nat.
Proof.
  intros H. pose proof (tag_end_bounds _ _ H) as T.
  destruct (firstRegion_spec _ _ H) as (_ & _ & _ & B0 & B1 & B2).
  pose proof (JSFacts.length_substring text 0 (startIndex r)) as L1.
  pose proof (JSFacts.length_substring text (openingTagEnd r + 1)
                                       (closingIndex r)) as L2.
  pose proof (JSFacts.length_substring text (closingIndex r + 25)
                                       (JS.len text)) as L3.
  rewrite !JSFacts.clamp_id in L1, L2, L3 by lia.
  unfold textBefore, innerContentRaw, remainingText, JS.substring_from.
  rewrite VisibilityFacts.len_close.
  unfold JS.len in *. lia.
Qed.

Lemma processVisibility_length (n : nat) :
  forall text tool,
    (String.length text < n)%nat ->
    (String.length (processVisibility text tool) <= String.length text)%nat
    /\ (firstRegion text <> None ->
        (String.length (processVisibility text tool) < String.length text)%nat).
Proof.
  induction n as [|n IH]; intros text tool Hn; [lia|].
  rewrite VisibilityFacts.processVisibility_unfold.
  destruct (firstRegion text) as [r|] eqn:R; [|split; [lia | congruence]].
  pose proof (region_parts_shorter _ _ R) as P.
  destruct (IH (innerContentRaw text r) tool) as [Hi _]; [lia|].
  destruct (IH (remainingText text r) tool) as [Hr _]; [lia|].
  rewrite !ParseClaims.length_append.
  destruct (shouldKeep (openingTagStr text r) tool); simpl; split; lia.
Qed.

Lemma no_closing_tag (text : string) :
  JS.find TAG_CLOSE text = None -> firstRegion text = None.
Proof.
  intros N. unfold firstRegion.
  destruct (JS.indexOf text TAG_OPEN_START 0 =? -1); [reflexivity|].
  rewrite VisibilityFacts.findClosing_eq.
  destruct (_ <? JS.len text); [|reflexivity].
  cbv zeta.
  assert (forall pos, JS.indexOf text TAG_CLOSE pos = -1) as C.
  { intros pos. unfold JS.indexOf.
    destruct (JS.find TAG_CLOSE (JS.sdrop _ text)) as [k|] eqn:F; auto.
    apply JSFacts.find_some in F. destruct F as [P _].
    rewrite JSFacts.sdrop_sdrop in P.
    now rewrite (JSFacts.find_none _ _ _ N) in P. }
  rewrite C. reflexivity.
Qed.

Lemma no_opening_tag (text : string) :
  JS.find TAG_OPEN_START text = None -> firstRegion text = None.
Proof.
  intros N. unfold firstRegion.
  rewrite SearchFacts.indexOf_zero, N. reflexivity.
Qed.

Lemma sub_refl (s : string) : Subsequence s s.
Proof. induction s; constructor; auto. Qed.

Lemma sub_empty (s : string) : Subsequence EmptyString s.
Proof. induction s; constructor; auto. Qed.

Lemma sub_app (a a' b b' : string) :
  Subsequence a a' -> Subsequence b b' -> Subsequence (a ++ b) (a' ++ b').
Proof.
  intros Ha Hb. induction Ha; simpl; auto; constructor; auto.
Qed.

Lemma sub_trans (a b c : string) :
  Subsequence a b -> Subsequence b c -> Subsequence a c.
Proof.
  intros Hab Hbc. revert a Hab.
  induction Hbc as [|x b c Hbc IH|x b c Hbc IH]; intros a Hab.
  - exact Hab.
  - inversion Hab; subst; constructor; auto.
  - constructor. auto.
Qed.

Lemma sub_length (a b : string) :
  Subsequence a b -> (String.length a <= String.length b)%nat.
Proof. induction 1; simpl; lia. Qed.

Lemma stake_add (a b : nat) (s : string) :
  JS.stake (a + b) s = JS.stake a s ++ JS.stake b (JS.sdrop a s).
Proof.
  revert s. induction a as [|a IH]; intros s; [reflexivity|].
  destruct s as [|c s]; simpl.
  - destruct b; reflexivity.
  - now rewrite IH.
Qed.

Lemma between_split (a b c : nat) (s : string) :
  (a <= b <= c)%nat -> between a c s = between a b s ++ between b c s.
Proof.
  intros H. unfold between.
  replace (c - a)%nat with ((b - a) + (c - b))%nat by lia.
  rewrite stake_add, JSFacts.sdrop_sdrop.
  replace (a + (b - a))%nat with b by lia. reflexivity.
Qed.

Lemma between_all (s : string) : between 0 (String.length s) s = s.
Proof.
  unfold between. rewrite Nat.sub_0_r. apply JSFacts.stake_all. lia.
Qed.

(** [substring] between the indices it is called with, when they are in
    the text. *)
Lemma substring_is_between (s : string) (i j : Z) :
  0 <= i <= JS.len s -> 0 <= j <= JS.len s ->
  JS.substring s i j
  = between (Z.to_nat (Z.min i j)) (Z.to_nat (Z.max i j)) s.
Proof.
  intros Hi Hj. unfold JS.substring, between. cbv zeta.
  rewrite !JSFacts.clamp_id by assumption.
  f_equal. lia.
Qed.

(** A text is its parts in order; what is made of some of the parts, in
    order and with code units deleted, is a subsequence of it. *)
Lemma sub_parts (s A B : string) (x lo hi y : nat) :
  (x <= lo <= hi)%nat -> (hi <= y <= String.length s)%nat ->
  Subsequence A (between lo hi s) ->
  Subsequence B (between y (String.length s) s) ->
  Subsequence (between 0 x s ++ A ++ B) s.
Proof.
  intros H1 H2 HA HB.
  assert (Subsequence (between 0 x s ++ A ++ B)
                      (between 0 (String.length s) s)) as H;
    [|now rewrite between_all in H].
  rewrite (between_split 0 x (String.length s)) by lia.
  rewrite (between_split x lo (String.length s)) by lia.
  rewrite (between_split lo hi (String.length s)) by lia.
  rewrite (between_split hi y (String.length s)) by lia.
  apply sub_app; [apply sub_refl|].
  change (A ++ B) with (EmptyString ++ A ++ B).
  apply sub_app; [apply sub_empty|].
  apply sub_app; [exact HA|].
  change B with (EmptyString ++ B).
  apply sub_app; [apply sub_empty | exact HB].
Qed.

Lemma processVisibility_subsequence (n : nat) :
  forall text tool,
    (String.length text < n)%nat ->
    Subsequence (processVisibility text tool) text.
Proof.
  induction n as [|n IH]; intros text tool Hn; [lia|].
  rewrite VisibilityFacts.processVisibility_unfold.
  destruct (firstRegion text) as [r|] eqn:R; [|apply sub_refl].
  pose proof (region_parts_shorter _ _ R) as P.
  pose proof (tag_end_bounds _ _ R) as T.
  destruct (firstRegion_spec _ _ R) as (_ & _ & _ & B0 & B1 & B2).
  pose proof (IH (innerContentRaw text r) tool ltac:(lia)) as Hi.
  pose proof (IH (remainingText text r) tool ltac:(lia)) as Hr.
  assert (Subsequence
            (if shouldKeep (openingTagStr text r) tool
             then processVisibility (innerContentRaw text r) tool
             else EmptyString)
            (innerContentRaw text r)) as Hk
    by (destruct (shouldKeep _ _); [exact Hi | apply sub_empty]).
  clear Hi. revert Hk Hr.
  unfold textBefore, innerContentRaw, remainingText, JS.substring_from.
  rewrite VisibilityFacts.len_close.
  rewrite !substring_is_between by (unfold JS.len in *; lia).
  intros Hk Hr.
  replace (Z.to_nat (Z.min 0 (startIndex r))) with 0%nat by lia.
  replace (Z.to_nat (Z.max 0 (startIndex r)))
    with (Z.to_nat (startIndex r)) by lia.
  replace (Z.to_nat (Z.min (closingIndex r + 25) (JS.len text)))
    with (Z.to_nat (closingIndex r + 25)) in * by (unfold JS.len in *; lia).
  replace (Z.to_nat (Z.max (closingIndex r + 25) (JS.len text)))
    with (String.length text) in * by (unfold JS.len in *; lia).
  eapply sub_parts; [| |exact Hk|exact Hr]; unfold JS.len in *; lia.
Qed.

(** X6.  [processVisibility] only removes: its output is its input with
    code units deleted, the others kept in their order, so that it writes
    nothing of its own and is never longer than its input; and it is its
    input exactly when the scan finds no region (an opening tag with its
    matching closing tag); in particular a text with no opening tag, or
    with no closing tag at all, comes back as it is, whatever the tool. *)
Theorem filter_only_removes (text tool : string) :
  Subsequence (processVisibility text tool) text
  /\ (String.length (processVisibility text tool) <= String.length text)%nat
  /\ (processVisibility text tool = text <-> firstRegion text = None)
  /\ (JS.find TAG_OPEN_START text = None -> processVisibility text tool = text)
  /\ (JS.find TAG_CLOSE text = None -> processVisibility text tool = text).
Proof.
  destruct (processVisibility_length (S (String.length text)) text tool)
    as [Hle Hlt]; [lia|].
  assert (firstRegion text = None -> processVisibility text tool = text) as F.
  { intros N. rewrite VisibilityFacts.processVisibility_unfold.
    now rewrite N. }
  split; [apply (processVisibility_subsequence (S (String.length text))); lia|].
  split; [exact Hle|]. split; [split; [|exact F]|split].
  - intros E. destruct (firstRegion text) eqn:R; auto.
    assert (String.length (processVisibility text tool) < String.length text)%nat
      by (apply Hlt; discriminate).
    rewrite E in *. lia.
  - intros N. apply F. now apply no_opening_tag.
  - intros N. apply F. now apply no_closing_tag.
Qed.

End FilterFacts.

(* ================================================================== *)
(** ** A region without nested tags *)

Module FlatRegion.

Import Preprocessor Reading.

Lemma open_shape : TAG_OPEN_START = String "<" openTail.
Proof. reflexivity. Qed.

Lemma close_shape : TAG_CLOSE = String "<" closeTail.
Proof. reflexivity. Qed.

Lemma close_not_at_open (x : string) :
  String.prefix TAG_CLOSE (TAG_OPEN_START ++ x) = false.
Proof.
  reflexivity.
Qed.

Lemma open_not_at_close (x : string) :
  String.prefix TAG_OPEN_START (TAG_CLOSE ++ x) = false.
Proof.
  reflexivity.
Qed.

(** No closing tag starts inside the text of the opening marker. *)
Lemma find_close_after_open (x : string) :
  JS.find TAG_CLOSE (TAG_OPEN_START ++ x) =
  option_map (fun k => (23 + k)%nat) (JS.find TAG_CLOSE x).
Proof.
  pose proof (close_not_at_open x) as P.
  change (TAG_OPEN_START ++ x) with (String "<" (openTail ++ x)) in *.
  rewrite JSFacts.find_cons, P.
  rewrite close_shape, (SearchFacts.find_app_lacks "<" closeTail openTail x)
    by reflexivity.
  destruct (JS.find (String "<" closeTail) x); reflexivity.
Qed.

(** No opening marker starts inside the text of the closing tag. *)
Lemma find_open_after_close (x : string) :
  JS.find TAG_OPEN_START (TAG_CLOSE ++ x) =
  option_map (fun k => (25 + k)%nat) (JS.find TAG_OPEN_START x).
Proof.
  pose proof (open_not_at_close x) as P.
  change (TAG_CLOSE ++ x) with (String "<" (closeTail ++ x)) in *.
  rewrite JSFacts.find_cons, P.
  rewrite open_shape, (SearchFacts.find_app_lacks "<" openTail closeTail x)
    by reflexivity.
  destruct (JS.find (String "<" openTail) x); reflexivity.
Qed.

Lemma find_after_gt (c : ascii) (t x : string) :
  c <> ">"%char ->
  JS.find (String c t) (String ">" x) =
  option_map S (JS.find (String c t) x).
Proof.
  intros H. rewrite JSFacts.find_cons, SearchFacts.prefix_cons.
  destruct (ascii_dec c ">"); [contradiction | reflexivity].
Qed.

Section Region.

Variables pre attrs inner post : string.

Hypothesis pre_plain : JS.find TAG_OPEN_START pre = None.
Hypothesis attrs_no_gt : lacks ">" attrs = true.
Hypothesis attrs_no_lt : lacks "<" attrs = true.
Hypothesis inner_no_open : JS.find TAG_OPEN_START inner = None.
Hypothesis inner_no_close : JS.find TAG_CLOSE inner = None.

Lemma find_close_afterOpen : JS.find TAG_CLOSE (afterOpen attrs inner post) = Some (closeOffset attrs inner).
Proof.
  unfold afterOpen, closeOffset.
  rewrite close_shape at 1.
  rewrite SearchFacts.find_app_lacks by assumption.
  change (">" ++ inner ++ TAG_CLOSE ++ post)
    with (String ">" (inner ++ TAG_CLOSE ++ post)).
  rewrite find_after_gt by discriminate.
  change (TAG_CLOSE ++ post) with (String "<" (closeTail ++ post)).
  rewrite SearchFacts.find_none_marker;
    [|reflexivity | rewrite <- close_shape; assumption].
  rewrite <- close_shape.
  change (String "<" (closeTail ++ post)) with (TAG_CLOSE ++ post).
  rewrite (SearchFacts.find_here _ _ (JSFacts.prefix_app TAG_CLOSE post)).
  simpl. f_equal. lia.
Qed.

Lemma find_open_afterOpen :
  JS.find TAG_OPEN_START (afterOpen attrs inner post) =
  option_map (fun k => ((closeOffset attrs inner) + 25 + k)%nat)
             (JS.find TAG_OPEN_START post).
Proof.
  unfold afterOpen, closeOffset.
  rewrite open_shape at 1.
  rewrite SearchFacts.find_app_lacks by assumption.
  change (">" ++ inner ++ TAG_CLOSE ++ post)
    with (String ">" (inner ++ TAG_CLOSE ++ post)).
  rewrite find_after_gt by discriminate.
  change (TAG_CLOSE ++ post) with (String "<" (closeTail ++ post)).
  rewrite SearchFacts.find_none_marker;
    [|reflexivity | rewrite <- open_shape; assumption].
  rewrite <- open_shape.
  change (String "<" (closeTail ++ post)) with (TAG_CLOSE ++ post).
  rewrite find_open_after_close.
  destruct (JS.find TAG_OPEN_START post); simpl; [f_equal; lia | reflexivity].
Qed.

Lemma find_gt_afterOpen : JS.find ">" (afterOpen attrs inner post) = Some (String.length attrs).
Proof.
  unfold afterOpen.
  rewrite (SearchFacts.find_app_lacks ">" EmptyString attrs) by assumption.
  rewrite (SearchFacts.find_here _ _ (JSFacts.prefix_app ">" _)).
  simpl. f_equal. lia.
Qed.

Lemma find_open_regionText :
  JS.find TAG_OPEN_START (regionText pre attrs inner post) = Some (String.length pre).
Proof.
  unfold regionText.
  change (TAG_OPEN_START ++ (afterOpen attrs inner post)) with (String "<" (openTail ++ (afterOpen attrs inner post))).
  rewrite open_shape.
  rewrite SearchFacts.find_none_marker;
    [|reflexivity | rewrite <- open_shape; assumption].
  rewrite <- open_shape.
  change (String "<" (openTail ++ (afterOpen attrs inner post)))
    with (TAG_OPEN_START ++ (afterOpen attrs inner post)).
  rewrite (SearchFacts.find_here _ _
             (JSFacts.prefix_app TAG_OPEN_START (afterOpen attrs inner post))).
  simpl. f_equal. lia.
Qed.

Lemma regionText_assoc :
  (regionText pre attrs inner post) = (pre ++ TAG_OPEN_START) ++ (afterOpen attrs inner post).
Proof. unfold regionText. now rewrite ParseClaims.append_assoc. Qed.

Lemma len_regionText :
  JS.len (regionText pre attrs inner post) =
  JS.len pre + 23 + Z.of_nat (closeOffset attrs inner) + 25 + JS.len post.
Proof.
  unfold regionText, afterOpen, closeOffset, JS.len.
  rewrite !ParseClaims.length_append. simpl String.length. lia.
Qed.

Lemma len_pre_open : JS.len (pre ++ TAG_OPEN_START) = JS.len pre + 23.
Proof.
  unfold JS.len. rewrite ParseClaims.length_append. simpl String.length. lia.
Qed.

(** The region the scan delimits in [regionText]. *)
Lemma firstRegion_regionText :
  firstRegion (regionText pre attrs inner post)
  = Some (mkRegion (JS.len pre)
                   (JS.len pre + 23 + JS.len attrs)
                   (JS.len pre + 23 + Z.of_nat (closeOffset attrs inner))).
Proof.
  pose proof (JSFacts.len_nonneg pre) as Hp.
  pose proof (JSFacts.len_nonneg post) as Hq.
  pose proof len_regionText as L.
  unfold firstRegion.
  rewrite SearchFacts.indexOf_zero, find_open_regionText.
  fold (JS.len pre).
  replace (JS.len pre =? -1) with false by (symmetry; apply Z.eqb_neq; lia).
  (* the first turn of the loop *)
  rewrite VisibilityFacts.findClosing_eq.
  replace (JS.len pre <? JS.len (regionText pre attrs inner post)) with true
    by (symmetry; apply Z.ltb_lt; lia).
  cbv zeta.
  assert (JS.indexOf (regionText pre attrs inner post) TAG_OPEN_START (JS.len pre) = JS.len pre)
    as ->.
  { unfold regionText. rewrite SearchFacts.indexOf_app.
    rewrite (SearchFacts.find_here _ _
               (JSFacts.prefix_app TAG_OPEN_START (afterOpen attrs inner post))). lia. }
  assert (JS.indexOf (regionText pre attrs inner post) TAG_CLOSE (JS.len pre)
          = JS.len pre + 23 + Z.of_nat (closeOffset attrs inner)) as ->.
  { unfold regionText. rewrite SearchFacts.indexOf_app.
    rewrite find_close_after_open, find_close_afterOpen. cbn [option_map].
    lia. }
  replace (JS.len pre + 23 + Z.of_nat (closeOffset attrs inner) =? -1) with false
    by (symmetry; apply Z.eqb_neq; lia).
  replace (JS.len pre =? -1) with false by (symmetry; apply Z.eqb_neq; lia).
  replace (JS.len pre <? JS.len pre + 23 + Z.of_nat (closeOffset attrs inner)) with true
    by (symmetry; apply Z.ltb_lt; lia).
  simpl negb. simpl andb. cbv iota.
  (* the second turn *)
  rewrite VisibilityFacts.len_open, VisibilityFacts.findClosing_eq.
  replace (JS.len pre + 23 <? JS.len (regionText pre attrs inner post)) with true
    by (symmetry; apply Z.ltb_lt; lia).
  destruct (String.length (regionText pre attrs inner post)) as [|n] eqn:N;
    [unfold JS.len in L; rewrite N in L; lia|].
  cbv zeta.
  assert (JS.indexOf (regionText pre attrs inner post) TAG_CLOSE (JS.len pre + 23)
          = JS.len pre + 23 + Z.of_nat (closeOffset attrs inner)) as ->.
  { rewrite regionText_assoc, <- len_pre_open, SearchFacts.indexOf_app.
    rewrite find_close_afterOpen. reflexivity. }
  assert (JS.indexOf (regionText pre attrs inner post) TAG_OPEN_START (JS.len pre + 23) = -1
          \/ JS.len pre + 23 + Z.of_nat (closeOffset attrs inner)
             < JS.indexOf (regionText pre attrs inner post) TAG_OPEN_START (JS.len pre + 23)) as O.
  { rewrite regionText_assoc, <- len_pre_open, SearchFacts.indexOf_app.
    rewrite find_open_afterOpen.
    destruct (JS.find TAG_OPEN_START post); cbn [option_map]; [right|left];
      lia. }
  replace (JS.len pre + 23 + Z.of_nat (closeOffset attrs inner) =? -1) with false
    by (symmetry; apply Z.eqb_neq; lia).
  assert (negb (JS.indexOf (regionText pre attrs inner post) TAG_OPEN_START (JS.len pre + 23) =? -1)
          && (JS.indexOf (regionText pre attrs inner post) TAG_OPEN_START (JS.len pre + 23)
              <? JS.len pre + 23 + Z.of_nat (closeOffset attrs inner)) = false) as ->.
  { destruct O as [->|O]; [reflexivity|].
    apply andb_false_iff. right. apply Z.ltb_ge. lia. }
  simpl Z.sub. simpl Z.eqb. cbv iota.
  replace (JS.len pre + 23 + Z.of_nat (closeOffset attrs inner) =? -1) with false
    by (symmetry; apply Z.eqb_neq; lia).
  (* the end of the opening tag *)
  f_equal. f_equal.
  unfold regionText. rewrite SearchFacts.indexOf_app.
  rewrite (SearchFacts.find_app_lacks ">" EmptyString TAG_OPEN_START (afterOpen attrs inner post))
    by reflexivity.
  rewrite find_gt_afterOpen. cbn [option_map]. unfold JS.len.
  change (String.length TAG_OPEN_START) with 23%nat. lia.
Qed.

Lemma len_attrs_tag :
  JS.len (TAG_OPEN_START ++ attrs ++ ">") = 23 + JS.len attrs + 1.
Proof.
  unfold JS.len. rewrite !ParseClaims.length_append. simpl String.length. lia.
Qed.

(** The equation of the filter on [regionText]. *)
Lemma processVisibility_regionText (tool : string) :
  processVisibility (regionText pre attrs inner post) tool =
  pre
  ++ (if shouldKeep (TAG_OPEN_START ++ attrs ++ ">") tool
      then inner else EmptyString)
  ++ processVisibility post tool.
Proof.
  rewrite VisibilityFacts.processVisibility_unfold, firstRegion_regionText.
  unfold textBefore, openingTagStr, innerContentRaw, remainingText.
  cbn [startIndex openingTagEnd closingIndex].
  assert (JS.substring (regionText pre attrs inner post) 0 (JS.len pre) = pre) as ->
    by apply ParseClaims.substring_head.
  assert (JS.substring (regionText pre attrs inner post) (JS.len pre)
                       (JS.len pre + 23 + JS.len attrs + 1)
          = TAG_OPEN_START ++ attrs ++ ">") as ->.
  { replace (JS.len pre + 23 + JS.len attrs + 1)
      with (JS.len pre + JS.len (TAG_OPEN_START ++ attrs ++ ">"))
      by (rewrite len_attrs_tag; lia).
    replace (regionText pre attrs inner post)
      with (pre ++ (TAG_OPEN_START ++ attrs ++ ">")
            ++ inner ++ TAG_CLOSE ++ post)
      by (unfold regionText, afterOpen;
          now rewrite !ParseClaims.append_assoc).
    apply SearchFacts.substring_middle. }
  assert (JS.substring (regionText pre attrs inner post) (JS.len pre + 23 + JS.len attrs + 1)
                       (JS.len pre + 23 + Z.of_nat (closeOffset attrs inner))
          = inner) as ->.
  { replace (regionText pre attrs inner post)
      with ((pre ++ TAG_OPEN_START ++ attrs ++ ">")
            ++ inner ++ TAG_CLOSE ++ post)
      by (unfold regionText, afterOpen;
          now rewrite !ParseClaims.append_assoc).
    replace (JS.len pre + 23 + JS.len attrs + 1)
      with (JS.len (pre ++ TAG_OPEN_START ++ attrs ++ ">"))
      by (unfold JS.len; rewrite !ParseClaims.length_append;
          simpl String.length; lia).
    replace (JS.len pre + 23 + Z.of_nat (closeOffset attrs inner))
      with (JS.len (pre ++ TAG_OPEN_START ++ attrs ++ ">") + JS.len inner)
      by (unfold closeOffset, JS.len; rewrite !ParseClaims.length_append;
          simpl String.length; lia).
    apply SearchFacts.substring_middle. }
  assert (JS.substring_from (regionText pre attrs inner post)
            (JS.len pre + 23 + Z.of_nat (closeOffset attrs inner) + JS.len TAG_CLOSE)
          = post) as ->.
  { replace (regionText pre attrs inner post)
      with ((pre ++ TAG_OPEN_START ++ attrs ++ ">" ++ inner ++ TAG_CLOSE)
            ++ post)
      by (unfold regionText, afterOpen;
          now rewrite !ParseClaims.append_assoc).
    replace (JS.len pre + 23 + Z.of_nat (closeOffset attrs inner) + JS.len TAG_CLOSE)
      with (JS.len (pre ++ TAG_OPEN_START ++ attrs ++ ">" ++ inner
                    ++ TAG_CLOSE))
      by (unfold closeOffset, JS.len; rewrite !ParseClaims.length_append;
          simpl String.length; lia).
    apply SearchFacts.substring_from_app. }
  assert (processVisibility inner tool = inner) as ->.
  { rewrite VisibilityFacts.processVisibility_unfold.
    now rewrite (FilterFacts.no_opening_tag inner inner_no_open). }
  reflexivity.
Qed.

End Region.

(** X7.  A filter region with no tag nested in it: when no opening marker
    starts before the region, the attributes hold no angle bracket and
    the inner text holds no opening marker and no closing tag, the filter
    gives the text before the region, then the inner text if the region
    is kept for the tool and nothing if it is dropped, then the filtered
    text after the region.  Sibling regions are thus decided one after
    the other, each on its own attributes. *)
Theorem flat_region_is_kept_or_dropped
        (pre attrs inner post tool : string) :
  JS.find TAG_OPEN_START pre = None ->
  lacks ">" attrs = true ->
  lacks "<" attrs = true ->
  JS.find TAG_OPEN_START inner = None ->
  JS.find TAG_CLOSE inner = None ->
  processVisibility
    (pre ++ TAG_OPEN_START ++ attrs ++ ">" ++ inner ++ TAG_CLOSE ++ post)
    tool
  = pre
    ++ (if shouldKeep (TAG_OPEN_START ++ attrs ++ ">") tool
        then inner else EmptyString)
    ++ processVisibility post tool.
Proof.
  intros. now apply processVisibility_regionText.
Qed.

End FlatRegion.

(* ================================================================== *)
(** ** A text with one include directive *)

Module IncludeFacts.

Import Preprocessor Reading Fixtures Regex.

Lemma append_cons (c : ascii) (a b : string) :
  String c a ++ b = String c (a ++ b).
Proof. reflexivity. Qed.

Lemma execAll_here (r : regex) (c : ascii) (s : string) :
  execAll r 0 (String c s)
  = match matchHere r (String c s) with
    | Some (m, caps) => (m, caps) :: execAll r (String.length m - 1) s
    | None => execAll r 0 s
    end.
Proof. reflexivity. Qed.

Lemma many_greedy {A : Type} (p : ascii -> bool) (body : string) :
  forall (min : nat) (q : ascii) (rest : string) (k : string -> option A) (x : A),
    allOf p body = true -> p q = false -> (min <= String.length body)%nat ->
    k (String q rest) = Some x ->
    many p min (body ++ String q rest) k = Some x.
Proof.
  induction body as [|c body IH]; intros min q rest k x Hall Hq Hmin Hk.
  - simpl in *. rewrite Hq.
    replace (min =? 0)%nat with true by (symmetry; apply Nat.eqb_eq; lia).
    exact Hk.
  - simpl in Hall. apply andb_true_iff in Hall. destruct Hall as [Hc Hall].
    simpl. rewrite Hc. rewrite (IH (Nat.pred min) q rest k x); auto.
    simpl in Hmin. lia.
Qed.

Lemma includeTag_shape (path post : string) :
  includeTag path ++ post
  = includeOpen ++ " path="
    ++ String dquote (path ++ String dquote (" />" ++ post)).
Proof.
  unfold includeTag, quoted, includeOpen.
  rewrite !ParseClaims.append_assoc. reflexivity.
Qed.

Lemma consumed_tag (path post : string) :
  consumed (includeOpen ++ " path="
            ++ String dquote (path ++ String dquote (" />" ++ post))) post
  = includeTag path.
Proof.
  rewrite <- includeTag_shape. apply RegexFacts.consumed_app.
Qed.

Lemma matchHere_includeTag (path post : string) :
  allOf notQuote path = true -> (1 <= String.length path)%nat ->
  matchHere includeRegex (includeTag path ++ post)
  = Some (includeTag path, [(1%nat, path)]).
Proof.
  intros Hall Hlen.
  pose proof (consumed_tag path post) as CT.
  rewrite includeTag_shape.
  unfold matchHere, includeRegex. cbn [sequence].
  cbn [run].
  rewrite (JSFacts.prefix_app includeOpen).
  rewrite JSFacts.sdrop_app_length.
  set (whole := includeOpen ++ _) in *.
  cbn [append many JS.is_space]. simpl.
  erewrite many_greedy; [reflexivity | assumption | reflexivity | assumption |].
  simpl. rewrite CT.
  rewrite (RegexFacts.consumed_app path).
  assert (prefix EmptyString post = true) as -> by (destruct post; reflexivity).
  reflexivity.
Qed.

(** The expression matches nowhere a text that does not start with its
    first literal. *)
Lemma matchHere_needs_open (s : string) :
  prefix includeOpen s = false -> matchHere includeRegex s = None.
Proof.
  intros P. unfold matchHere, includeRegex. cbn [sequence]. cbn [run].
  fold includeOpen. now rewrite P.
Qed.

Lemma execAll_none (s : string) :
  JS.find includeOpen s = None -> execAll includeRegex 0 s = [].
Proof.
  induction s as [|c s IH]; intros N; [reflexivity|].
  rewrite JSFacts.find_cons in N.
  destruct (prefix includeOpen (String c s)) eqn:P; [discriminate|].
  destruct (JS.find includeOpen s) eqn:F; [discriminate|].
  rewrite execAll_here, (matchHere_needs_open _ P). now apply IH.
Qed.

Lemma execAll_skip (r : regex) (a b : string) :
  execAll r (String.length a) (a ++ b) = execAll r 0 b.
Proof.
  induction a as [|c a IH]; [reflexivity|]. simpl. exact IH.
Qed.

Lemma execAll_skip_cons (r : regex) (c : ascii) (a b : string) :
  execAll r (String.length (String c a) - 1) (a ++ b) = execAll r 0 b.
Proof.
  cbn [String.length]. rewrite Nat.sub_1_r. apply execAll_skip.
Qed.

Lemma includeTag_cons (path : string) :
  includeTag path = String "<" (tagTail path).
Proof. reflexivity. Qed.

(** No directive starts in a text that holds no opening literal, even
    when a directive follows it. *)
Lemma execAll_pre (pre rest : string) :
  JS.find includeOpen pre = None ->
  execAll includeRegex 0 (pre ++ String "<" rest)
  = execAll includeRegex 0 (String "<" rest).
Proof.
  induction pre as [|c pre IH]; intros N; [reflexivity|].
  rewrite JSFacts.find_cons in N.
  destruct (prefix includeOpen (String c pre)) eqn:P; [discriminate|].
  destruct (JS.find includeOpen pre) eqn:F; [discriminate|].
  rewrite append_cons, execAll_here.
  rewrite matchHere_needs_open; [now apply IH|].
  unfold includeOpen in *. rewrite SearchFacts.prefix_cons in *.
  destruct (ascii_dec "<" c); [|reflexivity].
  rewrite SearchFacts.prefix_tail_marker by reflexivity. exact P.
Qed.

Lemma includeTag_app (path post : string) :
  includeTag path ++ post = String "<" (tagTail path ++ post).
Proof. reflexivity. Qed.

Lemma findIncludes_single (pre path post : string) :
  JS.find includeOpen pre = None -> JS.find includeOpen post = None ->
  allOf notQuote path = true -> (1 <= String.length path)%nat ->
  findIncludes (pre ++ includeTag path ++ post)
  = [mkIncludeMatch (includeTag path) path None].
Proof.
  intros Npre Npost Hall Hlen. unfold findIncludes.
  pose proof (matchHere_includeTag path post Hall Hlen) as M.
  rewrite includeTag_app in *.
  rewrite (execAll_pre _ _ Npre), execAll_here, M.
  rewrite includeTag_cons at 2.
  rewrite execAll_skip_cons, (execAll_none _ Npost). reflexivity.
Qed.

Lemma prefix_app_l (s r t : string) :
  prefix (s ++ r) t = true -> prefix s t = true.
Proof.
  revert t. induction s as [|a s IH]; intros t Q.
  - destruct t; reflexivity.
  - destruct t as [|b t]; [discriminate Q|].
    change (String a s ++ r) with (String a (s ++ r)) in Q.
    rewrite SearchFacts.prefix_cons in *.
    destruct (ascii_dec a b); [|discriminate Q]. now apply IH.
Qed.

Lemma includeTag_open (path : string) :
  includeTag path = includeOpen ++ " path=" ++ quoted path ++ " />".
Proof. reflexivity. Qed.

Lemma prefix_directive (c : ascii) (pre path post : string) :
  prefix includeOpen (String c pre) = false ->
  prefix (includeTag path) (String c (pre ++ includeTag path ++ post)) = false.
Proof.
  intros P.
  destruct (prefix (includeTag path) (String c (pre ++ includeTag path ++ post)))
    eqn:Q; [|reflexivity].
  rewrite (includeTag_open path) in Q at 1.
  apply prefix_app_l in Q.
  rewrite includeTag_app in Q.
  unfold includeOpen in P, Q. rewrite SearchFacts.prefix_cons in P, Q.
  destruct (ascii_dec "<" c); [|discriminate Q].
  rewrite SearchFacts.prefix_tail_marker in Q by reflexivity. congruence.
Qed.

Lemma find_directive (pre path post : string) :
  JS.find includeOpen pre = None ->
  JS.find (includeTag path) (pre ++ includeTag path ++ post)
  = Some (String.length pre).
Proof.
  intros N. induction pre as [|c pre IH].
  - apply SearchFacts.find_here.
    apply (JSFacts.prefix_app (includeTag path) post).
  - rewrite JSFacts.find_cons in N.
    destruct (prefix includeOpen (String c pre)) eqn:P; [discriminate|].
    destruct (JS.find includeOpen pre) eqn:F; [discriminate|].
    rewrite append_cons, JSFacts.find_cons, (IH eq_refl).
    now rewrite (prefix_directive _ _ _ _ P).
Qed.

Lemma replace_directive (pre path post template : string) :
  JS.find includeOpen pre = None ->
  JS.replace (pre ++ includeTag path ++ post) (includeTag path) template
  = pre ++ JS.getSubstitution (includeTag path) pre post template ++ post.
Proof.
  intros N. unfold JS.replace. rewrite (find_directive _ _ _ N).
  cbv zeta. rewrite JSFacts.stake_app_length.
  rewrite <- JSFacts.sdrop_sdrop, JSFacts.sdrop_app_length,
          JSFacts.sdrop_app_length.
  reflexivity.
Qed.

Lemma lacks_app (c : ascii) (a b : string) :
  lacks c (a ++ b) = lacks c a && lacks c b.
Proof.
  induction a as [|d a IH]; [reflexivity|].
  simpl. rewrite IH. now rewrite andb_assoc.
Qed.

Section OneDirective.

Variable cwd : string.
Variable readFile : string -> option string.

Lemma processIncludes_single
      (recur : PreprocessOptions -> State -> Outcome * State)
      (options : IncludeOptions) (st : State) (pre path post : string) :
  JS.find includeOpen pre = None -> JS.find includeOpen post = None ->
  allOf notQuote path = true -> (1 <= String.length path)%nat ->
  processIncludes cwd readFile recur (pre ++ includeTag path ++ post)
                  options st
  = includeLoop cwd readFile recur options
      [mkIncludeMatch (includeTag path) path None]
      (pre ++ includeTag path ++ post) st.
Proof.
  intros Npre Npost Hall Hlen. unfold processIncludes.
  now rewrite findIncludes_single.
Qed.

End OneDirective.

(** X8.  A text with one self-closing include directive: the file named by the
    directive is the only one read; when it cannot be read the directive
    gives way to the marker, when it can to what [recur] makes of its
    content, and in both cases the text put in place of the directive is
    the replacement template expanded, the text before and after the
    directive being kept as it is; a failure of [recur] is the failure of
    the whole. *)
Theorem single_directive_is_resolved_in_place
        (cwd : string) (readFile : string -> option string)
        (recur : PreprocessOptions -> State -> Outcome * State)
        (options : IncludeOptions) (st : State) (pre path post : string) :
  JS.find includeOpen pre = None -> JS.find includeOpen post = None ->
  allOf notQuote path = true -> (1 <= String.length path)%nat ->
  processIncludes cwd readFile recur (pre ++ includeTag path ++ post)
                  options st
  = let target := resolvePath cwd path (io_rootPath options)
                              (io_currentFilePath options) in
    let st1 := mkState (visitedFiles st) (fileReads st ++ [target])%list in
    match readFile target with
    | None =>
        (Fulfilled (pre ++ JS.getSubstitution (includeTag path) pre post
                                              (missingFileMarker path)
                        ++ post), st1)
    | Some included =>
        match recur (mkOptions included (io_toolName options)
                               (io_strategyName options) (io_pipelines options)
                               (io_rootPath options) target) st1 with
        | (Fulfilled processed, st2) =>
            (Fulfilled (pre ++ JS.getSubstitution (includeTag path) pre post
                                                  processed ++ post), st2)
        | failure => failure
        end
    end.
Proof.
  intros Npre Npost Hall Hlen.
  rewrite processIncludes_single by assumption.
  cbn [includeLoop filePath fullMatch pipelinesStr]. cbv zeta.
  destruct (readFile _) as [included|].
  - destruct (recur _ _) as [[processed| |] st2]; try reflexivity.
    now rewrite replace_directive.
  - now rewrite replace_directive.
Qed.

(** X9.  A document whose only directive names a file that cannot be read, the
    path holding no [$]: the directive gives way to the marker with the
    path as written, the call is fulfilled, the one read is recorded and
    the visitation set is as it was. *)
Theorem missing_include_leaves_marker
        (cwd : string) (readFile : string -> option string) (fuel : nat)
        (options : PreprocessOptions) (st : State) (pre path post : string) :
  content options = pre ++ includeTag path ++ post ->
  JS.find TAG_OPEN_START (content options) = None ->
  JS.find includeOpen pre = None -> JS.find includeOpen post = None ->
  allOf notQuote path = true -> (1 <= String.length path)%nat ->
  lacks "$" path = true ->
  setHas (visitedFiles st) (Path.resolve cwd [currentFilePath options]) = false ->
  readFile (resolvePath cwd path (rootPath options)
                        (Path.resolve cwd [currentFilePath options])) = None ->
  process cwd readFile (S fuel) options st
  = (Fulfilled (pre ++ missingFileMarker path ++ post),
     mkState (visitedFiles st)
             (fileReads st
              ++ [resolvePath cwd path (rootPath options)
                    (Path.resolve cwd [currentFilePath options])])%list).
Proof.
  intros E Nfilter Npre Npost Hall Hlen Hd V R.
  cbn [process]. cbv zeta. rewrite V.
  rewrite VisibilityFacts.processVisibility_unfold,
          (FilterFacts.no_opening_tag _ Nfilter), E.
  rewrite processIncludes_single by assumption.
  cbn [includeLoop filePath fullMatch pipelinesStr io_rootPath
       io_currentFilePath visitedFiles fileReads]. cbv zeta.
  rewrite R. cbn [includeLoop visitedFiles fileReads].
  rewrite replace_directive by assumption.
  rewrite ProcessClaims.getSubstitution_plain.
  - rewrite VisitationFacts.setDelete_setAdd by assumption. reflexivity.
  - unfold missingFileMarker. rewrite !lacks_app, Hd. reflexivity.
Qed.

(** X16.  A document whose filtered text holds no include opener is only
    filtered: the call is fulfilled with the filtered content, no file is
    read and the state is the state before the call.  With no filter
    marker either, the content comes back as it is. *)
Theorem document_without_includes_is_only_filtered
        (cwd : string) (readFile : string -> option string) (fuel : nat)
        (options : PreprocessOptions) (st : State) :
  JS.find includeOpen
          (processVisibility (content options) (toolName options)) = None ->
  setHas (visitedFiles st) (Path.resolve cwd [currentFilePath options])
  = false ->
  process cwd readFile (S fuel) options st
  = (Fulfilled (processVisibility (content options) (toolName options)), st)
  /\ (JS.find TAG_OPEN_START (content options) = None ->
      process cwd readFile (S fuel) options st
      = (Fulfilled (content options), st)).
Proof.
  intros Ninclude V.
  assert (process cwd readFile (S fuel) options st
          = (Fulfilled (processVisibility (content options)
                                          (toolName options)), st)) as E.
  { cbn [process]. cbv zeta. rewrite V.
    unfold processIncludes, findIncludes.
    rewrite (execAll_none _ Ninclude).
    cbn [map includeLoop visitedFiles fileReads].
    rewrite VisitationFacts.setDelete_setAdd by assumption.
    now destruct st. }
  split; [exact E|].
  intros Nfilter. rewrite E.
  rewrite VisibilityFacts.processVisibility_unfold,
          (FilterFacts.no_opening_tag _ Nfilter).
  reflexivity.
Qed.

End IncludeFacts.

(* ================================================================== *)
(** ** An include directive with pipelines *)

Module PipelineIncludeFacts.

Import Preprocessor Reading Fixtures Regex IncludeFacts.

Lemma includeTagWith_shape (path ps post : string) :
  includeTagWith path ps ++ post
  = includeOpen ++ " path="
    ++ String dquote
         (path ++ String dquote
            (" pipelines="
             ++ String dquote (ps ++ String dquote (" />" ++ post)))).
Proof.
  unfold includeTagWith, quoted, includeOpen.
  rewrite !ParseClaims.append_assoc. reflexivity.
Qed.

Lemma matchHere_includeTagWith (path ps post : string) :
  allOf notQuote path = true -> (1 <= String.length path)%nat ->
  allOf notQuote ps = true -> (1 <= String.length ps)%nat ->
  matchHere includeRegex (includeTagWith path ps ++ post)
  = Some (includeTagWith path ps, [(2%nat, ps); (1%nat, path)]).
Proof.
  intros Hall Hlen Hall2 Hlen2.
  assert (consumed (includeOpen ++ " path="
            ++ String dquote
                 (path ++ String dquote
                    (" pipelines="
                     ++ String dquote (ps ++ String dquote (" />" ++ post)))))
            post = includeTagWith path ps) as CT
    by (rewrite <- includeTagWith_shape; apply RegexFacts.consumed_app).
  rewrite includeTagWith_shape.
  unfold matchHere, includeRegex. cbn [sequence].
  cbn [run].
  rewrite (JSFacts.prefix_app includeOpen).
  rewrite JSFacts.sdrop_app_length.
  set (whole := includeOpen ++ _) in *.
  cbn [append many JS.is_space]. simpl.
  erewrite many_greedy; [reflexivity | assumption | reflexivity | assumption |].
  simpl.
  erewrite many_greedy; [reflexivity | assumption | reflexivity | assumption |].
  simpl. rewrite CT.
  rewrite (RegexFacts.consumed_app path), (RegexFacts.consumed_app ps).
  assert (prefix EmptyString post = true) as -> by (destruct post; reflexivity).
  reflexivity.
Qed.

Lemma includeOpen_cons : includeOpen = String "<" includeOpenTail.
Proof. reflexivity. Qed.

Lemma directive_app (r post : string) :
  (includeOpen ++ r) ++ post = String "<" (includeOpenTail ++ r ++ post).
Proof.
  rewrite ParseClaims.append_assoc. reflexivity.
Qed.

Lemma prefix_any_directive (c : ascii) (pre r post : string) :
  prefix includeOpen (String c pre) = false ->
  prefix (includeOpen ++ r) (String c (pre ++ (includeOpen ++ r) ++ post))
  = false.
Proof.
  intros P.
  destruct (prefix (includeOpen ++ r)
                   (String c (pre ++ (includeOpen ++ r) ++ post)))
    eqn:Q; [|reflexivity].
  apply prefix_app_l in Q. rewrite directive_app in Q.
  rewrite includeOpen_cons in P, Q.
  rewrite SearchFacts.prefix_cons in P, Q.
  destruct (ascii_dec "<" c); [|discriminate Q].
  rewrite SearchFacts.prefix_tail_marker in Q by reflexivity. congruence.
Qed.

Lemma find_any_directive (pre r post : string) :
  JS.find includeOpen pre = None ->
  JS.find (includeOpen ++ r) (pre ++ (includeOpen ++ r) ++ post)
  = Some (String.length pre).
Proof.
  intros N. induction pre as [|c pre IH].
  - apply SearchFacts.find_here.
    apply (JSFacts.prefix_app (includeOpen ++ r) post).
  - rewrite JSFacts.find_cons in N.
    destruct (prefix includeOpen (String c pre)) eqn:P; [discriminate|].
    destruct (JS.find includeOpen pre) eqn:F; [discriminate|].
    rewrite append_cons, JSFacts.find_cons, (IH eq_refl).
    now rewrite (prefix_any_directive _ _ _ _ P).
Qed.

Lemma replace_any_directive (pre r post template : string) :
  JS.find includeOpen pre = None ->
  JS.replace (pre ++ (includeOpen ++ r) ++ post) (includeOpen ++ r) template
  = pre ++ JS.getSubstitution (includeOpen ++ r) pre post template ++ post.
Proof.
  intros N. unfold JS.replace. rewrite (find_any_directive _ _ _ N).
  cbv zeta. rewrite JSFacts.stake_app_length.
  rewrite <- JSFacts.sdrop_sdrop, JSFacts.sdrop_app_length,
          JSFacts.sdrop_app_length.
  reflexivity.
Qed.

Lemma findIncludes_one (pre r post : string) (caps : captures) :
  JS.find includeOpen pre = None -> JS.find includeOpen post = None ->
  matchHere includeRegex ((includeOpen ++ r) ++ post)
  = Some (includeOpen ++ r, caps) ->
  findIncludes (pre ++ (includeOpen ++ r) ++ post)
  = [toIncludeMatch (includeOpen ++ r, caps)].
Proof.
  intros Npre Npost M. unfold findIncludes.
  rewrite directive_app in *.
  rewrite (execAll_pre _ _ Npre), execAll_here, M.
  rewrite includeOpen_cons at 2.
  rewrite append_cons, <- (ParseClaims.append_assoc includeOpenTail r post).
  rewrite execAll_skip_cons, (execAll_none _ Npost).
  reflexivity.
Qed.

Section WithPipelines.

Variable cwd : string.
Variable readFile : string -> option string.

Lemma includeTagWith_open (path ps : string) :
  includeTagWith path ps
  = includeOpen ++ " path=" ++ quoted path ++ " pipelines=" ++ quoted ps
    ++ " />".
Proof. reflexivity. Qed.

Lemma processIncludes_with_pipelines
      (recur : PreprocessOptions -> State -> Outcome * State)
      (options : IncludeOptions) (st : State) (pre path ps post : string) :
  JS.find includeOpen pre = None -> JS.find includeOpen post = None ->
  allOf notQuote path = true -> (1 <= String.length path)%nat ->
  allOf notQuote ps = true -> (1 <= String.length ps)%nat ->
  processIncludes cwd readFile recur (pre ++ includeTagWith path ps ++ post)
                  options st
  = includeLoop cwd readFile recur options
      [mkIncludeMatch (includeTagWith path ps) path (Some ps)]
      (pre ++ includeTagWith path ps ++ post) st.
Proof.
  intros Npre Npost Hall Hlen Hall2 Hlen2. unfold processIncludes.
  pose proof (matchHere_includeTagWith path ps post Hall Hlen Hall2 Hlen2)
    as M.
  rewrite includeTagWith_open in *.
  now rewrite (findIncludes_one _ _ _ _ Npre Npost M).
Qed.

End WithPipelines.

(** X18.  An include directive with pipelines: the pipelines are run on what
    [recur] makes of the content of the file, when the options carry a
    registry, and what they give takes the place of the directive; they
    are not run on the marker of a file that cannot be read, and not at
    all without a registry. *)
Theorem pipelines_run_on_the_included_content
        (cwd : string) (readFile : string -> option string)
        (recur : PreprocessOptions -> State -> Outcome * State)
        (options : IncludeOptions) (st : State)
        (pre path ps post : string) :
  JS.find includeOpen pre = None -> JS.find includeOpen post = None ->
  allOf notQuote path = true -> (1 <= String.length path)%nat ->
  allOf notQuote ps = true -> (1 <= String.length ps)%nat ->
  processIncludes cwd readFile recur (pre ++ includeTagWith path ps ++ post)
                  options st
  = let target := resolvePath cwd path (io_rootPath options)
                              (io_currentFilePath options) in
    let st1 := mkState (visitedFiles st) (fileReads st ++ [target])%list in
    let put := fun replacement st' =>
      (Fulfilled (pre ++ JS.getSubstitution (includeTagWith path ps) pre post
                                            replacement ++ post), st') in
    match readFile target with
    | None => put (missingFileMarker path) st1
    | Some included =>
        match recur (mkOptions included (io_toolName options)
                               (io_strategyName options) (io_pipelines options)
                               (io_rootPath options) target) st1 with
        | (Fulfilled processed, st2) =>
            match io_pipelines options with
            | Some registry =>
                put (executePipelines processed ps registry
                                      (io_toolName options)
                                      (io_strategyName options)) st2
            | None => put processed st2
            end
        | failure => failure
        end
    end.
Proof.
  intros Npre Npost Hall Hlen Hall2 Hlen2.
  rewrite processIncludes_with_pipelines by assumption.
  cbn [includeLoop filePath fullMatch pipelinesStr]. cbv zeta.
  assert (String.eqb ps EmptyString = false) as Ne
    by (destruct ps; [simpl in Hlen2; lia | reflexivity]).
  rewrite Ne.
  destruct (readFile _) as [included|].
  - destruct (recur _ _) as [[processed| |] st2]; try reflexivity.
    rewrite includeTagWith_open.
    destruct (io_pipelines options);
      now rewrite replace_any_directive.
  - rewrite includeTagWith_open. now rewrite replace_any_directive.
Qed.

End PipelineIncludeFacts.

(* ================================================================== *)
(** ** Nested filter regions *)

Module NestedRegions.

Import Preprocessor Reading.

Lemma findClosing_enough (fuel1 : nat) :
  forall (fuel2 : nat) (text : string) (depth cursor : Z),
    0 <= cursor ->
    JS.len text - cursor < Z.of_nat fuel1 ->
    JS.len text - cursor < Z.of_nat fuel2 ->
    findClosing fuel1 text depth cursor = findClosing fuel2 text depth cursor.
Proof.
  induction fuel1 as [|fuel1 IH]; intros fuel2 text depth cursor Hc H1 H2;
    rewrite (VisibilityFacts.findClosing_eq fuel2),
            VisibilityFacts.findClosing_eq;
    destruct (cursor <? JS.len text) eqn:Hlt; try reflexivity.
  - apply Z.ltb_lt in Hlt. lia.
  - apply Z.ltb_lt in Hlt. destruct fuel2 as [|fuel2]; [lia|]. cbv zeta.
    destruct (JS.indexOf text TAG_CLOSE cursor =? -1) eqn:Hcl; [reflexivity|].
    apply Z.eqb_neq in Hcl.
    destruct (JSFacts.indexOf_found _ _ _ _ eq_refl Hcl) as (Hge & _ & _).
    rewrite JSFacts.clamp_id in Hge by lia.
    destruct (negb (JS.indexOf text TAG_OPEN_START cursor =? -1)
              && (JS.indexOf text TAG_OPEN_START cursor
                  <? JS.indexOf text TAG_CLOSE cursor)) eqn:Hop.
    + apply andb_true_iff in Hop; destruct Hop as [Hop _].
      apply negb_true_iff, Z.eqb_neq in Hop.
      destruct (JSFacts.indexOf_found _ _ _ _ eq_refl Hop) as (Hge' & _ & _).
      rewrite JSFacts.clamp_id in Hge' by lia.
      rewrite VisibilityFacts.len_open. apply IH; lia.
    + destruct (depth - 1 =? 0); [reflexivity|].
      rewrite VisibilityFacts.len_close. apply IH; lia.
Qed.

Lemma closing_findClosing (fuel : nat) (text : string) (depth cursor : Z) :
  0 <= cursor -> JS.len text - cursor < Z.of_nat fuel ->
  findClosing fuel text depth cursor = closing text depth cursor.
Proof.
  intros Hc Hf. unfold closing. apply findClosing_enough; auto. lia.
Qed.

(** One turn of the loop where a nested opening marker comes first. *)
Lemma closing_open (P S : string) (depth : Z) (ko kc : nat) :
  JS.find TAG_OPEN_START S = Some ko -> JS.find TAG_CLOSE S = Some kc ->
  (ko < kc)%nat ->
  closing (P ++ S) depth (JS.len P)
  = closing (P ++ S) (depth + 1) (JS.len P + Z.of_nat ko + 23).
Proof.
  intros Fo Fc Hlt.
  pose proof (JSFacts.len_nonneg P) as HP.
  destruct (JSFacts.find_some _ _ _ Fc) as [_ Lc].
  change (String.length TAG_CLOSE) with 25%nat in Lc.
  assert (JS.len (P ++ S) = JS.len P + JS.len S) as L
    by (unfold JS.len; rewrite ParseClaims.length_append; lia).
  unfold closing at 1. rewrite VisibilityFacts.findClosing_eq.
  replace (JS.len P <? JS.len (P ++ S)) with true
    by (symmetry; apply Z.ltb_lt; unfold JS.len in *; lia).
  cbv zeta. rewrite !SearchFacts.indexOf_app, Fo, Fc.
  replace (JS.len P + Z.of_nat kc =? -1) with false
    by (symmetry; apply Z.eqb_neq; lia).
  replace (JS.len P + Z.of_nat ko =? -1) with false
    by (symmetry; apply Z.eqb_neq; lia).
  replace (JS.len P + Z.of_nat ko <? JS.len P + Z.of_nat kc) with true
    by (symmetry; apply Z.ltb_lt; lia).
  cbn [negb andb]. rewrite VisibilityFacts.len_open.
  apply closing_findClosing; unfold JS.len in *; lia.
Qed.

(** One turn of the loop where a closing tag comes first. *)
Lemma closing_close (P S : string) (depth : Z) (kc : nat) :
  JS.find TAG_CLOSE S = Some kc ->
  (forall ko, JS.find TAG_OPEN_START S = Some ko -> (kc < ko)%nat) ->
  closing (P ++ S) depth (JS.len P)
  = if depth - 1 =? 0 then Some (JS.len P + Z.of_nat kc)
    else closing (P ++ S) (depth - 1) (JS.len P + Z.of_nat kc + 25).
Proof.
  intros Fc Ho.
  pose proof (JSFacts.len_nonneg P) as HP.
  destruct (JSFacts.find_some _ _ _ Fc) as [_ Lc].
  change (String.length TAG_CLOSE) with 25%nat in Lc.
  assert (JS.len (P ++ S) = JS.len P + JS.len S) as L
    by (unfold JS.len; rewrite ParseClaims.length_append; lia).
  unfold closing at 1. rewrite VisibilityFacts.findClosing_eq.
  replace (JS.len P <? JS.len (P ++ S)) with true
    by (symmetry; apply Z.ltb_lt; unfold JS.len in *; lia).
  cbv zeta. rewrite !SearchFacts.indexOf_app, Fc.
  replace (JS.len P + Z.of_nat kc =? -1) with false
    by (symmetry; apply Z.eqb_neq; lia).
  assert (negb (match JS.find TAG_OPEN_START S with
                | Some k => JS.len P + Z.of_nat k
                | None => -1
                end =? -1)
          && (match JS.find TAG_OPEN_START S with
              | Some k => JS.len P + Z.of_nat k
              | None => -1
              end <? JS.len P + Z.of_nat kc) = false) as ->.
  { destruct (JS.find TAG_OPEN_START S) as [ko|]; [|reflexivity].
    specialize (Ho ko eq_refl). apply andb_false_iff. right.
    apply Z.ltb_ge. lia. }
  destruct (depth - 1 =? 0); [reflexivity|].
  rewrite VisibilityFacts.len_close.
  apply closing_findClosing; unfold JS.len in *; lia.
Qed.

Ltac lens :=
  unfold JS.len in *; rewrite ?ParseClaims.length_append;
  change (String.length TAG_OPEN_START) with 23%nat;
  change (String.length TAG_CLOSE) with 25%nat;
  change (String.length ">") with 1%nat;
  change (String.length EmptyString) with 0%nat;
  rewrite ?ParseClaims.length_append; lia.

Lemma noMarker_parts (s : string) :
  noMarker s = true ->
  JS.find TAG_OPEN_START s = None /\ JS.find TAG_CLOSE s = None.
Proof.
  unfold noMarker.
  destruct (JS.find TAG_OPEN_START s); [discriminate|].
  destruct (JS.find TAG_CLOSE s); [discriminate|]. auto.
Qed.

(** A pattern that occurs is found. *)
Lemma find_occurs (pat a b : string) :
  exists k, JS.find pat (a ++ pat ++ b) = Some k.
Proof.
  destruct (JS.find pat (a ++ pat ++ b)) as [k|] eqn:F; [eauto|].
  pose proof (JSFacts.find_none _ _ (String.length a) F) as N.
  rewrite JSFacts.sdrop_app_length, JSFacts.prefix_app in N. discriminate.
Qed.

(** Where the closing tag and the next opening marker are, seen from the
    start of a gap with no [<], a text with no marker and a closing
    tag. *)
Lemma finds_at_close (G s R : string) :
  lacks "<" G = true -> noMarker s = true ->
  JS.find TAG_CLOSE (G ++ s ++ TAG_CLOSE ++ R)
  = Some (String.length G + String.length s)%nat
  /\ forall ko,
       JS.find TAG_OPEN_START (G ++ s ++ TAG_CLOSE ++ R) = Some ko ->
       (String.length G + String.length s < ko)%nat.
Proof.
  intros LG M. apply noMarker_parts in M. destruct M as [Mo Mc].
  split.
  - rewrite FlatRegion.close_shape at 1.
    rewrite SearchFacts.find_app_lacks by assumption.
    rewrite <- FlatRegion.close_shape.
    change (TAG_CLOSE ++ R) with (String "<" (closeTail ++ R)).
    rewrite FlatRegion.close_shape at 1.
    rewrite SearchFacts.find_none_marker
      by (try reflexivity; rewrite <- FlatRegion.close_shape; exact Mc).
    rewrite <- FlatRegion.close_shape.
    change (String "<" (closeTail ++ R)) with (TAG_CLOSE ++ R).
    rewrite (SearchFacts.find_here _ _ (JSFacts.prefix_app TAG_CLOSE R)).
    cbn [option_map]. f_equal. lia.
  - intros ko. rewrite FlatRegion.open_shape at 1.
    rewrite SearchFacts.find_app_lacks by assumption.
    rewrite <- FlatRegion.open_shape.
    change (TAG_CLOSE ++ R) with (String "<" (closeTail ++ R)).
    rewrite FlatRegion.open_shape at 1.
    rewrite SearchFacts.find_none_marker
      by (try reflexivity; rewrite <- FlatRegion.open_shape; exact Mo).
    rewrite <- FlatRegion.open_shape.
    change (String "<" (closeTail ++ R)) with (TAG_CLOSE ++ R).
    rewrite FlatRegion.find_open_after_close.
    destruct (JS.find TAG_OPEN_START R) as [k|]; cbn [option_map];
      [|discriminate].
    intros [= <-]. lia.
Qed.

(** The same from the start of a gap, a text with no marker and an
    opening marker. *)
Lemma finds_at_open (G pre X : string) (j : nat) :
  lacks "<" G = true -> noMarker pre = true ->
  JS.find TAG_CLOSE X = Some j ->
  JS.find TAG_OPEN_START (G ++ pre ++ TAG_OPEN_START ++ X)
  = Some (String.length G + String.length pre)%nat
  /\ JS.find TAG_CLOSE (G ++ pre ++ TAG_OPEN_START ++ X)
     = Some (String.length G + String.length pre + 23 + j)%nat.
Proof.
  intros LG M Fj. apply noMarker_parts in M. destruct M as [Mo Mc].
  split.
  - rewrite FlatRegion.open_shape at 1.
    rewrite SearchFacts.find_app_lacks by assumption.
    rewrite <- FlatRegion.open_shape.
    change (TAG_OPEN_START ++ X) with (String "<" (openTail ++ X)).
    rewrite FlatRegion.open_shape at 1.
    rewrite SearchFacts.find_none_marker
      by (try reflexivity; rewrite <- FlatRegion.open_shape; exact Mo).
    rewrite <- FlatRegion.open_shape.
    change (String "<" (openTail ++ X)) with (TAG_OPEN_START ++ X).
    rewrite (SearchFacts.find_here _ _ (JSFacts.prefix_app TAG_OPEN_START X)).
    cbn [option_map]. f_equal. lia.
  - rewrite FlatRegion.close_shape at 1.
    rewrite SearchFacts.find_app_lacks by assumption.
    rewrite <- FlatRegion.close_shape.
    change (TAG_OPEN_START ++ X) with (String "<" (openTail ++ X)).
    rewrite FlatRegion.close_shape at 1.
    rewrite SearchFacts.find_none_marker
      by (try reflexivity; rewrite <- FlatRegion.close_shape; exact Mc).
    rewrite <- FlatRegion.close_shape.
    change (String "<" (openTail ++ X)) with (TAG_OPEN_START ++ X).
    rewrite FlatRegion.find_close_after_open, Fj.
    cbn [option_map]. f_equal. lia.
Qed.

Lemma wellFormed_parts (pre attrs : string) (body rest : Doc) :
  wellFormed (Filtered pre attrs body rest) = true ->
  noMarker pre = true /\ lacks ">" attrs = true /\ lacks "<" attrs = true
  /\ wellFormed body = true /\ wellFormed rest = true.
Proof.
  cbn [wellFormed]. rewrite !andb_true_iff. tauto.
Qed.

(** The loop, started at depth one or more before a well-formed document
    that a closing tag follows, is after that tag one level up; at depth
    one that tag is its answer. *)
Lemma closing_body (d : Doc) :
  wellFormed d = true ->
  forall (P G R : string) (depth : Z),
    lacks "<" G = true -> 1 <= depth ->
    closing (P ++ G ++ docText d ++ TAG_CLOSE ++ R) depth (JS.len P)
    = if depth - 1 =? 0
      then Some (JS.len P + JS.len G + JS.len (docText d))
      else closing (P ++ G ++ docText d ++ TAG_CLOSE ++ R) (depth - 1)
                   (JS.len P + JS.len G + JS.len (docText d) + 25).
Proof.
  induction d as [s|pre attrs body IHbody rest IHrest];
    intros W P G R depth LG Hd.
  - cbn [wellFormed docText] in *.
    destruct (finds_at_close G s R LG W) as [Fc Fo].
    rewrite (closing_close P _ depth _ Fc Fo).
    replace (JS.len P + Z.of_nat (String.length G + String.length s))
      with (JS.len P + JS.len G + JS.len s) by lens.
    reflexivity.
  - apply wellFormed_parts in W. destruct W as (Mp & Lgt & Llt & Wb & Wr).
    cbn [docText].
    set (inner := docText body) in *. set (post := docText rest) in *.
    set (T := P ++ G ++ (pre ++ TAG_OPEN_START ++ attrs ++ ">" ++ inner
                         ++ TAG_CLOSE ++ post) ++ TAG_CLOSE ++ R).
    set (X := attrs ++ ">" ++ inner ++ TAG_CLOSE ++ post ++ TAG_CLOSE ++ R).
    assert (T = P ++ G ++ pre ++ TAG_OPEN_START ++ X) as E0
      by (unfold T, X; now rewrite !ParseClaims.append_assoc).
    assert (T = (P ++ G ++ pre ++ TAG_OPEN_START) ++ (attrs ++ ">") ++ inner
                ++ TAG_CLOSE ++ post ++ TAG_CLOSE ++ R) as E1
      by (unfold T; now rewrite !ParseClaims.append_assoc).
    assert (T = ((P ++ G ++ pre ++ TAG_OPEN_START) ++ (attrs ++ ">") ++ inner
                 ++ TAG_CLOSE) ++ EmptyString ++ post ++ TAG_CLOSE ++ R) as E2
      by (unfold T;
          change (EmptyString ++ post ++ TAG_CLOSE ++ R)
            with (post ++ TAG_CLOSE ++ R);
          now rewrite !ParseClaims.append_assoc).
    destruct (find_occurs TAG_CLOSE (attrs ++ ">" ++ inner)
                          (post ++ TAG_CLOSE ++ R)) as [j Fj].
    rewrite !ParseClaims.append_assoc in Fj. fold X in Fj.
    destruct (finds_at_open G pre X j LG Mp Fj) as [Fo Fc].
    (* the opening marker of the region *)
    rewrite E0 at 1.
    rewrite (closing_open P _ depth _ _ Fo Fc) by lia.
    rewrite <- E0.
    (* its body *)
    replace (JS.len P + Z.of_nat (String.length G + String.length pre) + 23)
      with (JS.len (P ++ G ++ pre ++ TAG_OPEN_START)) by lens.
    rewrite E1 at 1.
    assert (lacks "<" (attrs ++ ">") = true) as LG'
      by (rewrite IncludeFacts.lacks_app, Llt; reflexivity).
    assert (1 <= depth + 1) as Hd' by lia.
    rewrite (IHbody Wb (P ++ G ++ pre ++ TAG_OPEN_START) (attrs ++ ">")
               (post ++ TAG_CLOSE ++ R) (depth + 1) LG' Hd').
    rewrite <- E1.
    replace (depth + 1 - 1 =? 0) with false
      by (symmetry; apply Z.eqb_neq; lia).
    replace (depth + 1 - 1) with depth by lia.
    (* what follows its closing tag *)
    replace (JS.len (P ++ G ++ pre ++ TAG_OPEN_START) + JS.len (attrs ++ ">")
             + JS.len inner + 25)
      with (JS.len ((P ++ G ++ pre ++ TAG_OPEN_START) ++ (attrs ++ ">")
                    ++ inner ++ TAG_CLOSE)) by lens.
    rewrite E2 at 1.
    rewrite (IHrest Wr _ EmptyString R depth eq_refl Hd).
    rewrite <- E2.
    replace (JS.len ((P ++ G ++ pre ++ TAG_OPEN_START) ++ (attrs ++ ">")
                     ++ inner ++ TAG_CLOSE)
             + JS.len EmptyString + JS.len post)
      with (JS.len P + JS.len G
            + JS.len (pre ++ TAG_OPEN_START ++ attrs ++ ">" ++ inner
                      ++ TAG_CLOSE ++ post)) by lens.
    reflexivity.
Qed.

(** The region the scan delimits in a well-formed document that starts
    with a region: the closing tag is the one of that region, whatever is
    nested in its body. *)
Lemma firstRegion_doc (pre attrs : string) (body rest : Doc) :
  wellFormed (Filtered pre attrs body rest) = true ->
  firstRegion (regionText pre attrs (docText body) (docText rest))
  = Some (mkRegion (JS.len pre)
                   (JS.len pre + 23 + JS.len attrs)
                   (JS.len pre + 23
                    + Z.of_nat (closeOffset attrs (docText body)))).
Proof.
  intros W. apply wellFormed_parts in W.
  destruct W as (Mp & Lgt & Llt & Wb & Wr).
  set (T := regionText pre attrs (docText body) (docText rest)).
  set (X := attrs ++ ">" ++ (docText body) ++ TAG_CLOSE ++ (docText rest)).
  assert (T = EmptyString ++ pre ++ TAG_OPEN_START ++ X) as E0
    by reflexivity.
  assert (T = pre ++ TAG_OPEN_START ++ X) as E0' by reflexivity.
  assert (T = (pre ++ TAG_OPEN_START) ++ (attrs ++ ">") ++ (docText body)
              ++ TAG_CLOSE ++ (docText rest)) as E1
    by (unfold T, regionText, afterOpen;
        now rewrite !ParseClaims.append_assoc).
  pose proof (JSFacts.len_nonneg pre) as Hp.
  destruct (find_occurs TAG_CLOSE (attrs ++ ">" ++ (docText body)) (docText rest)) as [j Fj].
  rewrite !ParseClaims.append_assoc in Fj. fold X in Fj.
  destruct (finds_at_open EmptyString pre X j eq_refl Mp Fj) as [Fo Fc].
  cbn [append String.length Nat.add] in Fo, Fc.
  assert (JS.indexOf T TAG_OPEN_START 0 = JS.len pre) as Istart
    by (rewrite SearchFacts.indexOf_zero, E0', Fo; reflexivity).
  unfold firstRegion. fold T. rewrite Istart.
  replace (JS.len pre =? -1) with false by (symmetry; apply Z.eqb_neq; lia).
  rewrite closing_findClosing by (unfold JS.len; lia).
  (* the opening marker *)
  assert (JS.find TAG_OPEN_START (TAG_OPEN_START ++ X) = Some 0%nat) as Fo'
    by (apply SearchFacts.find_here, JSFacts.prefix_app).
  assert (JS.find TAG_CLOSE (TAG_OPEN_START ++ X) = Some (23 + j)%nat) as Fc'
    by (rewrite FlatRegion.find_close_after_open, Fj; reflexivity).
  rewrite E0' at 1.
  rewrite (closing_open pre _ 0 _ _ Fo' Fc') by lia.
  rewrite <- E0'.
  (* the body *)
  replace (JS.len pre + Z.of_nat 0 + 23) with (JS.len (pre ++ TAG_OPEN_START))
    by lens.
  assert (lacks "<" (attrs ++ ">") = true) as LG
    by (rewrite IncludeFacts.lacks_app, Llt; reflexivity).
  rewrite E1 at 1.
  rewrite (closing_body body Wb (pre ++ TAG_OPEN_START) (attrs ++ ">") (docText rest)
             (0 + 1) LG) by lia.
  rewrite <- E1. change (0 + 1 - 1 =? 0) with true. cbv iota.
  replace (JS.len (pre ++ TAG_OPEN_START) + JS.len (attrs ++ ">")
           + JS.len (docText body))
    with (JS.len pre + 23 + Z.of_nat (closeOffset attrs (docText body)))
    by (unfold closeOffset; lens).
  replace (JS.len pre + 23 + Z.of_nat (closeOffset attrs (docText body)) =? -1)
    with false by (symmetry; apply Z.eqb_neq; lia).
  (* the end of the opening tag *)
  f_equal. f_equal.
  replace T with (pre ++ (TAG_OPEN_START ++ attrs) ++ ">" ++ (docText body)
                  ++ TAG_CLOSE ++ (docText rest))
    by (unfold T, regionText, afterOpen;
        now rewrite !ParseClaims.append_assoc).
  rewrite SearchFacts.indexOf_app.
  rewrite (SearchFacts.find_app_lacks ">" EmptyString
             (TAG_OPEN_START ++ attrs))
    by (rewrite IncludeFacts.lacks_app, Lgt; reflexivity).
  rewrite (SearchFacts.find_here ">" _ (JSFacts.prefix_app ">" _)).
  cbn [option_map]. lens.
Qed.

(** The equation of the filter on a text whose first region is known. *)
Lemma processVisibility_region (pre attrs inner post tool : string) :
  firstRegion (regionText pre attrs inner post)
  = Some (mkRegion (JS.len pre)
                   (JS.len pre + 23 + JS.len attrs)
                   (JS.len pre + 23 + Z.of_nat (closeOffset attrs inner))) ->
  processVisibility (regionText pre attrs inner post) tool
  = pre
    ++ (if shouldKeep (TAG_OPEN_START ++ attrs ++ ">") tool
        then processVisibility inner tool else EmptyString)
    ++ processVisibility post tool.
Proof.
  intros R.
  rewrite VisibilityFacts.processVisibility_unfold, R.
  unfold textBefore, openingTagStr, innerContentRaw, remainingText.
  cbn [startIndex openingTagEnd closingIndex].
  assert (JS.substring (regionText pre attrs inner post) 0 (JS.len pre) = pre)
    as -> by apply ParseClaims.substring_head.
  assert (JS.substring (regionText pre attrs inner post) (JS.len pre)
                       (JS.len pre + 23 + JS.len attrs + 1)
          = TAG_OPEN_START ++ attrs ++ ">") as ->.
  { replace (JS.len pre + 23 + JS.len attrs + 1)
      with (JS.len pre + JS.len (TAG_OPEN_START ++ attrs ++ ">")) by lens.
    replace (regionText pre attrs inner post)
      with (pre ++ (TAG_OPEN_START ++ attrs ++ ">")
            ++ inner ++ TAG_CLOSE ++ post)
      by (unfold regionText, afterOpen;
          now rewrite !ParseClaims.append_assoc).
    apply SearchFacts.substring_middle. }
  assert (JS.substring (regionText pre attrs inner post)
                       (JS.len pre + 23 + JS.len attrs + 1)
                       (JS.len pre + 23 + Z.of_nat (closeOffset attrs inner))
          = inner) as ->.
  { replace (regionText pre attrs inner post)
      with ((pre ++ TAG_OPEN_START ++ attrs ++ ">")
            ++ inner ++ TAG_CLOSE ++ post)
      by (unfold regionText, afterOpen;
          now rewrite !ParseClaims.append_assoc).
    replace (JS.len pre + 23 + JS.len attrs + 1)
      with (JS.len (pre ++ TAG_OPEN_START ++ attrs ++ ">")) by lens.
    replace (JS.len pre + 23 + Z.of_nat (closeOffset attrs inner))
      with (JS.len (pre ++ TAG_OPEN_START ++ attrs ++ ">") + JS.len inner)
      by (unfold closeOffset; lens).
    apply SearchFacts.substring_middle. }
  assert (JS.substring_from (regionText pre attrs inner post)
            (JS.len pre + 23 + Z.of_nat (closeOffset attrs inner)
             + JS.len TAG_CLOSE)
          = post) as ->.
  { replace (regionText pre attrs inner post)
      with ((pre ++ TAG_OPEN_START ++ attrs ++ ">" ++ inner ++ TAG_CLOSE)
            ++ post)
      by (unfold regionText, afterOpen;
          now rewrite !ParseClaims.append_assoc).
    replace (JS.len pre + 23 + Z.of_nat (closeOffset attrs inner)
             + JS.len TAG_CLOSE)
      with (JS.len (pre ++ TAG_OPEN_START ++ attrs ++ ">" ++ inner
                    ++ TAG_CLOSE))
      by (unfold closeOffset; lens).
    apply SearchFacts.substring_from_app. }
  reflexivity.
Qed.

(** X17.  On a well-formed document the filter is the filter of the tree: each
    region is matched with its own closing tag, however deep the regions
    nested in it; a region whose tag keeps the tool gives its filtered
    body, any other region nothing, whatever is nested in it. *)
Theorem filter_follows_the_nesting (d : Doc) (tool : string) :
  wellFormed d = true ->
  processVisibility (docText d) tool = visible tool d.
Proof.
  induction d as [s|pre attrs body IHbody rest IHrest]; intros W.
  - cbn [docText visible wellFormed] in *.
    apply noMarker_parts in W. destruct W as [Mo _].
    rewrite VisibilityFacts.processVisibility_unfold.
    now rewrite (FilterFacts.no_opening_tag s Mo).
  - pose proof (firstRegion_doc pre attrs body rest W) as R.
    apply wellFormed_parts in W. destruct W as (_ & _ & _ & Wb & Wr).
    cbn [docText visible].
    change (pre ++ TAG_OPEN_START ++ attrs ++ ">" ++ docText body
            ++ TAG_CLOSE ++ docText rest)
      with (regionText pre attrs (docText body) (docText rest)).
    rewrite (processVisibility_region _ _ _ _ tool R).
    now rewrite (IHbody Wb), (IHrest Wr).
Qed.

End NestedRegions.

(* ================================================================== *)
(** ** The bound on the nesting of calls *)

Module FuelFacts.

Import Preprocessor Reading Fixtures FileSystem.

Section WithFiles.

Variable cwd : string.
Variable readFile : string -> option string.




End WithFiles.


End FuelFacts.

(* ================================================================== *)
(** ** The grouping of the discovered files *)

Module GroupFacts.

Import EngineModel.

Lemma groupsHas_In (dirGroups : DirGroups) (dir : string) :
  groupsHas dirGroups dir = true <-> In dir (map fst dirGroups).
Proof.
  unfold groupsHas. rewrite existsb_exists, in_map_iff. split.
  - intros (entry & Hin & E). apply String.eqb_eq in E. eauto.
  - intros (entry & E & Hin). exists entry. split; auto.
    now apply String.eqb_eq.
Qed.

Lemma groupsPush_keys (dirGroups : DirGroups) (dir fp : string) :
  map fst (groupsPush dirGroups dir fp) = map fst dirGroups.
Proof.
  induction dirGroups as [|[d filePaths] rest IH]; [reflexivity|].
  simpl. destruct (String.eqb d dir); simpl; [reflexivity|]. now rewrite IH.
Qed.

(** With distinct keys, a push changes the one entry of the key, by
    putting the path at its end. *)
Lemma groupsPush_In (dirGroups : DirGroups) (dir fp k : string)
      (filePaths : list string) :
  NoDup (map fst dirGroups) ->
  In (k, filePaths) (groupsPush dirGroups dir fp) ->
  (k <> dir /\ In (k, filePaths) dirGroups)
  \/ (k = dir /\ exists old,
         In (dir, old) dirGroups /\ filePaths = (old ++ [fp])%list).
Proof.
  induction dirGroups as [|[d old] rest IH]; intros ND Hin; [elim Hin|].
  simpl in ND. inversion ND as [|? ? Hd NDrest]; subst.
  simpl in Hin. destruct (String.eqb_spec d dir) as [->|Ne].
  - destruct Hin as [E|Hin].
    + injection E as <- <-. right. split; auto. exists old. split; auto.
      now left.
    + left. split; [|now right]. intros ->. apply Hd.
      apply in_map_iff. exists (dir, filePaths). auto.
  - destruct Hin as [E|Hin].
    + injection E as <- <-. left. split; auto. now left.
    + destruct (IH NDrest Hin) as [[Hk H]|[Hk (o & H & E)]].
      * left. split; auto. now right.
      * right. split; auto. exists o. split; auto. now right.
Qed.

Lemma filter_none_seen (seen : list string) (dirGroups : DirGroups)
      (dir : string) :
  Grouped seen dirGroups -> ~ In dir (map fst dirGroups) ->
  filter (fun fp => String.eqb (Path.dirname fp) dir) seen = [].
Proof.
  intros (_ & _ & K) N.
  destruct (filter _ seen) as [|fp l] eqn:F; [reflexivity|].
  assert (In fp (filter (fun fp => String.eqb (Path.dirname fp) dir) seen))
    as Hin by (rewrite F; now left).
  apply filter_In in Hin. destruct Hin as [Hin E].
  apply String.eqb_eq in E. subst dir. elim N. now apply K.
Qed.

Lemma Grouped_step (seen : list string) (dirGroups : DirGroups) (fp : string) :
  Grouped seen dirGroups ->
  Grouped (seen ++ [fp])
    (groupsPush
       (if groupsHas dirGroups (Path.dirname fp) then dirGroups
        else (dirGroups ++ [(Path.dirname fp, [])])%list)
       (Path.dirname fp) fp).
Proof.
  intros G. pose proof G as (ND & C & K).
  set (dir := Path.dirname fp).
  set (dirGroups' := if groupsHas dirGroups dir then dirGroups
                     else (dirGroups ++ [(dir, [])])%list).
  assert (NoDup (map fst dirGroups')) as ND'.
  { unfold dirGroups'. destruct (groupsHas dirGroups dir) eqn:H; auto.
    rewrite map_app. simpl.
    apply NoDup_app; [exact ND | |].
    - constructor; [intros [] | constructor].
    - intros a Ha [<-|[]]. apply groupsHas_In in Ha. congruence. }
  assert (In dir (map fst dirGroups')) as Kdir.
  { unfold dirGroups'. destruct (groupsHas dirGroups dir) eqn:H.
    - now apply groupsHas_In.
    - rewrite map_app. apply in_or_app. right. now left. }
  assert (forall d, In d (map fst dirGroups) -> In d (map fst dirGroups'))
    as Kold.
  { intros d Hd. unfold dirGroups'. destruct (groupsHas dirGroups dir); auto.
    rewrite map_app. apply in_or_app. now left. }
  assert (forall d filePaths,
             In (d, filePaths) dirGroups' ->
             filePaths = filter (fun fp => String.eqb (Path.dirname fp) d) seen
             /\ (d <> dir -> filePaths <> [])) as C'.
  { intros d filePaths Hin. unfold dirGroups' in Hin.
    destruct (groupsHas dirGroups dir) eqn:H.
    - destruct (C d filePaths Hin). auto.
    - apply in_app_or in Hin. destruct Hin as [Hin|[E|[]]].
      + destruct (C d filePaths Hin). auto.
      + injection E as <- <-. split; [|congruence].
        symmetry. apply (filter_none_seen seen dirGroups); auto.
        intros Hd. apply groupsHas_In in Hd. congruence. }
  split; [|split].
  - now rewrite groupsPush_keys.
  - intros d filePaths Hin.
    apply groupsPush_In in Hin; auto.
    rewrite filter_app. simpl. fold dir.
    destruct Hin as [[Hd Hin]|[-> (old & Hin & ->)]].
    + destruct (C' d filePaths Hin) as [E N].
      destruct (String.eqb_spec dir d) as [->|_]; [now elim Hd|].
      rewrite app_nil_r. auto.
    + destruct (C' dir old Hin) as [E _].
      rewrite String.eqb_refl, <- E. split; auto.
      intros Z. apply app_eq_nil in Z. destruct Z. discriminate.
  - intros fp' Hin. rewrite groupsPush_keys.
    apply in_app_or in Hin. destruct Hin as [Hin|[<-|[]]]; auto.
Qed.

Lemma groupLoop_Grouped (rest : list string) :
  forall seen dirGroups,
    Grouped seen dirGroups ->
    Grouped (seen ++ rest) (groupLoop rest dirGroups).
Proof.
  induction rest as [|fp rest IH]; intros seen dirGroups G.
  - now rewrite app_nil_r.
  - cbn [groupLoop]. cbv zeta.
    replace (seen ++ fp :: rest)%list with ((seen ++ [fp]) ++ rest)%list
      by (now rewrite <- app_assoc).
    apply IH. now apply Grouped_step.
Qed.

(** X11.  The grouping of [Engine.run] splits the discovered paths by
    directory: no two groups have the same directory, a group holds
    exactly the paths of its directory in the order they were discovered
    and is never empty, and every path is in the group of its
    directory. *)
Theorem groups_split_paths_by_directory (rawFilePaths : list string) :
  NoDup (map fst (groupByDirectory rawFilePaths))
  /\ (forall dir filePaths,
         In (dir, filePaths) (groupByDirectory rawFilePaths) ->
         filePaths
         = filter (fun fp => String.eqb (Path.dirname fp) dir) rawFilePaths
         /\ filePaths <> [])
  /\ (forall fp,
         In fp rawFilePaths ->
         exists filePaths,
           In (Path.dirname fp, filePaths) (groupByDirectory rawFilePaths)
           /\ In fp filePaths).
Proof.
  assert (Grouped [] []) as G0.
  { split; [constructor|]. split; [intros ? ? []|intros ? []]. }
  pose proof (groupLoop_Grouped rawFilePaths [] [] G0) as (ND & C & K).
  cbn [app] in *. fold (groupByDirectory rawFilePaths) in *.
  split; [exact ND|]. split; [exact C|].
  intros fp Hin. pose proof (K fp Hin) as Hk.
  apply in_map_iff in Hk. destruct Hk as ([d filePaths] & E & Hg).
  simpl in E. subst d. exists filePaths. split; auto.
  destruct (C _ _ Hg) as [-> _]. apply filter_In. split; auto.
  apply String.eqb_refl.
Qed.

End GroupFacts.

(* ================================================================== *)
(** ** [Engine.readFile] and [Engine.readFiles] *)

Module ReadFacts.

Import Preprocessor EngineModel.

Section Reads.

Variable cwd : string.
Variable fsRead : string -> option string.
Variable basename : string -> string.
Variable relative : string -> string -> string.
Variable extname : string -> string.
Variable configPipelines : option Registry.
Variable root : string.
Variable fuel : nat.

Lemma readFilesLoop_Done (options : ReadFileOptions) (filePaths : list string) :
  forall sourceFiles files,
    readFilesLoop cwd fsRead basename relative extname configPipelines root
                  fuel filePaths options sourceFiles = Done files <->
    exists more,
      files = (sourceFiles ++ more)%list
      /\ Forall2 (fun fp file => (readResolved cwd fsRead basename relative extname
                                configPipelines root fuel fp options) = Done file)
                 filePaths more.
Proof.
  induction filePaths as [|fp rest IH]; intros sourceFiles files;
    cbn [readFilesLoop].
  - split.
    + intros [= <-]. exists []. split; [now rewrite app_nil_r | constructor].
    + intros (more & -> & F). inversion F. now rewrite app_nil_r.
  - destruct ((readResolved cwd fsRead basename relative extname
                                configPipelines root fuel fp options)) as [file|p|msg|] eqn:R.
    + rewrite IH. split.
      * intros (more & -> & F). exists (file :: more).
        rewrite <- app_assoc. split; auto.
      * intros (more & -> & F). inversion F as [|? file' ? more' E F']; subst.
        assert (file' = file) as -> by congruence.
        exists more'. rewrite <- app_assoc. split; auto.
    + split; [discriminate|].
      intros (more & _ & F). inversion F; subst. congruence.
    + split; [discriminate|].
      intros (more & _ & F). inversion F; subst. congruence.
    + split; [discriminate|].
      intros (more & _ & F). inversion F; subst. congruence.
Qed.

Lemma readFile_absolute (filePath : string) (options : ReadFileOptions) :
  Path.isAbsolute filePath = true ->
  readFile cwd fsRead basename relative extname configPipelines root fuel
           filePath options
  = readResolved cwd fsRead basename relative extname configPipelines root
                 fuel filePath options.
Proof.
  intros A. unfold readFile, Engine.resolveFilePath. now rewrite A.
Qed.

Lemma readResolved_path (fp : string) (options : ReadFileOptions)
      (file : SourceFile) :
  (readResolved cwd fsRead basename relative extname
                                configPipelines root fuel fp options) = Done file -> sf_path file = fp.
Proof.
  unfold readResolved. destruct (fsRead fp); [|discriminate].
  destruct (fst _); try discriminate. now intros [= <-].
Qed.

End Reads.

(** X12.  [readFiles] over absolute paths, as [findFiles] answers them, is
    [readFile] on each path in turn: it ends with the files exactly when
    every [readFile] ends with its file, the files in the order of the
    paths, each carrying its path. *)
Theorem readFiles_is_readFile_on_each_path
        (cwd : string) (fsRead : string -> option string)
        (basename : string -> string) (relative : string -> string -> string)
        (extname : string -> string) (configPipelines : option Registry)
        (root : string) (fuel : nat)
        (filePaths : list string) (options : ReadFileOptions) :
  Forall (fun fp => Path.isAbsolute fp = true) filePaths ->
  forall files,
    (readFiles cwd fsRead basename relative extname configPipelines root fuel
               filePaths options = Done files
     <-> Forall2 (fun fp file =>
                    readFile cwd fsRead basename relative extname
                             configPipelines root fuel fp options = Done file)
                 filePaths files)
    /\ (readFiles cwd fsRead basename relative extname configPipelines root
                  fuel filePaths options = Done files ->
        map sf_path files = filePaths).
Proof.
  intros A files.
  assert (forall l : list SourceFile,
             Forall2 (fun fp file =>
                        readFile cwd fsRead basename relative extname
                                 configPipelines root fuel fp options
                        = Done file) filePaths l
             <-> Forall2 (fun fp file =>
                        readResolved cwd fsRead basename relative extname
                                     configPipelines root fuel fp options
                        = Done file) filePaths l) as Same.
  { induction A as [|fp rest Hfp A IH]; intros l.
    - split; intros F; inversion F; constructor.
    - split; intros F; inversion F; subst; constructor;
        try (now apply IH);
        rewrite readFile_absolute in *; auto. }
  unfold readFiles. rewrite readFilesLoop_Done. split.
  - rewrite Same. split.
    + now intros (more & -> & F).
    + intros F. now exists files.
  - intros (more & -> & F). cbn [app]. clear Same A.
    induction F as [|fp file rest more' R F IH]; [reflexivity|].
    cbn [map]. rewrite IH. f_equal. now apply (readResolved_path _ _ _ _ _ _ _ _ _ _ _ R).
Qed.

End ReadFacts.

(* ================================================================== *)
(** ** The path helpers of [src/utils/fs.ts] *)

Module FsFacts.

Import Reading FsUtils.

Lemma splitSlashes_nonempty (s : string) : splitSlashes s <> [].
Proof.
  destruct s as [|c s]; simpl; [discriminate|].
  destruct (isSlash c); [discriminate|].
  destruct (splitSlashes s); discriminate.
Qed.

Lemma splitSlashes_noSlash (s : string) :
  Forall (fun seg => noSlash seg = true) (splitSlashes s).
Proof.
  induction s as [|c s IH]; simpl.
  - repeat constructor.
  - destruct (isSlash c) eqn:E.
    + constructor; auto.
    + destruct (splitSlashes s) as [|h t].
      * constructor; [|constructor]. unfold noSlash. simpl. now rewrite E.
      * inversion IH; subst. constructor; auto.
        unfold noSlash in *. simpl. now rewrite E.
Qed.

Lemma len_pos (s : string) : (0 <? JS.len s) = negb (String.eqb s EmptyString).
Proof. destruct s; reflexivity. Qed.

Lemma cleanSegments_plain (s : string) :
  noDots (cleanSegments s) = true ->
  Forall (fun seg => plainSegment seg = true) (cleanSegments s).
Proof.
  intros D. apply Forall_forall. intros seg Hin.
  unfold noDots in D. rewrite forallb_forall in D. specialize (D seg Hin).
  unfold cleanSegments in Hin. apply filter_In in Hin. destruct Hin as [Hin P].
  pose proof (splitSlashes_noSlash s) as F. rewrite Forall_forall in F.
  specialize (F seg Hin). rewrite len_pos in P.
  unfold plainSegment. rewrite P, F. simpl. 
  apply andb_true_iff in D. destruct D as [-> ->]. reflexivity.
Qed.

(** *** [path.join] on plain segments *)

Lemma plainSegment_parts (seg : string) :
  plainSegment seg = true ->
  seg <> EmptyString /\ noSlash seg = true /\ seg <> "."%string
  /\ seg <> ".."%string.
Proof.
  unfold plainSegment. rewrite !andb_true_iff, !negb_true_iff.
  intros [[[A B] C] D].
  repeat split; auto; intros ->; discriminate.
Qed.

Lemma joinLoop_some (segs : list string) :
  Forall (fun seg => plainSegment seg = true) segs ->
  forall joined,
    PathJoin.joinLoop segs (Some joined)
    = Some (match segs with
            | [] => joined
            | _ => joined ++ "/" ++ JS.join "/" segs
            end).
Proof.
  induction 1 as [|seg rest P F IH]; intros joined; [reflexivity|].
  apply plainSegment_parts in P. destruct P as (Ne & _).
  cbn [PathJoin.joinLoop]. rewrite len_pos.
  destruct (String.eqb_spec seg EmptyString) as [->|_]; [now elim Ne|].
  cbn [negb]. rewrite IH. f_equal.
  destruct rest as [|seg' rest]; [reflexivity|].
  cbn [JS.join]. now rewrite !ParseClaims.append_assoc.
Qed.

Lemma joinLoop_none (segs : list string) :
  Forall (fun seg => plainSegment seg = true) segs ->
  PathJoin.joinLoop segs None
  = match segs with
    | [] => None
    | _ => Some (JS.join "/" segs)
    end.
Proof.
  intros F. destruct F as [|seg rest P F]; [reflexivity|].
  pose proof (plainSegment_parts _ P) as (Ne & _).
  cbn [PathJoin.joinLoop]. rewrite len_pos.
  destruct (String.eqb_spec seg EmptyString) as [->|_]; [now elim Ne|].
  cbn [negb]. rewrite (joinLoop_some rest F).
  destruct rest; reflexivity.
Qed.

Lemma noSlash_lacks (seg : string) :
  noSlash seg = true -> lacks "/" seg = true.
Proof.
  unfold noSlash. induction seg as [|c seg IH]; [reflexivity|].
  simpl. rewrite !andb_true_iff. intros [C H]. split; auto.
  unfold isSlash in C. apply negb_true_iff, orb_false_iff in C.
  now rewrite (proj1 C).
Qed.

Lemma split_lacks (sep : ascii) (s : string) :
  lacks sep s = true -> JS.split sep s = [s].
Proof.
  induction s as [|c s IH]; [reflexivity|].
  simpl. rewrite andb_true_iff. intros [C H].
  apply negb_true_iff in C. rewrite C, (IH H). reflexivity.
Qed.

Lemma join_cons (seg seg' : string) (rest : list string) :
  JS.join "/" (seg :: seg' :: rest)
  = seg ++ String "/" (JS.join "/" (seg' :: rest)).
Proof. reflexivity. Qed.

Lemma split_join (segs : list string) :
  segs <> [] ->
  Forall (fun seg => lacks "/" seg = true) segs ->
  JS.split "/" (JS.join "/" segs) = segs.
Proof.
  intros Ne F. induction F as [|seg rest P F IH]; [now elim Ne|].
  destruct rest as [|seg' rest].
  - now apply split_lacks.
  - rewrite join_cons.
    rewrite PathClaims.split_app_sep, (split_lacks _ _ P), IH by discriminate.
    reflexivity.
Qed.

Lemma normalizeSegments_plain (allow : bool) (segs : list string) :
  Forall (fun seg => plainSegment seg = true) segs ->
  forall acc,
    Path.normalizeSegments allow segs acc = (rev acc ++ segs)%list.
Proof.
  induction 1 as [|seg rest P F IH]; intros acc; cbn [Path.normalizeSegments].
  - now rewrite app_nil_r.
  - apply plainSegment_parts in P. destruct P as (N1 & _ & N2 & N3).
    apply String.eqb_neq in N1, N2, N3. rewrite N1, N2, N3. cbn [orb].
    rewrite IH. cbn [rev]. now rewrite <- app_assoc.
Qed.

Lemma join_head (c : ascii) (seg : string) (segs : list string) :
  exists t, JS.join "/" (String c seg :: segs) = String c t.
Proof. destruct segs; eexists; reflexivity. Qed.

(** The last code unit decides [endsWith] for a pattern of one code
    unit. *)
Lemma endsWith_cons (c d : ascii) (s : string) :
  s <> EmptyString ->
  JS.endsWith (String c s) (String d EmptyString)
  = JS.endsWith s (String d EmptyString).
Proof.
  intros Ne. destruct s as [|e s]; [now elim Ne|].
  unfold JS.endsWith. cbn [String.length]. cbn [Nat.leb].
  replace (S (S (String.length s)) - 1)%nat with (S (String.length s)) by lia.
  replace (S (String.length s) - 1)%nat with (String.length s) by lia.
  reflexivity.
Qed.

Lemma endsWith_app_r (a b : string) (d : ascii) :
  b <> EmptyString ->
  JS.endsWith (a ++ b) (String d EmptyString)
  = JS.endsWith b (String d EmptyString).
Proof.
  intros Ne. induction a as [|c a IH]; [reflexivity|].
  rewrite IncludeFacts.append_cons, endsWith_cons; auto.
  destruct a; [exact Ne | discriminate].
Qed.

Lemma endsWith_lacks (d : ascii) (s : string) :
  lacks d s = true -> JS.endsWith s (String d EmptyString) = false.
Proof.
  induction s as [|c s IH]; [reflexivity|].
  simpl lacks. rewrite andb_true_iff. intros [C H].
  destruct s as [|e s].
  - unfold JS.endsWith. simpl. apply negb_true_iff in C. now rewrite C.
  - rewrite endsWith_cons by discriminate. now apply IH.
Qed.

Lemma endsWith_join (segs : list string) :
  Forall (fun seg => plainSegment seg = true) segs ->
  JS.endsWith (JS.join "/" segs) "/" = false.
Proof.
  induction 1 as [|seg rest P F IH]; [reflexivity|].
  apply plainSegment_parts in P. destruct P as (Ne & S & _).
  destruct rest as [|seg' rest].
  - apply endsWith_lacks. now apply noSlash_lacks.
  - rewrite join_cons.
    change (String "/" (JS.join "/" (seg' :: rest)))
      with ("/" ++ JS.join "/" (seg' :: rest)).
    rewrite <- ParseClaims.append_assoc, endsWith_app_r; auto.
    inversion F as [|? ? P' _]; subst.
    apply plainSegment_parts in P'. destruct P' as (Ne' & _).
    destruct seg' as [|c s']; [now elim Ne'|].
    destruct (join_head c s' rest) as [t ->]. discriminate.
Qed.

(** [path.join] of plain segments puts a slash between them; of no
    segment at all it is [.]. *)
Lemma join_plain (segs : list string) :
  Forall (fun seg => plainSegment seg = true) segs ->
  PathJoin.join segs
  = match segs with
    | [] => "."%string
    | _ => JS.join "/" segs
    end.
Proof.
  intros F. unfold PathJoin.join. rewrite joinLoop_none by assumption.
  destruct segs as [|seg rest]; [reflexivity|].
  pose proof (endsWith_join _ F) as E.
  assert (Forall (fun s => lacks "/" s = true) (seg :: rest)) as L.
  { eapply Forall_impl; [|exact F]. intros s P.
    apply plainSegment_parts in P. now apply noSlash_lacks. }
  inversion F as [|? ? P _]; subst.
  apply plainSegment_parts in P. destruct P as (Ne & S & _).
  destruct seg as [|c seg]; [now elim Ne|].
  destruct (join_head c seg rest) as [t J].
  unfold PathJoin.normalize. rewrite E.
  rewrite split_join, normalizeSegments_plain by (auto; discriminate).
  cbn [rev app]. rewrite J.
  assert (c <> "/"%char) as Nc.
  { unfold noSlash in S. simpl in S. apply andb_true_iff in S.
    destruct S as [S _]. unfold isSlash in S.
    apply negb_true_iff, orb_false_iff in S. destruct S as [S _].
    now apply Ascii.eqb_neq. }
  cbn [String.eqb]. 
  assert (Path.isAbsolute (String c t) = false) as ->.
  { destruct c as [[] [] [] [] [] [] [] []]; try reflexivity. now elim Nc. }
  reflexivity.
Qed.

(** *** [removePathStartSegments] *)

Lemma noDots_skipn (k : nat) (segs : list string) :
  noDots segs = true -> noDots (skipn k segs) = true.
Proof.
  unfold noDots. rewrite !forallb_forall. intros H seg Hin.
  apply H. rewrite <- (firstn_skipn k segs). apply in_or_app. now right.
Qed.

Lemma plain_skipn (k : nat) (segs : list string) :
  Forall (fun seg => plainSegment seg = true) segs ->
  Forall (fun seg => plainSegment seg = true) (skipn k segs).
Proof.
  rewrite !Forall_forall. intros H seg Hin.
  apply H. rewrite <- (firstn_skipn k segs). apply in_or_app. now right.
Qed.

Lemma sliceFrom_skipn {A : Type} (l : list A) (count : Z) :
  0 <= count -> sliceFrom l count = skipn (Z.to_nat count) l.
Proof.
  intros H. unfold sliceFrom, sliceIndex. cbv zeta.
  replace (count <? 0) with false by (symmetry; apply Z.ltb_ge; lia).
  destruct (Z.le_gt_cases count (Z.of_nat (List.length l))) as [L|G].
  - now rewrite Z.min_l.
  - rewrite Z.min_r by lia. rewrite Nat2Z.id.
    rewrite !skipn_all2; auto; lia.
Qed.

(** The value of [removePathStartSegments] on a path without [.] and
    [..] segments, for a count that is not negative. *)
Lemma remove_spec (inputPath : string) (count : Z) :
  0 <= count -> noDots (cleanSegments inputPath) = true ->
  removePathStartSegments inputPath count
  = if Z.of_nat (List.length (cleanSegments inputPath)) <=? count
    then EmptyString
    else (if startsWithSlash inputPath then "/" else "")
         ++ JS.join "/" (skipn (Z.to_nat count) (cleanSegments inputPath)).
Proof.
  intros H D. unfold removePathStartSegments. cbv zeta.
  fold (cleanSegments inputPath).
  destruct (Z.leb_spec (Z.of_nat (List.length (cleanSegments inputPath))) count)
    as [L|G]; [reflexivity|].
  rewrite sliceFrom_skipn by assumption.
  rewrite join_plain
    by (apply plain_skipn; now apply cleanSegments_plain).
  destruct (skipn (Z.to_nat count) (cleanSegments inputPath)) as [|seg rest]
    eqn:E.
  - apply (f_equal (@List.length string)) in E.
    rewrite length_skipn in E. simpl in E. lia.
  - destruct (startsWithSlash inputPath); reflexivity.
Qed.

Lemma splitSlashes_noSlash_id (seg : string) :
  noSlash seg = true -> splitSlashes seg = [seg].
Proof.
  unfold noSlash. induction seg as [|c seg IH]; [reflexivity|].
  simpl. rewrite andb_true_iff. intros [C H].
  apply negb_true_iff in C. rewrite C, (IH H). reflexivity.
Qed.

Lemma splitSlashes_app_sep (a b : string) :
  splitSlashes (a ++ String "/" b) = (splitSlashes a ++ splitSlashes b)%list.
Proof.
  induction a as [|c a IH]; [reflexivity|].
  rewrite IncludeFacts.append_cons. cbn [splitSlashes].
  destruct (isSlash c); [now rewrite IH|].
  rewrite IH. pose proof (splitSlashes_nonempty a).
  destruct (splitSlashes a); [congruence | reflexivity].
Qed.

Lemma splitSlashes_join (segs : list string) :
  segs <> [] ->
  Forall (fun seg => plainSegment seg = true) segs ->
  splitSlashes (JS.join "/" segs) = segs.
Proof.
  intros Ne F. induction F as [|seg rest P F IH]; [now elim Ne|].
  apply plainSegment_parts in P. destruct P as (_ & S & _).
  destruct rest as [|seg' rest].
  - now apply splitSlashes_noSlash_id.
  - rewrite join_cons, splitSlashes_app_sep, (splitSlashes_noSlash_id _ S), IH
      by discriminate.
    reflexivity.
Qed.

Lemma filter_plain (segs : list string) :
  Forall (fun seg => plainSegment seg = true) segs ->
  filter (fun segment => 0 <? JS.len segment) segs = segs.
Proof.
  induction 1 as [|seg rest P F IH]; [reflexivity|].
  apply plainSegment_parts in P. destruct P as (Ne & _).
  cbn [filter]. rewrite len_pos.
  destruct (String.eqb_spec seg EmptyString) as [->|_]; [now elim Ne|].
  cbn [negb]. now rewrite IH.
Qed.

Lemma cleanSegments_join (segs : list string) :
  segs <> [] ->
  Forall (fun seg => plainSegment seg = true) segs ->
  cleanSegments (JS.join "/" segs) = segs
  /\ cleanSegments ("/" ++ JS.join "/" segs) = segs
  /\ startsWithSlash (JS.join "/" segs) = false
  /\ startsWithSlash ("/" ++ JS.join "/" segs) = true.
Proof.
  intros Ne F. unfold cleanSegments.
  change ("/" ++ JS.join "/" segs) with (String "/" (JS.join "/" segs)).
  cbn [splitSlashes]. change (isSlash "/") with true. cbv iota.
  rewrite splitSlashes_join by assumption.
  cbn [filter]. change (0 <? JS.len "") with false. cbv iota.
  rewrite filter_plain by assumption.
  split; [reflexivity|]. split; [reflexivity|]. split;
    [|unfold startsWithSlash, JS.startsWith; rewrite !SearchFacts.prefix_cons;
      destruct (JS.join "/" segs); reflexivity].
  destruct F as [|seg rest P F]; [now elim Ne|].
  apply plainSegment_parts in P. destruct P as (Ne' & S & _).
  destruct seg as [|c seg]; [now elim Ne'|].
  destruct (join_head c seg rest) as [t ->].
  unfold noSlash in S. simpl in S. apply andb_true_iff in S.
  destruct S as [S _]. unfold isSlash in S.
  apply negb_true_iff, orb_false_iff in S. destruct S as [S1 S2].
  apply Ascii.eqb_neq in S1, S2.
  unfold startsWithSlash, JS.startsWith. rewrite !SearchFacts.prefix_cons.
  destruct (ascii_dec "\" c); [congruence|].
  destruct (ascii_dec "/" c); [congruence|]. reflexivity.
Qed.

(** X13.  [removePathStartSegments] on a path without [.] and [..] segments,
    for a count that is not negative: the path is emptied when it has no
    more segments than the count, and otherwise its clean segments from
    the count on come back, with single forward slashes between them and
    the leading slash kept; and removing [a] segments and then [b] is
    removing [a + b]. *)
Theorem removePathStartSegments_drops_leading_segments
        (inputPath : string) (a b : Z) :
  0 <= a -> 0 <= b -> noDots (cleanSegments inputPath) = true ->
  removePathStartSegments inputPath a
  = (if Z.of_nat (List.length (cleanSegments inputPath)) <=? a
     then EmptyString
     else (if startsWithSlash inputPath then "/" else "")
          ++ JS.join "/" (skipn (Z.to_nat a) (cleanSegments inputPath)))
  /\ removePathStartSegments (removePathStartSegments inputPath a) b
     = removePathStartSegments inputPath (a + b).
Proof.
  intros Ha Hb D. split; [now apply remove_spec|].
  rewrite (remove_spec inputPath a), (remove_spec inputPath (a + b))
    by (auto; lia).
  set (segs := cleanSegments inputPath) in *.
  destruct (Z.leb_spec (Z.of_nat (List.length segs)) a) as [L|G].
  - replace (Z.of_nat (List.length segs) <=? a + b) with true
      by (symmetry; apply Z.leb_le; lia).
    rewrite remove_spec by auto.
    replace (Z.of_nat (List.length (cleanSegments "")) <=? b) with true
      by (symmetry; apply Z.leb_le; simpl; lia).
    reflexivity.
  - assert (Forall (fun seg => plainSegment seg = true)
                   (skipn (Z.to_nat a) segs)) as F
      by (apply plain_skipn; now apply cleanSegments_plain).
    assert (skipn (Z.to_nat a) segs <> []) as Ne.
    { intros E. apply (f_equal (@List.length string)) in E.
      rewrite length_skipn in E. simpl in E. lia. }
    destruct (cleanSegments_join _ Ne F) as (C1 & C2 & S1 & S2).
    assert (forall pre : bool,
               removePathStartSegments
                 ((if pre then "/" else "")
                  ++ JS.join "/" (skipn (Z.to_nat a) segs)) b
               = if Z.of_nat (List.length segs) <=? a + b then EmptyString
                 else (if pre then "/" else "")
                      ++ JS.join "/" (skipn (Z.to_nat (a + b)) segs)) as R.
    { intros pre.
      assert (cleanSegments ((if pre then "/" else "")
                             ++ JS.join "/" (skipn (Z.to_nat a) segs))
              = skipn (Z.to_nat a) segs) as C by (destruct pre; auto).
      assert (startsWithSlash ((if pre then "/" else "")
                               ++ JS.join "/" (skipn (Z.to_nat a) segs))
              = pre) as S by (destruct pre; auto).
      rewrite remove_spec; rewrite ?C, ?S; auto;
        [|apply noDots_skipn; exact D].
      rewrite length_skipn, skipn_skipn.
      replace (Z.to_nat b + Z.to_nat a)%nat with (Z.to_nat (a + b)) by lia.
      destruct (Z.leb_spec (Z.of_nat (List.length segs - Z.to_nat a)) b);
        destruct (Z.leb_spec (Z.of_nat (List.length segs)) (a + b));
        try lia; reflexivity. }
    apply R.
Qed.

(** *** [replacePathSegment] *)

Lemma everyEqual_eq (slice_ matchSegments : list string) :
  List.length slice_ = List.length matchSegments ->
  everyEqual slice_ matchSegments = true <-> slice_ = matchSegments.
Proof.
  revert matchSegments.
  induction slice_ as [|seg rest IH]; intros [|m ms] L; simpl in *;
    try discriminate; try (split; [reflexivity | reflexivity]).
  rewrite andb_true_iff, String.eqb_eq, (IH ms) by lia.
  split; [intros [-> ->]; reflexivity | intros [= -> ->]; auto].
Qed.

Lemma slice_firstn {A : Type} (l : list A) (j k : nat) :
  (j + k <= List.length l)%nat ->
  slice l (Z.of_nat j) (Z.of_nat j + Z.of_nat k) = firstn k (skipn j l).
Proof.
  intros H. unfold slice, sliceIndex. cbv zeta.
  replace (Z.of_nat j <? 0) with false by (symmetry; apply Z.ltb_ge; lia).
  replace (Z.of_nat j + Z.of_nat k <? 0) with false
    by (symmetry; apply Z.ltb_ge; lia).
  rewrite !Z.min_l by lia.
  replace (Z.to_nat (Z.of_nat j + Z.of_nat k) - Z.to_nat (Z.of_nat j))%nat
    with k by lia.
  now rewrite Nat2Z.id.
Qed.

Lemma matchLoop_found (inputSegments matchSegments : list string) (k : nat) :
  forall turns i,
    (i <= k < i + turns)%nat ->
    (forall j, (i <= j < k)%nat ->
               everyEqual (slice inputSegments (Z.of_nat j)
                                 (Z.of_nat j
                                  + Z.of_nat (List.length matchSegments)))
                          matchSegments = false) ->
    everyEqual (slice inputSegments (Z.of_nat k)
                      (Z.of_nat k + Z.of_nat (List.length matchSegments)))
               matchSegments = true ->
    matchLoop inputSegments matchSegments i turns = Z.of_nat k.
Proof.
  induction turns as [|turns IH]; intros i R N Y; [lia|].
  cbn [matchLoop]. cbv zeta.
  destruct (Nat.eq_dec i k) as [->|Ne].
  - now rewrite Y.
  - rewrite N by lia. apply IH; auto; [lia|].
    intros j Hj. apply N. lia.
Qed.

Lemma matchLoop_none (inputSegments matchSegments : list string) :
  forall turns i,
    (forall j, (i <= j < i + turns)%nat ->
               everyEqual (slice inputSegments (Z.of_nat j)
                                 (Z.of_nat j
                                  + Z.of_nat (List.length matchSegments)))
                          matchSegments = false) ->
    matchLoop inputSegments matchSegments i turns = -1.
Proof.
  induction turns as [|turns IH]; intros i N; [reflexivity|].
  cbn [matchLoop]. cbv zeta. rewrite N by lia.
  apply IH. intros j Hj. apply N. lia.
Qed.

Lemma occurrence_test (inputSegments matchSegments : list string) (j : nat) :
  (j + List.length matchSegments <= List.length inputSegments)%nat ->
  everyEqual (slice inputSegments (Z.of_nat j)
                    (Z.of_nat j + Z.of_nat (List.length matchSegments)))
             matchSegments = true
  <-> firstn (List.length matchSegments) (skipn j inputSegments)
      = matchSegments.
Proof.
  intros H. rewrite slice_firstn by assumption.
  apply everyEqual_eq. rewrite length_firstn, length_skipn. lia.
Qed.

Lemma cleanSegments_clean (s : string) :
  Forall (fun seg => seg <> EmptyString /\ noSlash seg = true)
         (cleanSegments s).
Proof.
  apply Forall_forall. intros seg Hin.
  unfold cleanSegments in Hin. apply filter_In in Hin. destruct Hin as [Hin P].
  pose proof (splitSlashes_noSlash s) as F. rewrite Forall_forall in F.
  split; [|now apply F].
  rewrite len_pos in P. intros ->. discriminate.
Qed.

Lemma clean_noDots_plain (segs : list string) :
  Forall (fun seg => seg <> EmptyString /\ noSlash seg = true) segs ->
  noDots segs = true ->
  Forall (fun seg => plainSegment seg = true) segs.
Proof.
  intros F D. unfold noDots in D. rewrite forallb_forall in D.
  rewrite Forall_forall in *. intros seg Hin.
  destruct (F seg Hin) as [Ne S]. specialize (D seg Hin).
  unfold plainSegment. rewrite S.
  apply String.eqb_neq in Ne. rewrite Ne.
  apply andb_true_iff in D. destruct D as [-> ->]. reflexivity.
Qed.

Lemma join_plain_relative (segs : list string) :
  Forall (fun seg => plainSegment seg = true) segs ->
  JS.startsWith (PathJoin.join segs) PathJoin.sep = false.
Proof.
  intros F. rewrite join_plain by assumption.
  destruct F as [|seg rest P F]; [reflexivity|].
  apply plainSegment_parts in P. destruct P as (Ne & S & _).
  destruct seg as [|c seg]; [now elim Ne|].
  destruct (join_head c seg rest) as [t ->].
  unfold noSlash in S. simpl in S. apply andb_true_iff in S.
  destruct S as [S _]. unfold isSlash in S.
  apply negb_true_iff, orb_false_iff in S. destruct S as [S1 _].
  apply Ascii.eqb_neq in S1.
  unfold JS.startsWith, PathJoin.sep. rewrite SearchFacts.prefix_cons.
  destruct (ascii_dec "/" c); [congruence | reflexivity].
Qed.

(** X14.  The first occurrence of the segments of [match_] among the segments
    of the path is replaced by the segments of the replacement, and only
    that one; an empty [match_] occurs at the start, so the replacement
    is put in front. *)
Theorem replacePathSegment_replaces_first_occurrence
        (inputPath match_ replacement : string) (before after : list string) :
  cleanSegments inputPath = (before ++ cleanSegments match_ ++ after)%list ->
  (forall j, (j < List.length before)%nat ->
             firstn (List.length (cleanSegments match_))
                    (skipn j (cleanSegments inputPath))
             <> cleanSegments match_) ->
  noDots (before ++ cleanSegments replacement ++ after) = true ->
  replacePathSegment inputPath match_ replacement
  = (if JS.startsWith inputPath "/" || JS.startsWith inputPath "\"
     then "/" else "")
    ++ match (before ++ cleanSegments replacement ++ after)%list with
       | [] => "."%string
       | final => JS.join "/" final
       end.
Proof.
  intros E First D.
  assert (Forall (fun seg => plainSegment seg = true)
                 (before ++ cleanSegments replacement ++ after)) as F.
  { apply clean_noDots_plain; [|exact D].
    pose proof (cleanSegments_clean inputPath) as Ci. rewrite E in Ci.
    apply Forall_app in Ci. destruct Ci as [Cb Ci].
    apply Forall_app in Ci. destruct Ci as [_ Ca].
    apply Forall_app. split; [exact Cb|].
    apply Forall_app. split; [apply cleanSegments_clean | exact Ca]. }
  unfold replacePathSegment. cbv zeta.
  set (segs := cleanSegments inputPath) in *.
  set (m := cleanSegments match_) in *.
  set (r := cleanSegments replacement) in *.
  assert (List.length segs
          = (List.length before + List.length m + List.length after)%nat) as L
    by (rewrite E, !length_app; lia).
  assert (matchLoop segs m 0
            (Z.to_nat (Z.of_nat (List.length segs) - Z.of_nat (List.length m)
                       + 1))
          = Z.of_nat (List.length before)) as ->.
  { apply matchLoop_found; [lia| |].
    - intros j Hj. destruct (everyEqual _ m) eqn:Y; [|reflexivity].
      apply occurrence_test in Y; [|lia]. now elim (First j (proj2 Hj)).
    - apply occurrence_test; [lia|].
      rewrite E, skipn_app, Nat.sub_diag, skipn_all. cbn [skipn app].
      rewrite firstn_app, Nat.sub_diag, firstn_all. cbn [firstn].
      now rewrite app_nil_r. }
  replace (Z.of_nat (List.length before) =? -1) with false
    by (symmetry; apply Z.eqb_neq; lia).
  assert (slice segs 0 (Z.of_nat (List.length before)) = before) as ->.
  { change 0 with (Z.of_nat 0).
    rewrite <- (Z.add_0_l (Z.of_nat (List.length before))).
    change 0 with (Z.of_nat 0).
    rewrite slice_firstn by (simpl; lia). cbn [skipn].
    rewrite E, firstn_app, Nat.sub_diag, firstn_all. cbn [firstn].
    now rewrite app_nil_r. }
  assert (sliceFrom segs (Z.of_nat (List.length before)
                          + Z.of_nat (List.length m)) = after) as ->.
  { rewrite sliceFrom_skipn by lia.
    replace (Z.to_nat (Z.of_nat (List.length before)
                       + Z.of_nat (List.length m)))
      with (List.length before + List.length m)%nat by lia.
    rewrite E, app_assoc, skipn_app, length_app, Nat.sub_diag.
    rewrite <- length_app, skipn_all. reflexivity. }
  rewrite (join_plain_relative _ F), (join_plain _ F).
  cbn [negb]. rewrite andb_true_r.
  destruct (JS.startsWith inputPath "/" || JS.startsWith inputPath "\");
    destruct (before ++ r ++ after)%list; reflexivity.
Qed.

(** X15.  When the segments of [match_] occur nowhere among the segments of the
    path, the answer is [path.normalize] of the path. *)
Theorem replacePathSegment_without_occurrence
        (inputPath match_ replacement : string) :
  (forall j,
      (j + List.length (cleanSegments match_)
       <= List.length (cleanSegments inputPath))%nat ->
      firstn (List.length (cleanSegments match_))
             (skipn j (cleanSegments inputPath))
      <> cleanSegments match_) ->
  replacePathSegment inputPath match_ replacement
  = PathJoin.normalize inputPath.
Proof.
  intros N. unfold replacePathSegment. cbv zeta.
  rewrite matchLoop_none; [reflexivity|].
  intros j Hj. destruct (everyEqual _ _) eqn:Y; [|reflexivity].
  apply occurrence_test in Y; [|lia]. elim (N j); [lia | exact Y].
Qed.

End FsFacts.

(* ================================================================== *)
(** ** The properties above on documents of the test suite *)

Module Instances.

Import Preprocessor Reading Fixtures FileSystem EngineModel.

Lemma flat_region_is_kept_or_dropped_witness :
  processVisibility
    ("Before" ++ TAG_OPEN_START ++ (" include=" ++ quoted "roo") ++ ">"
     ++ "Inner" ++ TAG_CLOSE ++ "After")
    "claude"
  = "Before"
    ++ (if shouldKeep (TAG_OPEN_START ++ (" include=" ++ quoted "roo") ++ ">")
                      "claude"
        then "Inner" else EmptyString)
    ++ processVisibility "After" "claude".
Proof.
  apply (FlatRegion.flat_region_is_kept_or_dropped
           "Before" (" include=" ++ quoted "roo") "Inner" "After" "claude");
    reflexivity.
Defined.

Lemma single_directive_is_resolved_in_place_witness :
  processIncludes workDir (lookupFile testFiles)
                  (process workDir (lookupFile testFiles) 9)
                  ("Start " ++ includeTag "./partial.md" ++ " End")
                  (mkIncludeOptions "claude" "default" None "/t" "/t/main.md")
                  initialState
  = (Fulfilled "Start Included Content End",
     mkState [] ["/t/partial.md"]).
Proof.
  rewrite (IncludeFacts.single_directive_is_resolved_in_place
             workDir (lookupFile testFiles)
             (process workDir (lookupFile testFiles) 9)
             (mkIncludeOptions "claude" "default" None "/t" "/t/main.md")
             initialState "Start " "./partial.md" " End")
    by first [reflexivity | simpl; lia].
  vm_compute. reflexivity.
Defined.

Lemma missing_include_leaves_marker_witness :
  process workDir (lookupFile testFiles) 1
          (mainOptions "claude" None ("X" ++ includeTag "./nope.md" ++ "Y"))
          initialState
  = (Fulfilled ("X" ++ missingFileMarker "./nope.md" ++ "Y"),
     mkState [] ["/t/nope.md"]).
Proof.
  apply (IncludeFacts.missing_include_leaves_marker
           workDir (lookupFile testFiles) 0
           (mainOptions "claude" None ("X" ++ includeTag "./nope.md" ++ "Y"))
           initialState "X" "./nope.md" "Y");
    first [reflexivity | simpl; lia].
Defined.


Lemma readFiles_is_readFile_on_each_path_witness :
  (readFiles workDir (lookupFile testFiles) (fun p => p) (fun _ p => p)
             (fun _ => ".md") None "/t" 9
             ["/t/partial.md"; "/t/level1.md"]
             (mkReadFileOptions "claude" "default" None)
   = Done [mkSourceFile "/t/partial.md" "Included Content" "/t/partial.md"
                        "/t/partial.md" ".md";
           mkSourceFile "/t/level1.md" "Level1-Level2Content-Level1"
                        "/t/level1.md" "/t/level1.md" ".md"]
   <-> Forall2 (fun fp file =>
                  readFile workDir (lookupFile testFiles) (fun p => p)
                           (fun _ p => p) (fun _ => ".md") None "/t" 9 fp
                           (mkReadFileOptions "claude" "default" None)
                  = Done file)
               ["/t/partial.md"; "/t/level1.md"]
               [mkSourceFile "/t/partial.md" "Included Content"
                             "/t/partial.md" "/t/partial.md" ".md";
                mkSourceFile "/t/level1.md" "Level1-Level2Content-Level1"
                             "/t/level1.md" "/t/level1.md" ".md"])
  /\ (readFiles workDir (lookupFile testFiles) (fun p => p) (fun _ p => p)
                (fun _ => ".md") None "/t" 9
                ["/t/partial.md"; "/t/level1.md"]
                (mkReadFileOptions "claude" "default" None)
      = Done [mkSourceFile "/t/partial.md" "Included Content" "/t/partial.md"
                           "/t/partial.md" ".md";
              mkSourceFile "/t/level1.md" "Level1-Level2Content-Level1"
                           "/t/level1.md" "/t/level1.md" ".md"] ->
      map sf_path
          [mkSourceFile "/t/partial.md" "Included Content" "/t/partial.md"
                        "/t/partial.md" ".md";
           mkSourceFile "/t/level1.md" "Level1-Level2Content-Level1"
                        "/t/level1.md" "/t/level1.md" ".md"]
      = ["/t/partial.md"; "/t/level1.md"]).
Proof.
  apply (ReadFacts.readFiles_is_readFile_on_each_path
           workDir (lookupFile testFiles) (fun p => p) (fun _ p => p)
           (fun _ => ".md") None "/t" 9
           ["/t/partial.md"; "/t/level1.md"]
           (mkReadFileOptions "claude" "default" None)).
  repeat constructor.
Defined.

Lemma removePathStartSegments_drops_leading_segments_witness :
  FsUtils.removePathStartSegments "/a//b\c/d" 1
  = (if Z.of_nat (List.length (FsUtils.cleanSegments "/a//b\c/d")) <=? 1
     then EmptyString
     else (if FsUtils.startsWithSlash "/a//b\c/d" then "/" else "")
          ++ JS.join "/" (skipn (Z.to_nat 1)
                                (FsUtils.cleanSegments "/a//b\c/d")))
  /\ FsUtils.removePathStartSegments
       (FsUtils.removePathStartSegments "/a//b\c/d" 1) 2
     = FsUtils.removePathStartSegments "/a//b\c/d" (1 + 2).
Proof.
  apply (FsFacts.removePathStartSegments_drops_leading_segments
           "/a//b\c/d" 1 2); [lia | lia | reflexivity].
Defined.

Lemma replacePathSegment_replaces_first_occurrence_witness :
  FsUtils.replacePathSegment "/p/a/b/q/a/b" "a/b" "z" = "/p/z/q/a/b".
Proof.
  rewrite (FsFacts.replacePathSegment_replaces_first_occurrence
             "/p/a/b/q/a/b" "a/b" "z" ["p"] ["q"; "a"; "b"]).
  - reflexivity.
  - reflexivity.
  - intros j Hj. assert (j = 0%nat) as -> by (simpl in Hj; lia).
    vm_compute. discriminate.
  - reflexivity.
Defined.

Lemma replacePathSegment_without_occurrence_witness :
  FsUtils.replacePathSegment "a/b" "c" "x" = PathJoin.normalize "a/b".
Proof.
  apply (FsFacts.replacePathSegment_without_occurrence "a/b" "c" "x").
  intros j Hj.
  assert (j = 0 \/ j = 1)%nat as [->| ->] by (simpl in Hj; lia);
    vm_compute; discriminate.
Defined.

Lemma document_without_includes_is_only_filtered_witness :
  process workDir (lookupFile testFiles) 1
          (mainOptions "claude" None rooRegionWithInclude) initialState
  = (Fulfilled (processVisibility rooRegionWithInclude "claude"),
     initialState)
  /\ (JS.find TAG_OPEN_START rooRegionWithInclude = None ->
      process workDir (lookupFile testFiles) 1
              (mainOptions "claude" None rooRegionWithInclude) initialState
      = (Fulfilled rooRegionWithInclude, initialState)).
Proof.
  apply (IncludeFacts.document_without_includes_is_only_filtered
           workDir (lookupFile testFiles) 0
           (mainOptions "claude" None rooRegionWithInclude) initialState);
    reflexivity.
Defined.

Lemma filter_follows_the_nesting_witness :
  processVisibility
    (docText
       (Filtered "A" (" include=" ++ quoted "claude")
          (Filtered "B" (" exclude=" ++ quoted "claude")
             (Plain "C") (Plain "D"))
          (Filtered "E" (" include=" ++ quoted "roo")
             (Filtered "F" EmptyString (Plain "G") (Plain "H"))
             (Plain "I"))))
    "claude"
  = visible "claude"
      (Filtered "A" (" include=" ++ quoted "claude")
         (Filtered "B" (" exclude=" ++ quoted "claude")
            (Plain "C") (Plain "D"))
         (Filtered "E" (" include=" ++ quoted "roo")
            (Filtered "F" EmptyString (Plain "G") (Plain "H"))
            (Plain "I"))).
Proof.
  apply (NestedRegions.filter_follows_the_nesting
           (Filtered "A" (" include=" ++ quoted "claude")
              (Filtered "B" (" exclude=" ++ quoted "claude")
                 (Plain "C") (Plain "D"))
              (Filtered "E" (" include=" ++ quoted "roo")
                 (Filtered "F" EmptyString (Plain "G") (Plain "H"))
                 (Plain "I")))
           "claude").
  reflexivity.
Defined.

Lemma pipelines_run_on_the_included_content_witness :
  processIncludes workDir (lookupFile letterFiles)
                  (process workDir (lookupFile letterFiles) 9)
                  ("Say: " ++ includeTagWith "./a.md" "uppercase" ++ "!")
                  (mkIncludeOptions "claude" "default" (Some upperRegistry)
                                    "/t" "/t/main.md")
                  initialState
  = (Fulfilled "Say: HELLO!", mkState [] ["/t/a.md"]).
Proof.
  rewrite (PipelineIncludeFacts.pipelines_run_on_the_included_content
             workDir (lookupFile letterFiles)
             (process workDir (lookupFile letterFiles) 9)
             (mkIncludeOptions "claude" "default" (Some upperRegistry)
                               "/t" "/t/main.md")
             initialState "Say: " "./a.md" "uppercase" "!")
    by first [reflexivity | simpl; lia].
  vm_compute. reflexivity.
Defined.

End Instances.
